(** * urlscrape: breadth-first link indexing and keyword ranking

    A shallow embedding of [bfs_traverse_dom] and [search_keyword_in_hrefs]
    from [bfs_keyword_search.py], together with the parts of the Python
    runtime they call ([str] methods, [urllib.parse.urlparse], [re]), and
    the properties of the two functions that the specification states.
    The text report of [save_bfs_results] and the choice of the skipped
    URLs that [save_keyword_results] lists are embedded as well, with
    further properties of the code.

    Conventions.
    - The library functions follow CPython 3.11.
    - A Python [str] is a list of characters, each character a code point
      below 256 (the [ascii] type read as Latin-1).  Character classes and
      case mapping are the Unicode ones restricted to that range.
    - A Python [dict] is an association list in insertion order whose keys
      are pairwise distinct; [dict_set] is item assignment.
    - A Python exception is the [Raise] outcome of the [result] monad.
    - [len(a) / len(b)] is the exact quotient in [Q]; the binary64 quotient
      Python computes orders and equates two such quotients the same way as
      long as the counts stay below 2^26. *)

From Stdlib Require Import Ascii String NArith ZArith QArith Lia.
From Stdlib Require Import DecimalString.
From stdpp Require Import base option list strings sorting.
From Equations Require Import Equations.

Set Default Proof Using "Type".
Local Open Scope string_scope.
Local Open Scope list_scope.
Local Open Scope stdpp_scope.
Local Open Scope nat_scope.

(* ===================================================================== *)
(** ** Python text *)
(* ===================================================================== *)

Abbreviation str := (list ascii).

Definition lit (s : string) : str := list_ascii_of_string s.
Coercion lit : string >-> list.

Definition ord (c : ascii) : N := N_of_ascii c.

Definition between (lo hi : N) (c : ascii) : bool :=
  ((lo <=? ord c) && (ord c <=? hi))%N.

Definition is_code (n : N) (c : ascii) : bool := (ord c =? n)%N.

(** [c.lower() != c]: A-Z, and the Latin-1 capitals except the
    multiplication sign. *)
Definition has_lower (c : ascii) : bool :=
  between 65 90 c || between 192 214 c || between 216 222 c.

Definition char_lower (c : ascii) : ascii :=
  if has_lower c then ascii_of_N (ord c + 32) else c.

(** [s.lower()] *)
Definition lower (s : str) : str := map char_lower s.

(** [c.isascii() and c.isalpha()] *)
Definition ascii_letter (c : ascii) : bool :=
  between 65 90 c || between 97 122 c.

Definition isalpha (c : ascii) : bool :=
  between 65 90 c || between 97 122 c || is_code 170 c || is_code 181 c
  || is_code 186 c || between 192 214 c || between 216 246 c
  || between 248 255 c.

Definition isdecimal (c : ascii) : bool := between 48 57 c.

Definition isalnum (c : ascii) : bool :=
  isalpha c || isdecimal c || between 178 179 c || is_code 185 c
  || between 188 190 c.

Definition isspace (c : ascii) : bool :=
  between 9 13 c || between 28 32 c || is_code 133 c || is_code 160 c.

(** Truthiness of a string: [bool(s)]. *)
Definition nonempty (s : str) : bool :=
  match s with [] => false | _ :: _ => true end.

(** [s.startswith(p)] *)
Fixpoint startswith (s p : str) : bool :=
  match p, s with
  | [], _ => true
  | _ :: _, [] => false
  | c :: p', d :: s' => Ascii.eqb c d && startswith s' p'
  end.

(** [s.endswith(p)] *)
Definition endswith (s p : str) : bool := startswith (rev s) (rev p).

(** [sub in s] *)
Fixpoint contains (sub s : str) : bool :=
  startswith s sub ||
  match s with
  | [] => false
  | _ :: s' => contains sub s'
  end.

(** [c in s] for a single character. *)
Definition has_char (c : ascii) (s : str) : bool := existsb (Ascii.eqb c) s.

(** [s.find(c)]: [None] stands for -1. *)
Fixpoint find (c : ascii) (s : str) : option nat :=
  match s with
  | [] => None
  | d :: s' => if Ascii.eqb d c then Some 0 else S <$> find c s'
  end.

(** [s.find(c, start)] *)
Definition find_from (c : ascii) (s : str) (start : nat) : option nat :=
  (fun i => start + i) <$> find c (drop start s).

(** [s.rfind(c)] *)
Fixpoint rfind (c : ascii) (s : str) : option nat :=
  match s with
  | [] => None
  | d :: s' =>
      match rfind c s' with
      | Some i => Some (S i)
      | None => if Ascii.eqb d c then Some 0 else None
      end
  end.

(** [s.split(c, 1)] where the caller has checked [c in s]; without an
    occurrence the whole string and an empty remainder. *)
Definition split_once (c : ascii) (s : str) : str * str :=
  match find c s with
  | Some i => (take i s, drop (S i) s)
  | None => (s, [])
  end.

(** [s.split(c)] *)
Fixpoint split (c : ascii) (s : str) : list str :=
  match s with
  | [] => [[]]
  | d :: s' =>
      if Ascii.eqb d c then [] :: split c s'
      else match split c s' with
           | [] => [[d]]
           | w :: ws => (d :: w) :: ws
           end
  end.

(** [sep.join(parts)] *)
Fixpoint join (sep : str) (parts : list str) : str :=
  match parts with
  | [] => []
  | [p] => p
  | p :: ps => p ++ sep ++ join sep ps
  end.

(** [s.lstrip(chars)] for a set of characters given as a predicate. *)
Fixpoint lstrip (strip : ascii -> bool) (s : str) : str :=
  match s with
  | [] => []
  | c :: s' => if strip c then lstrip strip s' else s
  end.

(** [s.split()]: the maximal runs of non-whitespace characters.  [cur] is
    the run being read, reversed. *)
Fixpoint split_ws_from (cur : str) (s : str) : list str :=
  match s with
  | [] => if nonempty cur then [rev cur] else []
  | c :: s' =>
      if isspace c
      then (if nonempty cur then [rev cur] else []) ++ split_ws_from [] s'
      else split_ws_from (c :: cur) s'
  end.

Definition split_ws (s : str) : list str := split_ws_from [] s.

(** [s.strip()]: [s] without the whitespace at its two ends. *)
Definition strip (s : str) : str :=
  rev (lstrip isspace (rev (lstrip isspace s))).

(** [str(n)] for a number that is not negative. *)
Definition str_of_nat (n : nat) : str :=
  lit (NilEmpty.string_of_uint (Nat.to_uint n)).

(** The line feed. *)
Definition newline : str := ["010"%char].

(* ===================================================================== *)
(** ** Exceptions *)
(* ===================================================================== *)

(** [ValueError], [IndexError] and [re.error] are the exceptions of the
    operations the modelled code uses.  [Unmodelled] marks pattern syntax
    outside the fragment of [re] embedded below; no theorem relies on what
    Python does there. *)
Inductive exn := ValueError | IndexError | ReError | Unmodelled.

Inductive result (A : Type) :=
| Ok (a : A)
| Raise (e : exn).
Arguments Ok {A} a.
Arguments Raise {A} e.

(** Sequencing: [x ← r; k] runs [k] on the value of [r], and raises what
    [r] raises. *)
#[global] Instance result_bind : MBind result := fun A B k r =>
  match r with
  | Ok a => k a
  | Raise e => Raise e
  end.

(** A [for] loop whose body may raise: the state is threaded through the
    elements in order and the first exception ends the loop. *)
Fixpoint for_each {A S} (body : S -> A -> result S) (l : list A) (s : S)
  : result S :=
  match l with
  | [] => Ok s
  | x :: l' => s' ← body s x; for_each body l' s'
  end.

(* ===================================================================== *)
(** ** Python dictionaries *)
(* ===================================================================== *)

Definition pydict (K V : Type) := list (K * V).

Section PyDict.
Context {K V : Type} `{EqDecision K}.

(** [d.get(k)] *)
Fixpoint dict_get (k : K) (d : pydict K V) : option V :=
  match d with
  | [] => None
  | (k', v) :: d' => if decide (k' = k) then Some v else dict_get k d'
  end.

(** [k in d] *)
Definition dict_mem (k : K) (d : pydict K V) : bool :=
  match dict_get k d with Some _ => true | None => false end.

(** [d[k] = v]: an existing key keeps its position. *)
Fixpoint dict_set (k : K) (v : V) (d : pydict K V) : pydict K V :=
  match d with
  | [] => [(k, v)]
  | (k', v') :: d' =>
      if decide (k' = k) then (k, v) :: d' else (k', v') :: dict_set k v d'
  end.

Definition dict_keys (d : pydict K V) : list K := map fst d.
End PyDict.

(** [d[k].append(x)] on a [defaultdict(list)]. *)
Definition dict_append {K V} `{EqDecision K} (k : K) (x : V)
    (d : pydict K (list V)) : pydict K (list V) :=
  dict_set k (default [] (dict_get k d) ++ [x]) d.

(* ===================================================================== *)
(** ** The data of the program *)
(* ===================================================================== *)

(** A node of the DOM snapshot, as [serializeNode] builds it.  The fields
    are the keys the traversal reads; [None] is an absent key.  [children]
    is the list under the key of that name, empty when the key is absent
    (the traversal treats an absent and an empty list alike). *)
#[warnings="-register-all"]
Inductive node := Node {
  nodeType : option Z;
  tagName : option str;
  attributes : option (pydict str str);
  linkText : option str;
  displayedText : option str;
  children : list node
}.

(** An entry of [level_hrefs]. *)
Record href := Href {
  href_url : str;
  href_text : str;
  href_tag : str;
  href_element_type : str
}.

(** A value of [unique_urls]; [cand_path] is the key ['path'], set only on
    the entries that become matches. *)
Record candidate := Candidate {
  cand_text : str;
  cand_url : str;
  cand_tag : str;
  cand_normalized_url : str;
  cand_path : option str
}.

Record level_stat := LevelStat {
  total_unique_urls : nat;
  matching_urls : nat;
  keyword_ratio : Q
}.

Record debug_record := DebugRecord {
  total_urls : nat;
  skipped : pydict str str;
  included : list str
}.

Record search_result := SearchResult {
  target_level : nat;
  all_matches : pydict nat (list candidate);
  best_matches : list candidate;
  level_stats : pydict nat level_stat;
  highest_ratio : Q;
  debug_info : pydict nat debug_record
}.

(* ===================================================================== *)
(** ** urllib.parse *)
(* ===================================================================== *)

Record ParseResult := {
  scheme : str;
  netloc : str;
  path : str;
  params : str;
  query : str;
  fragment : str
}.

Definition scheme_char (c : ascii) : bool :=
  between 97 122 c || between 65 90 c || between 48 57 c
  || is_code 43 c || is_code 45 c || is_code 46 c.

Definition c0_control_or_space (c : ascii) : bool := between 0 32 c.

(** Tab, carriage return and line feed, which [urlsplit] deletes. *)
Definition unsafe_url_byte (c : ascii) : bool :=
  is_code 9 c || is_code 13 c || is_code 10 c.

Definition uses_params : list str :=
  [ lit ""; lit "ftp"; lit "hdl"; lit "prospero"; lit "http"; lit "imap";
    lit "https"; lit "shttp"; lit "rtsp"; lit "rtspu"; lit "sip";
    lit "sips"; lit "mms"; lit "sftp"; lit "tel" ].

(** [_splitnetloc(url, start)] *)
Definition splitnetloc (url : str) (start : nat) : str * str :=
  let delim :=
    fold_left
      (fun delim c =>
         match find_from c url start with
         | Some wdelim => Nat.min delim wdelim
         | None => delim
         end)
      (lit "/?#") (length url) in
  (take (delim - start) (drop start url), drop delim url).

(** [_splitparams(url)] *)
Definition splitparams (url : str) : str * str :=
  let cut i := (take i url, drop (S i) url) in
  if has_char "/" url then
    match find_from ";" url (default 0 (rfind "/" url)) with
    | Some i => cut i
    | None => (url, [])
    end
  else
    match find ";" url with
    | Some i => cut i
    | None => (take (length url - 1) url, url)
    end.

(* ===================================================================== *)
(** ** re *)
(* ===================================================================== *)

(** The characters [re.escape] puts a backslash before:
    [()[]{}?*+-|^$\.&~#], space, tab, line feed, carriage return,
    vertical tab and form feed. *)
Definition re_special (c : ascii) : bool :=
  has_char c "()[]{}?*+-|^$\.&~# " || between 9 13 c.

(** [re.escape(s)] *)
Definition re_escape (s : str) : str :=
  flat_map (fun c => if re_special c then ["\"%char; c] else [c]) s.

(** The operations of a parsed pattern.  The fragment of the pattern
    language embedded here has no repetition, alternation, group or
    character set: every operation reads at most one character. *)
Inductive at_code :=
| AT_BEGINNING | AT_BEGINNING_STRING | AT_BOUNDARY | AT_NON_BOUNDARY
| AT_END | AT_END_STRING.

Inductive category := CATEGORY_DIGIT | CATEGORY_SPACE | CATEGORY_WORD.

Inductive op :=
| LITERAL (c : ascii)
| ANY
| AT (a : at_code)
| IN_CATEGORY (negate : bool) (k : category).

Record regex := Regex { ops : list op; ignorecase : bool }.

(** [_escape]: the operation for a backslash followed by [c]. *)
Definition parse_escape (c : ascii) : result op :=
  match c with
  | "A" => Ok (AT AT_BEGINNING_STRING)
  | "b" => Ok (AT AT_BOUNDARY)
  | "B" => Ok (AT AT_NON_BOUNDARY)
  | "d" => Ok (IN_CATEGORY false CATEGORY_DIGIT)
  | "D" => Ok (IN_CATEGORY true CATEGORY_DIGIT)
  | "s" => Ok (IN_CATEGORY false CATEGORY_SPACE)
  | "S" => Ok (IN_CATEGORY true CATEGORY_SPACE)
  | "w" => Ok (IN_CATEGORY false CATEGORY_WORD)
  | "W" => Ok (IN_CATEGORY true CATEGORY_WORD)
  | "Z" => Ok (AT AT_END_STRING)
  | "a" => Ok (LITERAL "007")
  | "f" => Ok (LITERAL "012")
  | "n" => Ok (LITERAL "010")
  | "r" => Ok (LITERAL "013")
  | "t" => Ok (LITERAL "009")
  | "v" => Ok (LITERAL "011")
  | "\" => Ok (LITERAL "\")
  | "x" | "u" | "U" | "N" => Raise Unmodelled
  | _ =>
      if isdecimal c then Raise Unmodelled
      else if ascii_letter c then Raise ReError
      else Ok (LITERAL c)
  end%char.

(** [_parse] on a character that is not a backslash. *)
Definition parse_char (c : ascii) : result op :=
  match c with
  | "." => Ok ANY
  | "^" => Ok (AT AT_BEGINNING)
  | "$" => Ok (AT AT_END)
  | "[" | "{" | "(" | ")" | "*" | "+" | "?" | "|" => Raise Unmodelled
  | _ => Ok (LITERAL c)
  end%char.

(** The pattern parser.  A backslash at the end of the pattern is the
    error "bad escape (end of pattern)". *)
Fixpoint sre_parse (p : str) : result (list op) :=
  match p with
  | [] => Ok []
  | "\"%char :: [] => Raise ReError
  | "\"%char :: c :: p' =>
      o ← parse_escape c; os ← sre_parse p'; Ok (o :: os)
  | c :: p' =>
      o ← parse_char c; os ← sre_parse p'; Ok (o :: os)
  end.

(** [re.compile(p, re.IGNORECASE)] when [ic], [re.compile(p)] otherwise. *)
Definition re_compile (p : str) (ic : bool) : result regex :=
  os ← sre_parse p; Ok {| ops := os; ignorecase := ic |}.

(** [\w] *)
Definition is_word (c : ascii) : bool := isalnum c || is_code 95 c.

Definition in_category (k : category) (c : ascii) : bool :=
  match k with
  | CATEGORY_DIGIT => isdecimal c
  | CATEGORY_SPACE => isspace c
  | CATEGORY_WORD => is_word c
  end.

(** A position in the subject is the character before it ([None] at the
    start) and the characters from it on. *)
Definition word_before (prev : option ascii) : bool :=
  match prev with Some c => is_word c | None => false end.

Definition word_here (rest : str) : bool :=
  match rest with c :: _ => is_word c | [] => false end.

Definition empty_subject (prev : option ascii) (rest : str) : bool :=
  match prev, rest with None, [] => true | _, _ => false end.

Definition at_ok (a : at_code) (prev : option ascii) (rest : str) : bool :=
  match a with
  | AT_BEGINNING | AT_BEGINNING_STRING =>
      match prev with None => true | Some _ => false end
  | AT_BOUNDARY =>
      negb (empty_subject prev rest)
      && xorb (word_before prev) (word_here rest)
  | AT_NON_BOUNDARY =>
      negb (empty_subject prev rest)
      && negb (xorb (word_before prev) (word_here rest))
  | AT_END =>
      match rest with
      | [] => true
      | [c] => is_code 10 c
      | _ => false
      end
  | AT_END_STRING => negb (nonempty rest)
  end.

Definition char_ok (ic : bool) (o : op) (x : ascii) : bool :=
  match o with
  | LITERAL c =>
      if ic then Ascii.eqb (char_lower x) (char_lower c) else Ascii.eqb x c
  | ANY => negb (is_code 10 x)
  | IN_CATEGORY negate k => xorb negate (in_category k x)
  | AT _ => false
  end.

(** Match the operations at a position; the result is what is left of the
    subject after the match. *)
Fixpoint match_here (ic : bool) (os : list op) (prev : option ascii)
    (rest : str) : option str :=
  match os with
  | [] => Some rest
  | AT a :: os' =>
      if at_ok a prev rest then match_here ic os' prev rest else None
  | o :: os' =>
      match rest with
      | x :: rest' =>
          if char_ok ic o x then match_here ic os' (Some x) rest' else None
      | [] => None
      end
  end.

Fixpoint search_from (r : regex) (prev : option ascii) (rest : str) : bool :=
  match match_here (ignorecase r) (ops r) prev rest with
  | Some _ => true
  | None =>
      match rest with
      | [] => false
      | x :: rest' => search_from r (Some x) rest'
      end
  end.

(** [r.search(s) is not None] *)
Definition re_search (r : regex) (s : str) : bool := search_from r None s.

(** [r.fullmatch(s) is not None] *)
Definition re_fullmatch (r : regex) (s : str) : bool :=
  match match_here (ignorecase r) (ops r) None s with
  | Some [] => true
  | _ => false
  end.

Section Program.

(** CPython releases differ in the validation of a bracketed host:
    the security releases from 3.11.4 on (and distribution backports)
    call [_check_bracketed_netloc], earlier ones accept every netloc whose
    brackets are balanced.  The check is a parameter; [true] means that
    the netloc passes. *)
Variable check_bracketed_netloc : str -> bool.

(** [urljoin(base, url)] resolves a reference against a base; it parses
    both and so can raise [ValueError]. *)
Variable urljoin : str -> str -> result str.

(** The scheme of [urlsplit]: the text before the first colon when it
    starts with an ASCII letter and consists of scheme characters. *)
Definition split_scheme (url : str) : str * str :=
  match find ":" url with
  | Some i =>
      if (0 <? i) && ascii_letter (default "000"%char (head url))
         && forallb scheme_char (take i url)
      then (lower (take i url), drop (S i) url)
      else ([], url)
  | None => ([], url)
  end.

(** The network location of [urlsplit], with its checks of brackets. *)
Definition split_netloc (url : str) : result (str * str) :=
  if startswith url "//" then
    let '(netloc, url) := splitnetloc url 2 in
    if (has_char "[" netloc && negb (has_char "]" netloc))
       || (has_char "]" netloc && negb (has_char "[" netloc))
    then Raise ValueError
    else if has_char "[" netloc && has_char "]" netloc
            && negb (check_bracketed_netloc netloc)
    then Raise ValueError
    else Ok (netloc, url)
  else Ok ([], url).

Definition split_fragment (url : str) : str * str :=
  if has_char "#" url then split_once "#" url else (url, []).

Definition split_query (url : str) : str * str :=
  if has_char "?" url then split_once "?" url else (url, []).

(** [urlsplit(url)].  [_checknetloc] is left out: it only raises on a
    character whose NFKC form contains one of [/?#@:], and no code point
    below 256 has such a form. *)
Definition urlsplit (url : str) : result (str * str * str * str * str) :=
  let url := lstrip c0_control_or_space url in
  let url := List.filter (fun c => negb (unsafe_url_byte c)) url in
  let '(scheme, url) := split_scheme url in
  '(netloc, url) ← split_netloc url;
  let '(url, fragment) := split_fragment url in
  let '(url, query) := split_query url in
  Ok (scheme, netloc, url, query, fragment).

(** [urlparse(url)] *)
Definition urlparse (url : str) : result ParseResult :=
  '(scheme, netloc, url, query, fragment) ← urlsplit url;
  let '(url, params) :=
    if bool_decide (scheme ∈ uses_params) && has_char ";" url
    then splitparams url
    else (url, []) in
  Ok {| scheme := scheme; netloc := netloc; path := url;
        params := params; query := query; fragment := fragment |}.

(* =================================================================== *)
(** ** bfs_traverse_dom *)
(* =================================================================== *)

Definition image_extensions : list str :=
  [ lit ".jpg"; lit ".jpeg"; lit ".png"; lit ".gif"; lit ".bmp";
    lit ".webp"; lit ".svg"; lit ".ico" ].

(** [a or b] on strings. *)
Definition str_or (a b : str) : str := if nonempty a then a else b.

(** The body of the [while] loop up to the [append]: the entry the node
    adds to its level, if any. *)
Definition node_link (base_url : str) (n : node) : result (option href) :=
  if bool_decide (nodeType n = Some 1%Z) then
    let tag_name := default [] (tagName n) in
    match attributes n with
    | Some attrs =>
        let href := default [] (dict_get (lit "href") attrs) in
        if nonempty href && negb (startswith href "#")
           && negb (startswith href "javascript:")
        then
          if negb (existsb (fun ext => endswith (lower href) ext)
                     image_extensions)
          then
            let link_text :=
              str_or (default [] (linkText n))
                     (default [] (displayedText n)) in
            let link_text :=
              if nonempty link_text then link_text
              else str_or (default [] (dict_get (lit "title") attrs))
                          "[No text]" in
            full_url ←
              (if negb (startswith href "http://"
                        || startswith href "https://"
                        || startswith href "//")
               then urljoin base_url href
               else Ok href);
            let link_text :=
              if nonempty link_text then join " " (split_ws link_text)
              else link_text in
            Ok (Some {| href_url := full_url;
                        href_text := link_text;
                        href_tag := tag_name;
                        href_element_type :=
                          if bool_decide (lower tag_name = lit "a")
                          then "anchor" else "element_with_href" |})
          else Ok None
        else Ok None
    | None => Ok None
    end
  else Ok None.

Fixpoint node_size (n : node) : nat :=
  S (sum_list_with node_size (children n)).

Definition queue_size (queue : list (node * nat)) : nat :=
  sum_list_with (fun e => node_size e.1) queue.

(** [queue.append((child, level + 1))] for every child. *)
Definition enqueue_children (queue : list (node * nat)) (n : node)
    (level : nat) : list (node * nat) :=
  queue ++ map (fun child => (child, level + 1)) (children n).

(** The [while queue] loop. *)
Equations bfs_loop (base_url : str) (queue : list (node * nat))
    (level_hrefs : pydict nat (list href))
    : result (pydict nat (list href)) by wf (queue_size queue) lt :=
  bfs_loop base_url [] level_hrefs := Ok level_hrefs;
  bfs_loop base_url ((n, level) :: queue) level_hrefs
    with node_link base_url n := {
    | Raise e := Raise e;
    | Ok found :=
        bfs_loop base_url (enqueue_children queue n level)
          (match found with
           | Some h => dict_append level h level_hrefs
           | None => level_hrefs
           end) }.
Next Obligation.
  unfold enqueue_children, queue_size.
  rewrite sum_list_with_app. destruct n as [? ? ? ? ? cs]. cbn.
  replace (sum_list_with (fun e : node * nat => node_size e.1)
             (map (fun child => (child, level + 1)) cs))
    with (sum_list_with node_size cs); [lia |].
  clear. induction cs as [|c cs IH]; cbn; [done | by rewrite IH].
Qed.

Definition bfs_traverse_dom (dom_snapshot : node) (base_url : str)
    : result (pydict nat (list href)) :=
  bfs_loop base_url [(dom_snapshot, 0)] [].

(* =================================================================== *)
(** ** search_keyword_in_hrefs *)
(* =================================================================== *)

Definition share_domains : list str :=
  [ lit "facebook.com/sharer"; lit "twitter.com/intent/tweet";
    lit "whatsapp.com/send"; lit "telegram.me/share" ].

Definition is_share_link (url : str) : bool :=
  existsb (fun share_domain => contains share_domain (lower url))
    share_domains.

Definition social_reason : str := "Social media sharing link".

(** The reason recorded for a URL with a fragment or a query. *)
Definition anchor_query_reason (parsed_url : ParseResult) : str :=
  let has_anchor := nonempty (fragment parsed_url) in
  let has_query := nonempty (query parsed_url) in
  join ", "
    ((if has_anchor
      then [lit "Has anchor (#" ++ fragment parsed_url ++ lit ")"]
      else [])
     ++ (if has_query then [lit "Has query parameters"] else [])).

Definition normalize (parsed_url : ParseResult) : str :=
  scheme parsed_url ++ lit "://" ++ netloc parsed_url ++ path parsed_url.

(** The body of the first inner loop: one entry of the level, on the
    state [(unique_urls, skipped)]. *)
Definition collect_href (st : pydict str candidate * pydict str str)
    (h : href) : result (pydict str candidate * pydict str str) :=
  let '(unique_urls, skipped) := st in
  let url := href_url h in
  if is_share_link url then
    Ok (unique_urls, dict_set url social_reason skipped)
  else
    parsed_url ← urlparse url;
    let has_anchor := nonempty (fragment parsed_url) in
    let has_query := nonempty (query parsed_url) in
    let normalized_url := normalize parsed_url in
    if has_anchor || has_query then
      Ok (unique_urls,
          dict_set url (anchor_query_reason parsed_url) skipped)
    else if match dict_get normalized_url unique_urls with
            | None => true
            | Some seen => length (cand_text seen) <? length (href_text h)
            end
    then
      Ok (dict_set normalized_url
            {| cand_text := href_text h;
               cand_url := href_url h;
               cand_tag := href_tag h;
               cand_normalized_url := normalized_url;
               cand_path := None |}
            unique_urls,
          skipped)
    else Ok (unique_urls, skipped).

Definition not_in_path_reason (keyword : str) : str :=
  lit "Keyword '" ++ keyword ++ lit "' not in URL path".

Definition entire_path_reason (keyword : str) : str :=
  lit "Keyword '" ++ keyword ++ lit "' is the entire path".

Definition set_path (href_data : candidate) (p : str) : candidate :=
  {| cand_text := cand_text href_data;
     cand_url := cand_url href_data;
     cand_tag := cand_tag href_data;
     cand_normalized_url := cand_normalized_url href_data;
     cand_path := Some p |}.

(** The body of the second inner loop: one item of [unique_urls], on the
    state [(matching_items, skipped, included)]. *)
Definition analyse_url (keyword : str) (keyword_regex : regex)
    (st : list candidate * pydict str str * list str)
    (item : str * candidate)
    : result (list candidate * pydict str str * list str) :=
  let '(matching_items, skipped, included) := st in
  let '(norm_url, href_data) := item in
  parsed_url ← urlparse norm_url;
  let path := path parsed_url in
  if negb (re_search keyword_regex path) then
    Ok (matching_items,
        dict_set norm_url (not_in_path_reason keyword) skipped,
        included)
  else
    let path_segments := List.filter nonempty (split "/" path) in
    if (length path_segments =? 1)
       && re_fullmatch keyword_regex (default [] (head path_segments))
    then
      Ok (matching_items,
          dict_set norm_url (entire_path_reason keyword) skipped,
          included)
    else
      Ok (matching_items ++ [set_path href_data path],
          skipped,
          included ++ [norm_url]).

(** [len(a) / len(b)] *)
Definition ratio (a b : nat) : Q := Z.of_nat a # Pos.of_nat b.

(** The three dictionaries the outer loop fills. *)
Definition tables : Type :=
  pydict nat level_stat * pydict nat (list candidate)
  * pydict nat debug_record.

(** The first inner loop, from the empty [unique_urls] and [skipped]. *)
Definition collect_level (hrefs : list href)
    : result (pydict str candidate * pydict str str) :=
  for_each collect_href hrefs ([], []).

(** The second inner loop, over [unique_urls.items()]. *)
Definition analyse_level (keyword : str) (keyword_regex : regex)
    (unique_urls : pydict str candidate) (skipped : pydict str str)
    : result (list candidate * pydict str str * list str) :=
  for_each (analyse_url keyword keyword_regex) unique_urls
    ([], skipped, []).

Definition stat_of (total_valid_urls : nat) (matching_items : list candidate)
    : level_stat :=
  {| total_unique_urls := total_valid_urls;
     matching_urls := length matching_items;
     keyword_ratio := ratio (length matching_items) total_valid_urls |}.

(** The body of the outer loop: one level. *)
Definition process_level (keyword : str) (keyword_regex : regex)
    (st : tables) (item : nat * list href) : result tables :=
  let '(level_stats, level_matches, level_debug) := st in
  let '(level, hrefs) := item in
  '(unique_urls, skipped) ← collect_level hrefs;
  let total_valid_urls := length unique_urls in
  '(matching_items, skipped, included) ←
    analyse_level keyword keyword_regex unique_urls skipped;
  let '(level_stats, level_matches) :=
    if 0 <? total_valid_urls then
      (dict_set level (stat_of total_valid_urls matching_items)
         level_stats,
       match matching_items with
       | [] => level_matches
       | _ :: _ => dict_set level matching_items level_matches
       end)
    else (level_stats, level_matches) in
  Ok (level_stats, level_matches,
      dict_set level
        {| total_urls := length hrefs;
           skipped := skipped;
           included := included |}
        level_debug).

(** [sorted(l, key=key, reverse=True)]: descending, and stable. *)
Fixpoint insert_desc {A} (key : A -> Q) (x : A) (l : list A) : list A :=
  match l with
  | [] => [x]
  | y :: l' =>
      if Qle_bool (key y) (key x) then x :: l
      else y :: insert_desc key x l'
  end.

Definition sorted_desc {A} (key : A -> Q) (l : list A) : list A :=
  foldr (insert_desc key) [] l.

(** [re.compile(r'\b' + re.escape(keyword) + r'\b', re.IGNORECASE)] *)
Definition compile_keyword (keyword : str) : result regex :=
  re_compile (lit "\b" ++ re_escape keyword ++ lit "\b") true.

(** The end of the function, from [if not level_stats] on: the choice of
    the level and the result dictionary. *)
Definition select_level (st : tables) : result (option search_result) :=
  let '(level_stats, level_matches, level_debug) := st in
  match level_stats with
  | [] => Ok None
  | _ :: _ =>
      let sorted_levels :=
        sorted_desc (fun x => keyword_ratio x.2) level_stats in
      first ← match sorted_levels with
              | x :: _ => Ok x
              | [] => Raise IndexError
              end;
      let highest_ratio := keyword_ratio first.2 in
      let target_level := first.1 in
      let same_ratio_levels :=
        map fst
          (List.filter
             (fun x => Qeq_bool (keyword_ratio x.2) highest_ratio)
             level_stats) in
      let target_level :=
        match same_ratio_levels with
        | [] => target_level
        | l :: ls => fold_left Nat.min ls l
        end in
      let best_matches :=
        default [] (dict_get target_level level_matches) in
      Ok (Some {| target_level := target_level;
                  all_matches := level_matches;
                  best_matches := best_matches;
                  level_stats := level_stats;
                  highest_ratio := highest_ratio;
                  debug_info := level_debug |})
  end.

Definition search_keyword_in_hrefs
    (level_hrefs : pydict nat (list href)) (keyword : str)
    : result (option search_result) :=
  keyword_regex ← compile_keyword keyword;
  st ← for_each (process_level keyword keyword_regex) level_hrefs
         ([], [], []);
  select_level st.

(* =================================================================== *)
(** ** save_bfs_results: the text report *)
(* =================================================================== *)

(** [sorted(d.items())] for a dictionary whose keys are numbers: the items
    in ascending order of the keys (the keys of a dictionary are distinct,
    so that the values are never compared). *)
Fixpoint insert_asc {V} (x : nat * V) (l : list (nat * V))
    : list (nat * V) :=
  match l with
  | [] => [x]
  | y :: l' => if x.1 <=? y.1 then x :: l else y :: insert_asc x l'
  end.

Definition sorted_items {V} (d : pydict nat V) : list (nat * V) :=
  foldr insert_asc [] d.

(** The cut the report makes of a string of more than 80 characters. *)
Definition truncate (s : str) : str :=
  if 80 <? length s then take 77 s ++ lit "..." else s.

(** The lines of the link with number [i]. *)
Definition href_lines (i : nat) (h : href) : list str :=
  let text :=
    if nonempty (href_text h) then strip (href_text h)
    else lit "[No text]" in
  let url := href_url h in
  let text := truncate text in
  let url := truncate url in
  [ str_of_nat i ++ lit ". [" ++ href_tag h ++ lit "] " ++ text;
    lit "   URL: " ++ url;
    [] ].

(** The lines of a level: its links are numbered from 1. *)
Definition level_lines (level : nat) (hrefs : list href) : list str :=
  [ lit "Level " ++ str_of_nat level ++ lit " - "
    ++ str_of_nat (length hrefs) ++ lit " hrefs found";
    replicate 40 "-"%char ]
  ++ concat (imap (fun i h => href_lines (S i) h) hrefs)
  ++ [ [] ].

(** [output_lines] *)
Definition output_lines (level_hrefs : pydict nat (list href))
    (base_url : str) : list str :=
  [ lit "BFS Traversal Results - hrefs by level for " ++ base_url;
    replicate 60 "="%char;
    [] ]
  ++ flat_map (fun item => level_lines item.1 item.2)
       (sorted_items level_hrefs).

(** What [save_bfs_results] writes to [txt_path]. *)
Definition save_bfs_results_text (level_hrefs : pydict nat (list href))
    (base_url : str) : str :=
  join newline (output_lines level_hrefs base_url).

(* =================================================================== *)
(** ** save_keyword_results: the skipped URLs it reports *)
(* =================================================================== *)

(** [anchor_urls]: the entries of the exclusion log of the target level
    that the two reports list, those whose reason has the word anchor. *)
Definition anchor_urls (skipped_urls : pydict str str) : list (str * str) :=
  List.filter (fun item => contains (lit "anchor") (lower item.2))
    skipped_urls.

(* =================================================================== *)
(** ** Notions used to state the properties *)
(* =================================================================== *)

(** A dictionary has pairwise distinct keys. *)
Definition wf_dict {K V} (d : pydict K V) : Prop := NoDup (dict_keys d).

(** The list stored under a key of a [defaultdict(list)], empty for a
    missing key. *)
Definition get_list {K V} `{EqDecision K} (k : K) (d : pydict K (list V))
    : list V :=
  default [] (dict_get k d).

(** The nodes [d] parent hops below the nodes of a forest, from left to
    right: level order. *)
Fixpoint level (d : nat) (forest : list node) : list node :=
  match d with
  | 0 => forest
  | S d' => level d' (flat_map children forest)
  end.

(** [at_depth root d n]: [n] is reached from [root] by [d] steps from a
    node to one of its children. *)
Inductive at_depth (root : node) : nat -> node -> Prop :=
| at_depth_root : at_depth root 0 root
| at_depth_child d p c :
    at_depth root d p -> c ∈ children p -> at_depth root (S d) c.

(** The entries a list of nodes adds, in order. *)
Definition link_of (base_url : str) (n : node) : option href :=
  match node_link base_url n with
  | Ok found => found
  | Raise _ => None
  end.

Definition links_of (base_url : str) (ns : list node) : list href :=
  omap (link_of base_url) ns.

(** The condition the specification gives for a node to yield a link:
    an element node with a non-empty [href] attribute that starts with
    neither [#] nor [javascript:] and whose lowercase form does not end
    with an image extension. *)
Definition eligible (n : node) : bool :=
  bool_decide (nodeType n = Some 1%Z)
  && match attributes n with
     | Some attrs =>
         let href := default [] (dict_get (lit "href") attrs) in
         nonempty href
         && negb (startswith href "#")
         && negb (startswith href "javascript:")
         && negb (existsb (fun ext => endswith (lower href) ext)
                    image_extensions)
     | None => false
     end.

(** The normalized key under which a link enters the candidate pool, for
    a link that passes the social-share and the fragment/query
    exclusions. *)
Definition survivor_key (h : href) : option str :=
  if is_share_link (href_url h) then None
  else match urlparse (href_url h) with
       | Ok parsed_url =>
           if nonempty (fragment parsed_url) || nonempty (query parsed_url)
           then None
           else Some (normalize parsed_url)
       | Raise _ => None
       end.

Definition to_candidate (normalized_url : str) (h : href) : candidate :=
  {| cand_text := href_text h;
     cand_url := href_url h;
     cand_tag := href_tag h;
     cand_normalized_url := normalized_url;
     cand_path := None |}.

(** The first of the links of [hrefs] with key [k] whose text is of
    maximal length among them. *)
Definition first_longest (k : str) (hrefs : list href) (i : nat) (h : href)
    : Prop :=
  hrefs !! i = Some h
  /\ survivor_key h = Some k
  /\ forall j h', hrefs !! j = Some h' -> survivor_key h' = Some k ->
       length (href_text h') <= length (href_text h)
       /\ (length (href_text h') = length (href_text h) -> i <= j).

(** The entry the first inner loop writes to [skipped] for a link. *)
Definition collect_write (h : href) : option (str * str) :=
  if is_share_link (href_url h) then Some (href_url h, social_reason)
  else match urlparse (href_url h) with
       | Ok parsed_url =>
           if nonempty (fragment parsed_url) || nonempty (query parsed_url)
           then Some (href_url h, anchor_query_reason parsed_url)
           else None
       | Raise _ => None
       end.

(** The entry the second inner loop writes to [skipped] for a
    candidate. *)
Definition analyse_write (keyword : str) (keyword_regex : regex)
    (item : str * candidate) : option (str * str) :=
  match urlparse item.1 with
  | Ok parsed_url =>
      if negb (re_search keyword_regex (path parsed_url))
      then Some (item.1, not_in_path_reason keyword)
      else
        let path_segments :=
          List.filter nonempty (split "/" (path parsed_url)) in
        if (length path_segments =? 1)
           && re_fullmatch keyword_regex (default [] (head path_segments))
        then Some (item.1, entire_path_reason keyword)
        else None
  | Raise _ => None
  end.

(** The match the second inner loop appends for a candidate. *)
Definition analyse_match (keyword : str) (keyword_regex : regex)
    (item : str * candidate) : option candidate :=
  match urlparse item.1, analyse_write keyword keyword_regex item with
  | Ok parsed_url, None => Some (set_path item.2 (path parsed_url))
  | _, _ => None
  end.

(** The key the second inner loop appends to [included] for a candidate. *)
Definition analyse_included (keyword : str) (keyword_regex : regex)
    (item : str * candidate) : option str :=
  match analyse_match keyword keyword_regex item with
  | Some _ => Some item.1
  | None => None
  end.

(** The effect of one link on [unique_urls]. *)
Definition pool_update (unique_urls : pydict str candidate) (h : href)
    : pydict str candidate :=
  match survivor_key h with
  | Some k =>
      if match dict_get k unique_urls with
         | None => true
         | Some seen => length (cand_text seen) <? length (href_text h)
         end
      then dict_set k (to_candidate k h) unique_urls
      else unique_urls
  | None => unique_urls
  end.

(** The candidate pool of a level: [unique_urls] after the first inner
    loop. *)
Definition pool (hrefs : list href) : pydict str candidate :=
  foldl pool_update [] hrefs.

(** The two candidates of the scenario of the specification. *)
Definition fire_report_url : str := "https://x.com/fire/report".
Definition fire_url : str := "https://x.com/fire".

(** Queue entries for the nodes of one level. *)
Definition tagged (l : nat) (ns : list node) : list (node * nat) :=
  map (fun n => (n, l)) ns.

(** The links found [d - l] levels below nodes that stand at level [l];
    none when [d] is above [l]. *)
Definition below (base_url : str) (l : nat) (ns : list node) (d : nat)
    : list href :=
  if l <=? d then links_of base_url (level (d - l) ns) else [].

(** No key of the dictionary holds an empty list. *)
Definition no_empty_list {K V} (d : pydict K (list V)) : Prop :=
  forall k l, (k, l) ∈ d -> l ≠ [].

(** *** Sample inputs *)

(** [urlsplit] without validation of bracketed hosts, as in the releases
    before 3.11.4. *)
Definition accept_brackets : str -> bool := fun _ => true.

(** [urljoin] for a base that is a scheme and a host, and a reference that
    is an absolute path: the path is appended. *)
Definition join_absolute_path (base url : str) : result str := Ok (base ++ url).

Definition anchor (url text : string) : href :=
  {| href_url := lit url; href_text := lit text; href_tag := lit "A";
     href_element_type := lit "anchor" |}.

(** The level of the scenario: the two links [/fire/report] and [/fire] of
    [https://x.com]. *)
Definition fire_level : pydict nat (list href) :=
  [ (1, [anchor "https://x.com/fire/report" "Fire report";
         anchor "https://x.com/fire" "Fire"]) ].

(** Levels 2 and 1 both have ratio 1, level 3 has ratio 1/2. *)
Definition tied_levels : pydict nat (list href) :=
  [ (3, [anchor "https://x.com/fire/a" "a"; anchor "https://x.com/b" "b"]);
    (2, [anchor "https://x.com/fire/c" "c"]);
    (1, [anchor "https://x.com/fire/d" "d";
         anchor "https://x.com/e/fire" "e"]) ].

(** A level whose links are all excluded, before a level with a
    candidate. *)
Definition sparse_levels : pydict nat (list href) :=
  [ (0, [anchor "https://x.com/news?utm=1" "News";
         anchor "https://x.com/news#top" "Top"]);
    (1, [anchor "https://x.com/fire/report" "Fire report"]) ].

(** Links that share the normalized URL [https://x.com/a], with texts of
    length 5, 6 and 6, among links that do not survive. *)
Definition duplicate_links : list href :=
  [ anchor "https://x.com/a" "short";
    anchor "https://x.com/a#frag" "a much longer text";
    anchor "https://x.com/a" "longer";
    anchor "https://x.com/b" "other";
    anchor "https://x.com/a" "LONGER" ].

(** A share link with a query, and a candidate. *)
Definition share_level : pydict nat (list href) :=
  [ (0, [anchor "https://facebook.com/sharer/sharer.php?u=x" "Share";
         anchor "https://x.com/fire/report" "Fire report"]) ].

(** A link whose network location has an opening bracket only. *)
Definition broken_level : pydict nat (list href) :=
  [ (0, [anchor "https://x.com/fire/report" "Fire report";
         anchor "http://[" "Broken"]) ].

(** The same URL with a fragment twice, and a share link whose URL is also
    the normalized form of a link with a tab in it. *)
Definition repeated_level : pydict nat (list href) :=
  [ (0, [anchor "https://x.com/a#top" "one";
         anchor "https://x.com/a#top" "two";
         anchor "https://facebook.com/sharer" "Share";
         {| href_url := lit "https://facebook.com/sha"
                        ++ ["009"%char] ++ lit "rer";
            href_text := lit "Tab"; href_tag := lit "A";
            href_element_type := lit "anchor" |};
         anchor "https://x.com/fire/report" "Fire report"]) ].

Definition element (tag : string) (attrs : pydict str str)
    (text : option str) (cs : list node) : node :=
  {| nodeType := Some 1%Z; tagName := Some (lit tag);
     attributes := Some attrs; linkText := text; displayedText := None;
     children := cs |}.

Definition link_node (url text : string) : node :=
  element "A" [(lit "href", lit url)] (Some (lit text)) [].

(** A document with links at depths 1 and 2, an in-page anchor and an
    image. *)
Definition sample_dom : node :=
  element "HTML" [] None
    [ link_node "/fire/report" "Fire report";
      element "DIV" [] None
        [ link_node "#section2" "Section 2";
          link_node "https://x.com/deep" " Deep   link " ];
      link_node "/fire" "Fire";
      link_node "/logo.PNG" "Logo" ].

(** [urljoin] for a base that is a scheme and a host, and a reference that
    is an absolute path or has a scheme other than that of the base:
    [urljoin] parses the base and the reference with [urlparse] and raises
    what that raises; an absolute path is appended to the base, a reference
    with its own scheme is returned as it is. *)
Definition join_after_parsing (base url : str) : result str :=
  parsed_base ← urlparse base;
  parsed_url ← urlparse url;
  if nonempty (scheme parsed_url)
     && negb (bool_decide (scheme parsed_url = scheme parsed_base))
  then Ok url
  else Ok (base ++ url).

(** A document whose second link has a network location with an opening
    bracket only. *)
Definition broken_dom : node :=
  element "HTML" [] None
    [ link_node "/fire" "Fire";
      link_node "ftp://[" "Broken";
      link_node "/fire/report" "Fire report" ].

(** A list of writes applied to a dictionary in order. *)
Definition replay (writes : list (str * str)) (d : pydict str str)
    : pydict str str :=
  foldl (fun d w => dict_set w.1 w.2 d) d writes.

(** All writes to the [skipped] dictionary of a level, in the order in
    which the two loops make them. *)
Definition level_writes (keyword : str) (keyword_regex : regex)
    (hrefs : list href) (unique_urls : pydict str candidate)
    : list (str * str) :=
  omap collect_write hrefs
  ++ omap (analyse_write keyword keyword_regex) unique_urls.

(** The reason of the last write for [url]. *)
Fixpoint last_write (url : str) (writes : list (str * str)) : option str :=
  match writes with
  | [] => None
  | (u, reason) :: writes' =>
      match last_write url writes' with
      | Some later => Some later
      | None => if decide (u = url) then Some reason else None
      end
  end.

(** The regular expression of a keyword, as the parser builds it. *)
Definition keyword_ops (keyword : str) : list op :=
  AT AT_BOUNDARY :: map LITERAL keyword ++ [AT AT_BOUNDARY].

Definition keyword_regex_of (keyword : str) : regex :=
  {| ops := keyword_ops keyword; ignorecase := true |}.

(** The head of a list is a maximum of [key]. *)
Definition head_max {A} (key : A -> Q) (l : list A) : Prop :=
  match l with
  | [] => True
  | h :: t => forall y, y ∈ t -> (key y <= key h)%Q
  end.

(** The character before the position reached after reading [w]. *)
Definition prev_after (prev : option ascii) (w : str) : option ascii :=
  match last w with
  | Some c => Some c
  | None => prev
  end.

(** What the outer loop stores for a level, from the results of its two
    inner loops. *)
Definition store_level (level : nat) (hrefs : list href)
    (unique_urls : pydict str candidate)
    (analysed : list candidate * pydict str str * list str) (st : tables)
    : tables :=
  let '(matching_items, skipped, included) := analysed in
  let '(level_stats, level_matches, level_debug) := st in
  (if 0 <? length unique_urls
   then dict_set level (stat_of (length unique_urls) matching_items) level_stats
   else level_stats,
   if 0 <? length unique_urls
   then match matching_items with
        | [] => level_matches
        | _ :: _ => dict_set level matching_items level_matches
        end
   else level_matches,
   dict_set level
     {| total_urls := length hrefs; skipped := skipped; included := included |}
     level_debug).

(** The entries of the three tables under one level. *)
Definition tables_get (level : nat) (st : tables)
    : option level_stat * option (list candidate) * option debug_record :=
  (dict_get level st.1.1, dict_get level st.1.2, dict_get level st.2).

(** The entries [store_level] leaves under its level; a level with an empty
    pool keeps whatever statistics and matches were there. *)
Definition stored (hrefs : list href) (unique_urls : pydict str candidate)
    (analysed : list candidate * pydict str str * list str)
    (old : option level_stat * option (list candidate) * option debug_record)
    : option level_stat * option (list candidate) * option debug_record :=
  let '(matching_items, skipped, included) := analysed in
  (if 0 <? length unique_urls
   then Some (stat_of (length unique_urls) matching_items)
   else old.1.1,
   if 0 <? length unique_urls
   then match matching_items with
        | [] => old.1.2
        | _ :: _ => Some matching_items
        end
   else old.1.2,
   Some {| total_urls := length hrefs; skipped := skipped;
           included := included |}).

Definition wf_tables (st : tables) : Prop :=
  wf_dict st.1.1 /\ wf_dict st.1.2 /\ wf_dict st.2.

(** The checks of brackets that [split_netloc] makes on a network
    location. *)
Definition brackets_ok (netloc : str) : bool :=
  negb ((has_char "[" netloc && negb (has_char "]" netloc))
        || (has_char "]" netloc && negb (has_char "[" netloc)))
  && negb (has_char "[" netloc && has_char "]" netloc
           && negb (check_bracketed_netloc netloc)).

(** Case analysis on the 256 characters. *)
Ltac each_char c :=
  let b0 := fresh in let b1 := fresh in let b2 := fresh in
  let b3 := fresh in let b4 := fresh in let b5 := fresh in
  let b6 := fresh in let b7 := fresh in
  destruct c as [b0 b1 b2 b3 b4 b5 b6 b7];
  destruct b0, b1, b2, b3, b4, b5, b6, b7.

(* =================================================================== *)
(** ** Dictionaries and loops *)
(* =================================================================== *)

Section DictFacts.
Context {K V : Type} `{EqDecision K}.
Implicit Types (d : pydict K V) (k : K) (v : V).

Lemma dict_get_set_eq k v d : dict_get k (dict_set k v d) = Some v.
Proof.
  induction d as [|[k' v'] d IH]; cbn; repeat case_decide; cbn;
    repeat case_decide; congruence.
Qed.

Lemma dict_get_set_ne k k' v d :
  k ≠ k' -> dict_get k' (dict_set k v d) = dict_get k' d.
Proof.
  intros Hne. induction d as [|[k0 v0] d IH]; cbn; repeat case_decide;
    cbn; repeat case_decide; congruence.
Qed.

Lemma dict_get_set k k' v d :
  dict_get k' (dict_set k v d)
  = if decide (k = k') then Some v else dict_get k' d.
Proof.
  case_decide; subst; auto using dict_get_set_eq, dict_get_set_ne.
Qed.

Lemma dict_get_None k d : dict_get k d = None <-> k ∉ dict_keys d.
Proof.
  unfold dict_keys. induction d as [|[k' v'] d IH]; cbn.
  - split; [intros _; apply not_elem_of_nil | done].
  - rewrite not_elem_of_cons. case_decide; subst.
    + split; [done | by intros []].
    + rewrite IH. split; [by split | by intros []].
Qed.

Lemma dict_get_Some_elem k v d : dict_get k d = Some v -> (k, v) ∈ d.
Proof.
  induction d as [|[k' v'] d IH]; cbn; [done|].
  case_decide; subst.
  - intros [= ->]. apply list_elem_of_here.
  - intros. apply list_elem_of_further. auto.
Qed.

Lemma dict_get_elem k v d : wf_dict d -> (k, v) ∈ d -> dict_get k d = Some v.
Proof.
  unfold wf_dict, dict_keys.
  induction d as [|[k' v'] d IH]; cbn; [by intros _ ?%elem_of_nil|].
  rewrite NoDup_cons. intros [Hk Hd] [[= -> ->]|Hin]%elem_of_cons.
  - by rewrite decide_True.
  - rewrite decide_False; [auto|]. intros ->. apply Hk.
    apply (list_elem_of_fmap_2 fst) in Hin. exact Hin.
Qed.

Lemma dict_keys_set k v d :
  dict_keys (dict_set k v d)
  = if dict_mem k d then dict_keys d else dict_keys d ++ [k].
Proof.
  unfold dict_mem, dict_keys.
  induction d as [|[k' v'] d IH]; cbn; [done|].
  case_decide; subst; cbn; [done|]. rewrite IH.
  by destruct (dict_get k d).
Qed.

Lemma dict_set_wf k v d : wf_dict d -> wf_dict (dict_set k v d).
Proof.
  unfold wf_dict. rewrite dict_keys_set. unfold dict_mem.
  destruct (dict_get k d) eqn:E; [done|]. intros Hd.
  apply NoDup_app. split_and!; [done| |apply NoDup_singleton].
  intros x Hx ->%list_elem_of_singleton. by apply dict_get_None in E.
Qed.

Lemma dict_set_nonempty k v d : dict_set k v d ≠ [].
Proof. destruct d as [|[k' v'] d]; cbn; [done|]. by case_decide. Qed.

End DictFacts.

Lemma bind_Ok {A B} (r : result A) (k : A -> result B) b :
  r ≫= k = Ok b <-> exists a, r = Ok a /\ k a = Ok b.
Proof.
  destruct r; cbn; split; [eauto | by intros (? & [= ->] & ?) | done |].
  by intros (? & ? & ?).
Qed.

Lemma bind_Raise {A B} (r : result A) (k : A -> result B) e :
  r ≫= k = Raise e
  <-> r = Raise e \/ exists a, r = Ok a /\ k a = Raise e.
Proof.
  destruct r; cbn; split; [eauto | | by left; congruence |].
  - by intros [|(? & [= ->] & ?)].
  - intros [H|(? & ? & ?)]; congruence.
Qed.

Lemma for_each_app {A S} (body : S -> A -> result S) l1 l2 s :
  for_each body (l1 ++ l2) s = for_each body l1 s ≫= for_each body l2.
Proof.
  revert s. induction l1 as [|x l1 IH]; intros s; cbn; [done|].
  destruct (body s x); cbn; auto.
Qed.

Lemma for_each_snoc {A S} (body : S -> A -> result S) l x s :
  for_each body (l ++ [x]) s
  = for_each body l s ≫= fun s' => body s' x.
Proof.
  rewrite for_each_app. destruct (for_each body l s) as [s'|]; cbn; [|done].
  by destruct (body s' x).
Qed.

(* ===================================================================== *)
(** ** The keyword pattern *)
(* ===================================================================== *)

Lemma parse_escape_special c :
  re_special c = true -> parse_escape c = Ok (LITERAL c).
Proof. each_char c; vm_compute; congruence. Qed.

Lemma parse_char_plain c :
  re_special c = false -> c ≠ "\"%char /\ parse_char c = Ok (LITERAL c).
Proof. each_char c; vm_compute; intros; split; congruence. Qed.

Lemma sre_parse_plain c rest :
  c ≠ "\"%char ->
  sre_parse (c :: rest)
  = parse_char c ≫= fun o => sre_parse rest ≫= fun os => Ok (o :: os).
Proof. each_char c; intros Hc; try reflexivity. by destruct Hc. Qed.

(** An escaped character parses as the literal of that character. *)
Lemma sre_parse_escaped c rest :
  sre_parse (re_escape [c] ++ rest)
  = sre_parse rest ≫= fun os => Ok (LITERAL c :: os).
Proof.
  unfold re_escape. cbn [flat_map]. rewrite app_nil_r.
  destruct (re_special c) eqn:Hc.
  - cbn [app sre_parse]. by rewrite (parse_escape_special c Hc).
  - apply parse_char_plain in Hc as [Hc Hp]. cbn [app].
    by rewrite (sre_parse_plain c rest Hc), Hp.
Qed.

Lemma re_escape_cons c s : re_escape (c :: s) = re_escape [c] ++ re_escape s.
Proof. unfold re_escape. cbn. by rewrite app_nil_r. Qed.

Lemma sre_parse_re_escape keyword rest :
  sre_parse (re_escape keyword ++ rest)
  = sre_parse rest ≫= fun os => Ok (map LITERAL keyword ++ os).
Proof.
  induction keyword as [|c keyword IH]; cbn [map app].
  - unfold re_escape. cbn. by destruct (sre_parse rest).
  - rewrite re_escape_cons, <- app_assoc, sre_parse_escaped, IH.
    by destruct (sre_parse rest).
Qed.

Lemma compile_keyword_ops keyword :
  compile_keyword keyword = Ok (keyword_regex_of keyword).
Proof.
  unfold compile_keyword, re_compile, keyword_regex_of, keyword_ops.
  change (lit "\b" ++ re_escape keyword ++ lit "\b")
    with ("\"%char :: "b"%char :: (re_escape keyword ++ lit "\b")).
  cbn [sre_parse]. rewrite sre_parse_re_escape. reflexivity.
Qed.

Lemma prev_after_cons prev c w :
  prev_after prev (c :: w) = prev_after (Some c) w.
Proof.
  unfold prev_after. destruct w as [|d w]; [done|].
  change (last (c :: d :: w)) with (last (d :: w)).
  by destruct (last (d :: w)) eqn:E; [|apply last_None in E].
Qed.

Lemma match_literals_app keyword os prev w rest :
  lower w = lower keyword ->
  match_here true (map LITERAL keyword ++ os) prev (w ++ rest)
  = match_here true os (prev_after prev w) rest.
Proof.
  revert prev w. induction keyword as [|c keyword IH]; intros prev w Hw.
  - by destruct w.
  - destruct w as [|x w]; [done|]. injection Hw as Hx Hw.
    cbn. rewrite Hx, Ascii.eqb_refl, prev_after_cons. by apply IH.
Qed.

Lemma match_literals_inv keyword os prev s rest :
  match_here true (map LITERAL keyword ++ os) prev s = Some rest ->
  exists w s', s = w ++ s' /\ lower w = lower keyword
    /\ match_here true os (prev_after prev w) s' = Some rest.
Proof.
  revert prev s. induction keyword as [|c keyword IH]; intros prev s.
  - intros H. by exists [], s.
  - cbn. destruct s as [|x s]; [done|].
    destruct (Ascii.eqb_spec (char_lower x) (char_lower c)) as [Hx|]; [|done].
    intros (w & s' & -> & Hw & H)%IH.
    exists (x :: w), s'. rewrite prev_after_cons.
    split_and!; [done| |done]. unfold lower in *. cbn. by rewrite Hx, Hw.
Qed.

Lemma at_boundary_start s : at_ok AT_BOUNDARY None s = word_here s.
Proof. by destruct s. Qed.

Lemma at_boundary_end prev : at_ok AT_BOUNDARY prev [] = word_before prev.
Proof. destruct prev; cbn; [|done]. by rewrite xorb_false_r. Qed.

(** A whole string matches the keyword pattern exactly when it is the
    keyword up to case and begins and ends with a word character. *)
Lemma fullmatch_keyword keyword s :
  re_fullmatch (keyword_regex_of keyword) s = true
  <-> lower s = lower keyword
      /\ word_here s = true /\ word_before (last s) = true.
Proof.
  unfold re_fullmatch, keyword_regex_of, keyword_ops.
  cbn [ops ignorecase match_here].
  rewrite at_boundary_start. split.
  - destruct (word_here s) eqn:Hs; [|done].
    destruct (match_here _ _ _ _) as [[|]|] eqn:E; [|done..]. intros _.
    apply match_literals_inv in E as (w & s' & -> & Hw & E).
    cbn [match_here] in E.
    destruct (at_ok AT_BOUNDARY _ _) eqn:Hat in E; [|done].
    injection E as ->. rewrite app_nil_r in *.
    rewrite at_boundary_end in Hat. split_and!; [done..|].
    unfold prev_after in Hat. destruct (last w); [done|].
    by destruct w.
  - intros (Hw & -> & Hlast).
    rewrite <- (app_nil_r s) at 1. rewrite (match_literals_app _ _ _ _ _ Hw).
    cbn [match_here]. rewrite at_boundary_end. unfold prev_after.
    destruct (last s); [|done]. by rewrite Hlast.
Qed.

(* ===================================================================== *)
(** ** Level selection *)
(* ===================================================================== *)

Section Selection.
Context {A : Type} (key : A -> Q).

Lemma elem_of_insert_desc x y l :
  y ∈ insert_desc key x l <-> y = x \/ y ∈ l.
Proof.
  induction l as [|h t IH]; cbn.
  - rewrite list_elem_of_singleton, elem_of_nil. tauto.
  - destruct (Qle_bool (key h) (key x)).
    + by rewrite elem_of_cons.
    + rewrite !elem_of_cons, IH. tauto.
Qed.

Lemma elem_of_sorted_desc y l : y ∈ sorted_desc key l <-> y ∈ l.
Proof.
  unfold sorted_desc. induction l as [|h t IH]; cbn; [done|].
  rewrite elem_of_insert_desc, elem_of_cons, IH. tauto.
Qed.

Lemma insert_desc_head_max x l :
  head_max key l -> head_max key (insert_desc key x l).
Proof.
  destruct l as [|h t]; cbn.
  - intros _ y Hy. by apply elem_of_nil in Hy.
  - intros Hmax. destruct (Qle_bool (key h) (key x)) eqn:Hle; cbn.
    + apply Qle_bool_iff in Hle.
      intros y [->|Hy]%elem_of_cons; [done|].
      eapply Qle_trans; [by apply Hmax | done].
    + assert (key x < key h)%Q as Hlt.
      { apply Qnot_le_lt. intros Hc. apply Qle_bool_iff in Hc. congruence. }
      intros y [->|Hy]%elem_of_insert_desc; [by apply Qlt_le_weak | auto].
Qed.

Lemma sorted_desc_head_max l : head_max key (sorted_desc key l).
Proof.
  unfold sorted_desc. induction l as [|h t IH]; cbn; [done|].
  by apply insert_desc_head_max.
Qed.

(** The first element of the sorted list is an element of the list with
    the largest key. *)
Lemma sorted_desc_first l x t :
  sorted_desc key l = x :: t ->
  x ∈ l /\ forall y, y ∈ l -> (key y <= key x)%Q.
Proof.
  intros E. split.
  - apply elem_of_sorted_desc. rewrite E. apply list_elem_of_here.
  - intros y Hy. apply elem_of_sorted_desc in Hy. rewrite E in Hy.
    pose proof (sorted_desc_head_max l) as Hmax. rewrite E in Hmax. cbn in Hmax.
    apply elem_of_cons in Hy as [->|Hy]; [apply Qle_refl | auto].
Qed.

Lemma sorted_desc_nonempty l : l ≠ [] -> sorted_desc key l ≠ [].
Proof.
  destruct l as [|h t]; [done|]. intros _ E.
  assert (h ∈ sorted_desc key (h :: t)) as Hh.
  { apply elem_of_sorted_desc, list_elem_of_here. }
  rewrite E in Hh. by apply elem_of_nil in Hh.
Qed.
End Selection.

(** [min(l :: ls)] is an element of the list and a lower bound of it. *)
Lemma fold_min_spec ls l :
  fold_left Nat.min ls l ∈ l :: ls
  /\ forall x, x ∈ l :: ls -> fold_left Nat.min ls l <= x.
Proof.
  revert l. induction ls as [|a ls IH]; intros l; cbn.
  - split; [apply list_elem_of_here|].
    by intros x ->%list_elem_of_singleton.
  - destruct (IH (Nat.min l a)) as [Hin Hle]. split.
    + apply elem_of_cons in Hin as [Hin|Hin].
      * rewrite Hin. destruct (Nat.min_spec l a) as [[_ ->]|[_ ->]].
        -- apply list_elem_of_here.
        -- apply list_elem_of_further, list_elem_of_here.
      * by do 2 apply list_elem_of_further.
    + intros x Hx.
      assert (fold_left Nat.min ls (Nat.min l a) <= Nat.min l a) as H0.
      { apply Hle, list_elem_of_here. }
      apply elem_of_cons in Hx as [->|[->|Hx]%elem_of_cons]; [lia..|].
      by apply Hle, list_elem_of_further.
Qed.

(* ===================================================================== *)
(** ** The loops of the ranker *)
(* ===================================================================== *)

Lemma urlparse_raises url e : urlparse url = Raise e -> e = ValueError.
Proof.
  unfold urlparse, urlsplit, split_netloc.
  repeat (match goal with
          | |- context [match ?x with _ => _ end] => destruct x
          end; cbn); congruence.
Qed.

Lemma collect_href_Ok unique_urls skipped h st :
  collect_href (unique_urls, skipped) h = Ok st ->
  st = (pool_update unique_urls h,
        replay (option_list (collect_write h)) skipped).
Proof.
  unfold collect_href, pool_update, survivor_key, collect_write, replay.
  destruct (is_share_link (href_url h)); [by intros [= <-]|].
  destruct (urlparse (href_url h)) as [p|]; cbn -[Nat.ltb]; [|done].
  destruct (nonempty (fragment p) || nonempty (query p)); [by intros [= <-]|].
  destruct (dict_get (normalize p) unique_urls) as [seen|];
    [destruct (length (cand_text seen) <? length (href_text h))|];
    by intros [= <-].
Qed.

Lemma collect_href_Raise st h e :
  collect_href st h = Raise e <->
  is_share_link (href_url h) = false /\ urlparse (href_url h) = Raise e.
Proof.
  unfold collect_href. destruct st as [unique_urls skipped].
  destruct (is_share_link (href_url h)); [by split; [|intros []]|].
  destruct (urlparse (href_url h)) as [p|]; cbn.
  - split; [|by intros []].
    by repeat (match goal with
               | |- context [match ?x with _ => _ end] => destruct x
               | |- context [if ?x then _ else _] => destruct x
               end).
  - split; [by intros [= ->] | by intros [_ [= ->]]].
Qed.

Lemma replay_app ws1 ws2 d : replay (ws1 ++ ws2) d = replay ws2 (replay ws1 d).
Proof. unfold replay. apply foldl_app. Qed.

Lemma omap_snoc {A B} (f : A -> option B) l x :
  omap f (l ++ [x]) = omap f l ++ option_list (f x).
Proof. rewrite omap_app. cbn. by destruct (f x). Qed.

(** The first inner loop as two folds: the pool and the log. *)
Lemma collect_level_Ok hrefs unique_urls skipped :
  collect_level hrefs = Ok (unique_urls, skipped) ->
  unique_urls = foldl pool_update [] hrefs
  /\ skipped = replay (omap collect_write hrefs) [].
Proof.
  unfold collect_level. revert unique_urls skipped.
  induction hrefs as [|h hrefs IH] using rev_ind; intros unique_urls skipped.
  - by intros [= <- <-].
  - rewrite for_each_snoc. intros ([u sk] & Hl & Hh)%bind_Ok.
    destruct (IH _ _ Hl) as [-> ->]. apply collect_href_Ok in Hh.
    injection Hh as -> ->. by rewrite foldl_snoc, omap_snoc, replay_app.
Qed.

(** Every link the first inner loop got past was a share link or parsed. *)
Lemma collect_level_parses hrefs st h :
  collect_level hrefs = Ok st -> h ∈ hrefs ->
  is_share_link (href_url h) = false ->
  exists parsed_url, urlparse (href_url h) = Ok parsed_url.
Proof.
  unfold collect_level. generalize (@nil (str * candidate), @nil (str * str)).
  induction hrefs as [|h0 hrefs IH]; intros st0 Hl Hin Hs.
  - by apply elem_of_nil in Hin.
  - cbn in Hl. apply bind_Ok in Hl as (st1 & H1 & Hl).
    apply elem_of_cons in Hin as [->|Hin]; [|by eapply IH].
    destruct (urlparse (href_url h0)) as [p|e] eqn:Hp; [by exists p|].
    assert (collect_href st0 h0 = Raise e) by by apply collect_href_Raise.
    congruence.
Qed.

Lemma for_each_raises {A S} (body : S -> A -> result S) l s e
    (P : exn -> Prop) :
  (forall s x e, body s x = Raise e -> P e) ->
  for_each body l s = Raise e -> P e.
Proof.
  intros Hbody. revert s. induction l as [|x l IH]; intros s; cbn; [done|].
  intros [H|(s' & _ & H)]%bind_Raise; eauto.
Qed.

Lemma collect_level_raises hrefs e :
  collect_level hrefs = Raise e -> e = ValueError.
Proof.
  unfold collect_level. intros H.
  eapply (for_each_raises _ _ _ _ (fun e => e = ValueError)); [|exact H].
  intros s x e' [_ Hp]%collect_href_Raise. by apply urlparse_raises in Hp.
Qed.

Lemma analyse_url_Ok keyword keyword_regex matching skipped included item st :
  analyse_url keyword keyword_regex (matching, skipped, included) item
  = Ok st ->
  st = (matching ++ option_list (analyse_match keyword keyword_regex item),
        replay (option_list (analyse_write keyword keyword_regex item)) skipped,
        included
        ++ option_list (analyse_included keyword keyword_regex item)).
Proof.
  unfold analyse_url, analyse_included, analyse_match, analyse_write, replay.
  destruct item as [norm_url href_data]. cbn [fst snd].
  destruct (urlparse norm_url) as [p|]; cbn -[Nat.eqb]; [|done].
  destruct (re_search keyword_regex (path p)); cbn -[Nat.eqb].
  - destruct ((length (List.filter nonempty (split "/" (path p))) =? 1)
              && re_fullmatch keyword_regex
                   (default [] (head (List.filter nonempty
                                        (split "/" (path p))))));
      intros [= <-]; by rewrite ?app_nil_r.
  - intros [= <-]. by rewrite !app_nil_r.
Qed.

Lemma analyse_url_Raise keyword keyword_regex st item e :
  analyse_url keyword keyword_regex st item = Raise e ->
  urlparse item.1 = Raise e.
Proof.
  unfold analyse_url. destruct st as [[matching skipped] included].
  destruct item as [norm_url href_data]. cbn [fst].
  destruct (urlparse norm_url) as [p|]; cbn -[Nat.eqb]; [|by intros [= ->]].
  by repeat (match goal with
             | |- context [if ?x then _ else _] => destruct x
             end).
Qed.

(** The second inner loop as three maps over the pool. *)
Lemma analyse_level_Ok keyword keyword_regex unique_urls skipped st :
  analyse_level keyword keyword_regex unique_urls skipped = Ok st ->
  st = (omap (analyse_match keyword keyword_regex) unique_urls,
        replay (omap (analyse_write keyword keyword_regex) unique_urls)
          skipped,
        omap (analyse_included keyword keyword_regex) unique_urls).
Proof.
  unfold analyse_level.
  enough (forall m0 sk0 inc0,
    for_each (analyse_url keyword keyword_regex) unique_urls (m0, sk0, inc0)
    = Ok st ->
    st = (m0 ++ omap (analyse_match keyword keyword_regex) unique_urls,
          replay (omap (analyse_write keyword keyword_regex) unique_urls) sk0,
          inc0 ++ omap (analyse_included keyword keyword_regex) unique_urls))
    as Hgen by exact (Hgen [] skipped []).
  induction unique_urls as [|item unique_urls IH]; intros m0 sk0 inc0; cbn.
  - intros [= <-]. by rewrite !app_nil_r.
  - intros (st1 & H1 & Hrest)%bind_Ok. apply analyse_url_Ok in H1 as ->.
    apply IH in Hrest as ->. rewrite <- !app_assoc. f_equal; [f_equal|].
    + by destruct (analyse_match keyword keyword_regex item).
    + unfold replay.
      by destruct (analyse_write keyword keyword_regex item).
    + by destruct (analyse_included keyword keyword_regex item).
Qed.

Lemma analyse_level_raises keyword keyword_regex unique_urls skipped e :
  analyse_level keyword keyword_regex unique_urls skipped = Raise e ->
  e = ValueError.
Proof.
  unfold analyse_level. intros H.
  eapply (for_each_raises _ _ _ _ (fun e => e = ValueError)); [|exact H].
  intros s x e' Hp%analyse_url_Raise. by apply urlparse_raises in Hp.
Qed.

Lemma process_level_Ok keyword keyword_regex st level hrefs st' :
  process_level keyword keyword_regex st (level, hrefs) = Ok st' <->
  exists unique_urls skipped analysed,
    collect_level hrefs = Ok (unique_urls, skipped)
    /\ analyse_level keyword keyword_regex unique_urls skipped = Ok analysed
    /\ st' = store_level level hrefs unique_urls analysed st.
Proof.
  unfold process_level, store_level. destruct st as [[ls lm] ld]. split.
  - destruct (collect_level hrefs) as [[u sk1]|e]; cbn -[Nat.ltb]; [|done].
    destruct (analyse_level keyword keyword_regex u sk1)
      as [[[m sk2] inc]|e] eqn:Ha; cbn -[Nat.ltb]; [|done].
    intros H. exists u, sk1, (m, sk2, inc). split_and!; [done..|].
    destruct (0 <? length u); cbn in H; congruence.
  - intros (u & sk1 & [[m sk2] inc] & -> & Ha & ->). cbn -[Nat.ltb].
    rewrite Ha. cbn -[Nat.ltb]. by destruct (0 <? length u).
Qed.

Lemma process_level_raises keyword keyword_regex st item e :
  process_level keyword keyword_regex st item = Raise e -> e = ValueError.
Proof.
  unfold process_level. destruct st as [[ls lm] ld], item as [level hrefs].
  destruct (collect_level hrefs) as [[u sk1]|e1] eqn:E1; cbn -[Nat.ltb].
  - destruct (analyse_level keyword keyword_regex u sk1)
      as [[[m sk2] inc]|e2] eqn:E2; cbn -[Nat.ltb].
    + by destruct (0 <? length u).
    + intros [= <-]. by apply analyse_level_raises in E2.
  - intros [= <-]. by apply collect_level_raises in E1.
Qed.

Lemma store_level_get level hrefs unique_urls analysed st :
  tables_get level (store_level level hrefs unique_urls analysed st)
  = stored hrefs unique_urls analysed (tables_get level st).
Proof.
  destruct st as [[ls lm] ld], analysed as [[m sk] inc].
  unfold tables_get, store_level, stored. cbn -[Nat.ltb].
  rewrite dict_get_set_eq.
  destruct (0 <? length unique_urls); [|done].
  rewrite dict_get_set_eq. destruct m; [done|]. by rewrite dict_get_set_eq.
Qed.

Lemma store_level_get_ne level level' hrefs unique_urls analysed st :
  level ≠ level' ->
  tables_get level' (store_level level hrefs unique_urls analysed st)
  = tables_get level' st.
Proof.
  intros Hne. destruct st as [[ls lm] ld], analysed as [[m sk] inc].
  unfold tables_get, store_level. cbn -[Nat.ltb].
  rewrite (dict_get_set_ne level level') by done.
  destruct (0 <? length unique_urls); [|done].
  rewrite (dict_get_set_ne level level') by done.
  destruct m; [done|]. by rewrite (dict_get_set_ne level level').
Qed.

Lemma store_level_wf level hrefs unique_urls analysed st :
  wf_tables st -> wf_tables (store_level level hrefs unique_urls analysed st).
Proof.
  destruct st as [[ls lm] ld], analysed as [[m sk] inc].
  unfold wf_tables, store_level. cbn -[Nat.ltb]. intros (? & ? & ?).
  destruct (0 <? length unique_urls), m; split_and!;
    auto using dict_set_wf.
Qed.

Lemma store_level_stats_nil level hrefs unique_urls analysed st :
  (store_level level hrefs unique_urls analysed st).1.1 = []
  <-> st.1.1 = [] /\ unique_urls = [].
Proof.
  destruct st as [[ls lm] ld], analysed as [[m sk] inc].
  unfold store_level. cbn -[Nat.ltb]. destruct unique_urls as [|x u]; cbn.
  - by split; [|intros []].
  - split; [|by intros []]. intros H. by apply dict_set_nonempty in H.
Qed.

Section Levels.
Context (keyword : str) (keyword_regex : regex).

Lemma levels_other level_hrefs st st' level :
  for_each (process_level keyword keyword_regex) level_hrefs st = Ok st' ->
  level ∉ dict_keys level_hrefs ->
  tables_get level st' = tables_get level st.
Proof.
  revert st. induction level_hrefs as [|[l0 h0] lh IH]; intros st; cbn.
  - by intros [= <-].
  - intros (st1 & H1 & Hrest)%bind_Ok [Hne Hnotin]%not_elem_of_cons.
    apply process_level_Ok in H1 as (u & sk1 & an & _ & _ & ->).
    rewrite (IH _ Hrest Hnotin). by apply store_level_get_ne.
Qed.

(** The tables hold, under each level of the input, what the two inner
    loops produced for it. *)
Lemma levels_lookup level_hrefs st st' level hrefs :
  for_each (process_level keyword keyword_regex) level_hrefs st = Ok st' ->
  wf_dict level_hrefs -> (level, hrefs) ∈ level_hrefs ->
  exists unique_urls skipped analysed,
    collect_level hrefs = Ok (unique_urls, skipped)
    /\ analyse_level keyword keyword_regex unique_urls skipped = Ok analysed
    /\ tables_get level st'
       = stored hrefs unique_urls analysed (tables_get level st).
Proof.
  unfold wf_dict.
  revert st. induction level_hrefs as [|[l0 h0] lh IH]; intros st; cbn.
  - by intros _ _ ?%elem_of_nil.
  - intros (st1 & H1 & Hrest)%bind_Ok [Hl0 Hwf]%NoDup_cons Hin.
    apply process_level_Ok in H1 as (u & sk1 & an & Hc & Ha & ->).
    apply elem_of_cons in Hin as [[= -> ->]|Hin].
    + exists u, sk1, an. split_and!; [done..|].
      rewrite (levels_other _ _ _ _ Hrest Hl0). apply store_level_get.
    + destruct (IH _ Hrest Hwf Hin) as (u' & sk' & an' & Hc' & Ha' & ->).
      exists u', sk', an'. split_and!; [done..|].
      rewrite store_level_get_ne; [done|]. intros ->. apply Hl0.
      by apply (list_elem_of_fmap_2 fst) in Hin.
Qed.

Lemma levels_wf level_hrefs st st' :
  for_each (process_level keyword keyword_regex) level_hrefs st = Ok st' ->
  wf_tables st -> wf_tables st'.
Proof.
  revert st. induction level_hrefs as [|[l0 h0] lh IH]; intros st; cbn.
  - by intros [= <-].
  - intros (st1 & H1 & Hrest)%bind_Ok Hwf.
    apply process_level_Ok in H1 as (u & sk1 & an & _ & _ & ->).
    eapply IH; [done|]. by apply store_level_wf.
Qed.

(** No level has statistics exactly when every pool is empty. *)
Lemma levels_stats_nil level_hrefs st st' :
  for_each (process_level keyword keyword_regex) level_hrefs st = Ok st' ->
  st'.1.1 = [] <->
  st.1.1 = []
  /\ forall level hrefs, (level, hrefs) ∈ level_hrefs ->
       exists skipped, collect_level hrefs = Ok ([], skipped).
Proof.
  revert st. induction level_hrefs as [|[l0 h0] lh IH]; intros st; cbn.
  - intros [= <-]. split; [|by intros []].
    intros ->. split; [done|]. by intros ? ? ?%elem_of_nil.
  - intros (st1 & H1 & Hrest)%bind_Ok.
    apply process_level_Ok in H1 as (u & sk1 & an & Hc & _ & ->).
    pose proof (IH _ Hrest) as [IH1 IH2].
    pose proof (store_level_stats_nil l0 h0 u an st) as [Hs1 Hs2]. split.
    + intros [[-> ->]%Hs1 Hall]%IH1. split; [done|].
      intros level hrefs [[= -> ->]|Hin]%elem_of_cons;
        [by exists sk1 | by apply (Hall level)].
    + intros [Hst Hall]. apply IH2. split.
      * apply Hs2. split; [done|].
        destruct (Hall l0 h0) as [sk Hsk]; [apply list_elem_of_here|].
        congruence.
      * intros level hrefs Hin. apply (Hall level).
        by apply list_elem_of_further.
Qed.

Lemma levels_empty_total level_hrefs st :
  (forall level hrefs, (level, hrefs) ∈ level_hrefs ->
     exists skipped, collect_level hrefs = Ok ([], skipped)) ->
  exists st', for_each (process_level keyword keyword_regex) level_hrefs st
              = Ok st'.
Proof.
  revert st. induction level_hrefs as [|[l0 h0] lh IH]; intros st Hall; cbn.
  - by exists st.
  - destruct (Hall l0 h0) as [sk Hsk]; [apply list_elem_of_here|].
    assert (process_level keyword keyword_regex st (l0, h0)
            = Ok (store_level l0 h0 [] ([], sk, []) st)) as ->.
    { apply process_level_Ok. by exists [], sk, ([], sk, []). }
    cbn. apply IH. intros level hrefs Hin. apply (Hall level).
    by apply list_elem_of_further.
Qed.

Lemma levels_raises level_hrefs st e :
  for_each (process_level keyword keyword_regex) level_hrefs st = Raise e ->
  e = ValueError.
Proof.
  intros H.
  eapply (for_each_raises _ _ _ _ (fun e => e = ValueError)); [|exact H].
  intros s x e'. apply process_level_raises.
Qed.
End Levels.

Lemma elem_of_List_filter {A} (f : A -> bool) (l : list A) x :
  x ∈ List.filter f l <-> x ∈ l /\ f x = true.
Proof. rewrite !list_elem_of_In. apply filter_In. Qed.

(** The choice of the level. *)
Lemma select_level_spec level_stats0 level_matches level_debug :
  level_stats0 ≠ [] -> wf_dict level_stats0 ->
  exists r,
    select_level (level_stats0, level_matches, level_debug) = Ok (Some r)
    /\ level_stats r = level_stats0
    /\ all_matches r = level_matches
    /\ debug_info r = level_debug
    /\ best_matches r = default [] (dict_get (target_level r) level_matches)
    /\ (exists st, dict_get (target_level r) level_stats0 = Some st
          /\ (keyword_ratio st == highest_ratio r)%Q)
    /\ (forall l st, dict_get l level_stats0 = Some st ->
          (keyword_ratio st <= highest_ratio r)%Q)
    /\ (forall l st, dict_get l level_stats0 = Some st ->
          (keyword_ratio st == highest_ratio r)%Q -> target_level r <= l).
Proof.
  intros Hne Hwf. unfold select_level.
  destruct level_stats0 as [|x0 ls0] eqn:Els; [done|]. rewrite <- Els in *.
  clear Els x0 ls0.
  destruct (sorted_desc (fun x => keyword_ratio x.2) level_stats0)
    as [|[l1 s1] rest] eqn:Es; [by apply sorted_desc_nonempty in Es|].
  apply sorted_desc_first in Es as [Hin Hmax]. cbn [mbind result_bind fst snd].
  set (same := List.filter
                 (fun x => Qeq_bool (keyword_ratio x.2) (keyword_ratio s1))
                 level_stats0).
  assert ((l1, s1) ∈ same) as Hsame.
  { apply elem_of_List_filter. split; [done|]. apply Qeq_bool_iff, Qeq_refl. }
  destruct (map fst same) as [|l ls] eqn:Emap.
  { apply (list_elem_of_fmap_2 fst) in Hsame.
    change (fst <$> same) with (map fst same) in Hsame.
    rewrite Emap in Hsame. by apply elem_of_nil in Hsame. }
  destruct (fold_min_spec ls l) as [Hmin_in Hmin_le]. rewrite <- Emap in *.
  eexists. split; [reflexivity|]. cbn.
  split_and!; [done..| | |].
  - change (map fst same) with (fst <$> same) in Hmin_in.
    apply list_elem_of_fmap in Hmin_in as ([l' st] & Hl' & Hst).
    cbn in Hl'. subst l'.
    apply elem_of_List_filter in Hst as [Hst Heq]. exists st. split.
    + by apply dict_get_elem.
    + by apply Qeq_bool_iff in Heq.
  - intros l0 st Hget. apply dict_get_Some_elem in Hget.
    apply (Hmax (l0, st) Hget).
  - intros l0 st Hget Heq. apply dict_get_Some_elem in Hget.
    apply Hmin_le. change (map fst same) with (fst <$> same).
    apply (list_elem_of_fmap_2 fst same (l0, st)).
    apply elem_of_List_filter. split; [done|]. by apply Qeq_bool_iff.
Qed.

Lemma search_unfold level_hrefs keyword :
  search_keyword_in_hrefs level_hrefs keyword
  = for_each (process_level keyword (keyword_regex_of keyword)) level_hrefs
      ([], [], [])
    ≫= select_level.
Proof.
  unfold search_keyword_in_hrefs. by rewrite compile_keyword_ops.
Qed.

(** The tables behind a result of the function. *)
Lemma search_tables level_hrefs keyword res :
  search_keyword_in_hrefs level_hrefs keyword = Ok res ->
  exists st,
    for_each (process_level keyword (keyword_regex_of keyword)) level_hrefs
      ([], [], []) = Ok st
    /\ wf_tables st
    /\ select_level st = Ok res
    /\ (st.1.1 = [] -> res = None)
    /\ (st.1.1 ≠ [] ->
        exists r, res = Some r /\ level_stats r = st.1.1
          /\ all_matches r = st.1.2 /\ debug_info r = st.2).
Proof.
  rewrite search_unfold. intros (st & Hst & Hsel)%bind_Ok.
  assert (wf_tables st) as Hwf.
  { eapply levels_wf; [done|]. repeat split; apply NoDup_nil_2. }
  exists st. split_and!; [done..| |].
  - destruct st as [[ls lm] ld]. cbn. intros ->. cbn in Hsel. congruence.
  - destruct st as [[ls lm] ld]. cbn. intros Hne.
    destruct (select_level_spec ls lm ld Hne) as (r & Hr & ? & ? & ? & _);
      [apply Hwf|].
    exists r. split_and!; [|done..].
    by pose proof (eq_trans (eq_sym Hsel) Hr) as [= ->].
Qed.

(** The only exception the function raises is that of [urlparse]. *)
Lemma search_raises level_hrefs keyword e :
  search_keyword_in_hrefs level_hrefs keyword = Raise e -> e = ValueError.
Proof.
  rewrite search_unfold. intros [H|(st & Hst & Hsel)]%bind_Raise.
  - by apply levels_raises in H.
  - destruct st as [[ls lm] ld].
    destruct (decide (ls = [])) as [->|Hne]; [done|].
    destruct (select_level_spec ls lm ld) as (r & Hr & _); [done| |].
    + apply (levels_wf _ _ _ _ _ Hst). repeat split; apply NoDup_nil_2.
    + by pose proof (eq_trans (eq_sym Hsel) Hr).
Qed.

(* ===================================================================== *)
(** ** A normalized URL has no question mark *)
(* ===================================================================== *)

Lemma has_char_app c a b : has_char c (a ++ b) = has_char c a || has_char c b.
Proof. unfold has_char. apply existsb_app. Qed.

Lemma has_char_cons c d s :
  has_char c (d :: s) = Ascii.eqb d c || has_char c s.
Proof. unfold has_char. cbn. by rewrite Ascii.eqb_sym. Qed.

Lemma find_None c s : find c s = None -> has_char c s = false.
Proof.
  induction s as [|d s IH]; [done|]. rewrite has_char_cons. cbn.
  destruct (Ascii.eqb d c); [done|]. by destruct (find c s); [|apply IH].
Qed.

Lemma find_Some_take c s i n :
  find c s = Some i -> n <= i -> has_char c (take n s) = false.
Proof.
  revert i n. induction s as [|d s IH]; intros i n; [done|]. cbn.
  destruct (Ascii.eqb d c) eqn:Hd.
  - intros [= <-] Hn. by replace n with 0 by lia.
  - destruct (find c s) as [j|] eqn:Hj; [|done]. intros [= <-] Hn.
    destruct n as [|n]; [done|]. cbn [take]. rewrite has_char_cons, Hd.
    apply (IH j); [done | lia].
Qed.

Lemma has_char_take c s n :
  has_char c s = false -> has_char c (take n s) = false.
Proof.
  revert n. induction s as [|d s IH]; intros [|n]; try done.
  cbn [take]. rewrite !has_char_cons.
  intros [-> Hs]%orb_false_iff. by apply IH.
Qed.

Lemma split_once_fst c s : has_char c (split_once c s).1 = false.
Proof.
  unfold split_once. destruct (find c s) as [i|] eqn:Hi; cbn.
  - by apply (find_Some_take c s i).
  - by apply find_None.
Qed.

Lemma split_query_fst url : has_char "?" (split_query url).1 = false.
Proof.
  unfold split_query. destruct (has_char "?" url) eqn:H; [|done].
  apply split_once_fst.
Qed.

Lemma splitparams_fst url : exists n, (splitparams url).1 = take n url.
Proof.
  unfold splitparams.
  repeat (match goal with
          | |- context [match ?x with _ => _ end] => destruct x
          end); cbn; eauto.
  all: exists (length url); by rewrite firstn_all.
Qed.

Lemma scheme_char_lower c : scheme_char c = true -> char_lower c ≠ "?"%char.
Proof. each_char c; vm_compute; congruence. Qed.

Lemma split_scheme_fst url : has_char "?" (split_scheme url).1 = false.
Proof.
  unfold split_scheme. destruct (find ":" url) as [i|]; [|done].
  destruct (_ && forallb scheme_char (take i url)) eqn:H; [|done].
  apply andb_true_iff in H as [_ H]. cbn [fst].
  induction (take i url) as [|c s IH]; [done|]. cbn in H.
  apply andb_true_iff in H as [Hc Hs].
  change (lower (c :: s)) with (char_lower c :: lower s).
  rewrite has_char_cons. rewrite (IH Hs), orb_false_r.
  apply Ascii.eqb_neq. by apply scheme_char_lower.
Qed.

Lemma splitnetloc_fst url start :
  has_char "?" (splitnetloc url start).1 = false.
Proof.
  unfold splitnetloc. cbn [fst fold_left lit list_ascii_of_string].
  set (step := fun (delim : nat) (c : ascii) =>
                 match find_from c url start with
                 | Some wdelim => Nat.min delim wdelim
                 | None => delim
                 end).
  assert (forall d c, step d c <= d) as Hstep.
  { intros d c. unfold step. destruct (find_from c url start); lia. }
  change (has_char "?"
            (take (step (step (step (length url) "/"%char) "?"%char) "#"%char
                   - start)
               (drop start url)) = false).
  set (d1 := step (length url) "/"%char).
  pose proof (Hstep (step d1 "?"%char) "#"%char) as H1.
  destruct (find "?" (drop start url)) as [j|] eqn:Hj.
  - assert (step d1 "?"%char <= start + j) as H2.
    { unfold step, find_from. rewrite Hj. cbn. lia. }
    apply (find_Some_take _ _ j); [done | lia].
  - by apply has_char_take, find_None.
Qed.

Lemma split_netloc_fst url netloc rest :
  split_netloc url = Ok (netloc, rest) -> has_char "?" netloc = false.
Proof.
  unfold split_netloc. destruct (startswith url "//"); [|by intros [= <- _]].
  pose proof (splitnetloc_fst url 2) as H.
  destruct (splitnetloc url 2) as [n r].
  by repeat (match goal with
             | |- context [if ?x then _ else _] => destruct x
             end); intros [= <- _].
Qed.

(** The key under which a URL enters the pool has no question mark. *)
Lemma normalize_no_query url parsed_url :
  urlparse url = Ok parsed_url -> has_char "?" (normalize parsed_url) = false.
Proof.
  unfold urlparse, urlsplit.
  set (u := List.filter _ _).
  pose proof (split_scheme_fst u) as Hs.
  destruct (split_scheme u) as [sch u1]. cbn [fst] in Hs.
  destruct (split_netloc u1) as [[n u2]|] eqn:Hn; cbn; [|done].
  apply split_netloc_fst in Hn.
  destruct (split_fragment u2) as [u3 fr].
  pose proof (split_query_fst u3) as Hq.
  destruct (split_query u3) as [u4 q]. cbn [fst] in Hq.
  destruct (splitparams_fst u4) as [k Hk].
  cbn [mbind result_bind].
  assert (has_char "?" (sch ++ lit "://" ++ n) = false) as Hpre.
  { by rewrite !has_char_app, Hs, Hn. }
  destruct (bool_decide (sch ∈ uses_params) && has_char ";" u4).
  - destruct (splitparams u4) as [u5 pa]. cbn [fst] in Hk. subst u5.
    intros [= <-]. unfold normalize. cbn [scheme netloc path].
    rewrite !app_assoc, has_char_app, <- !app_assoc, Hpre.
    by apply has_char_take.
  - intros [= <-]. unfold normalize. cbn [scheme netloc path].
    by rewrite !app_assoc, has_char_app, <- !app_assoc, Hpre.
Qed.

Lemma survivor_key_no_query h k :
  survivor_key h = Some k -> has_char "?" k = false.
Proof.
  unfold survivor_key. destruct (is_share_link (href_url h)); [done|].
  destruct (urlparse (href_url h)) as [p|] eqn:Hp; [|done].
  destruct (nonempty (fragment p) || nonempty (query p)); [done|].
  intros [= <-]. by apply (normalize_no_query (href_url h)).
Qed.

(* ===================================================================== *)
(** ** The candidate pool *)
(* ===================================================================== *)

Lemma collect_level_pool hrefs unique_urls skipped :
  collect_level hrefs = Ok (unique_urls, skipped) -> unique_urls = pool hrefs.
Proof. by intros [-> _]%collect_level_Ok. Qed.

Lemma pool_snoc hrefs x : pool (hrefs ++ [x]) = pool_update (pool hrefs) x.
Proof. unfold pool. apply foldl_snoc. Qed.

Lemma dict_get_pool_update unique_urls h k :
  dict_get k (pool_update unique_urls h)
  = if decide (survivor_key h = Some k) then
      match dict_get k unique_urls with
      | None => Some (to_candidate k h)
      | Some seen =>
          if length (cand_text seen) <? length (href_text h)
          then Some (to_candidate k h)
          else Some seen
      end
    else dict_get k unique_urls.
Proof.
  unfold pool_update. destruct (survivor_key h) as [kx|]; [|by case_decide].
  case_decide as Hk.
  - injection Hk as ->.
    destruct (dict_get k unique_urls) as [seen|] eqn:Hget.
    + destruct (length (cand_text seen) <? length (href_text h));
        [apply dict_get_set_eq | done].
    + apply dict_get_set_eq.
  - assert (kx ≠ k) by congruence.
    destruct (match dict_get kx unique_urls with
              | Some seen => length (cand_text seen) <? length (href_text h)
              | None => true
              end); [by apply dict_get_set_ne | done].
Qed.

Lemma pool_update_wf unique_urls h :
  wf_dict unique_urls -> wf_dict (pool_update unique_urls h).
Proof.
  unfold pool_update. intros Hwf. destruct (survivor_key h); [|done].
  destruct (match dict_get _ _ with Some _ => _ | None => _ end);
    [by apply dict_set_wf | done].
Qed.

Lemma pool_wf hrefs : wf_dict (pool hrefs).
Proof.
  induction hrefs as [|x hrefs IH] using rev_ind; [apply NoDup_nil_2|].
  rewrite pool_snoc. by apply pool_update_wf.
Qed.

Lemma first_longest_keep k hrefs i h x :
  first_longest k hrefs i h ->
  survivor_key x ≠ Some k \/ length (href_text x) <= length (href_text h) ->
  first_longest k (hrefs ++ [x]) i h.
Proof.
  intros (Hi & Hk & Hbest) Hx. pose proof (lookup_lt_Some _ _ _ Hi) as Hlt.
  split_and!; [by rewrite lookup_app_l | done |].
  intros j h' [[_ Hj]|[-> <-]]%lookup_snoc_Some Hk'; [by apply Hbest|].
  destruct Hx as [Hx|Hx]; [done|]. split; [done | lia].
Qed.

Lemma first_longest_new k hrefs x :
  survivor_key x = Some k ->
  (forall j h', hrefs !! j = Some h' -> survivor_key h' = Some k ->
     length (href_text h') < length (href_text x)) ->
  first_longest k (hrefs ++ [x]) (length hrefs) x.
Proof.
  intros Hk Hshort. split_and!; [by apply list_lookup_middle | done |].
  intros j h' [[Hj Hh']|[-> <-]]%lookup_snoc_Some Hk'; [|done].
  specialize (Hshort j h' Hh' Hk'). split; lia.
Qed.

(** Under each key the pool holds the first of the longest links with that
    key, and it has a key for every link that survives. *)
Lemma pool_lookup hrefs k :
  match dict_get k (pool hrefs) with
  | Some c => exists i h, first_longest k hrefs i h /\ c = to_candidate k h
  | None => forall h, h ∈ hrefs -> survivor_key h ≠ Some k
  end.
Proof.
  induction hrefs as [|x hrefs IH] using rev_ind.
  - cbn. by intros h ?%elem_of_nil.
  - rewrite pool_snoc, dict_get_pool_update. case_decide as Hx.
    + destruct (dict_get k (pool hrefs)) as [seen|].
      * destruct IH as (i & h & Hbest & ->). cbn [to_candidate cand_text].
        destruct (length (href_text h) <? length (href_text x)) eqn:Hlen.
        -- apply Nat.ltb_lt in Hlen. exists (length hrefs), x. split; [|done].
           apply first_longest_new; [done|]. intros j h' Hj Hk'.
           destruct Hbest as (_ & _ & Hbest).
           destruct (Hbest j h' Hj Hk') as [Hle _]. lia.
        -- apply Nat.ltb_ge in Hlen. exists i, h. split; [|done].
           apply first_longest_keep; auto.
      * exists (length hrefs), x. split; [|done].
        apply first_longest_new; [done|]. intros j h' Hj Hk'.
        by destruct (IH h' (list_elem_of_lookup_2 _ _ _ Hj)).
    + destruct (dict_get k (pool hrefs)) as [seen|].
      * destruct IH as (i & h & Hbest & ->). exists i, h. split; [|done].
        apply first_longest_keep; auto.
      * intros h [Hh|Hh%list_elem_of_singleton]%elem_of_app;
          [by apply IH | by subst].
Qed.

Lemma pool_keys_no_query hrefs k :
  k ∈ dict_keys (pool hrefs) -> has_char "?" k = false.
Proof.
  intros Hk. pose proof (pool_lookup hrefs k) as H.
  destruct (dict_get k (pool hrefs)) as [c|] eqn:Hget.
  - destruct H as (i & h & (_ & Hkey & _) & _).
    by apply (survivor_key_no_query h).
  - by apply dict_get_None in Hget.
Qed.

(* ===================================================================== *)
(** ** The exclusion log *)
(* ===================================================================== *)

Lemma replay_lookup writes d url :
  dict_get url (replay writes d)
  = match last_write url writes with
    | Some reason => Some reason
    | None => dict_get url d
    end.
Proof.
  unfold replay. revert d. induction writes as [|[u reason] ws IH]; intros d.
  - done.
  - cbn [foldl last_write fst snd]. rewrite IH.
    destruct (last_write url ws); [done|]. rewrite dict_get_set.
    by case_decide.
Qed.

Lemma replay_wf writes d : wf_dict d -> wf_dict (replay writes d).
Proof.
  unfold replay. revert d. induction writes as [|w ws IH]; intros d Hd; cbn.
  - done.
  - by apply IH, dict_set_wf.
Qed.

Lemma last_write_app url ws1 ws2 :
  last_write url (ws1 ++ ws2)
  = match last_write url ws2 with
    | Some reason => Some reason
    | None => last_write url ws1
    end.
Proof.
  induction ws1 as [|[u reason] ws1 IH]; cbn.
  - by destruct (last_write url ws2).
  - rewrite IH. by destruct (last_write url ws2).
Qed.

Lemma last_write_elem url ws reason :
  last_write url ws = Some reason -> (url, reason) ∈ ws.
Proof.
  induction ws as [|[u r0] ws IH]; cbn; [done|].
  destruct (last_write url ws) as [later|].
  - intros [= ->]. by apply list_elem_of_further, IH.
  - case_decide; [|done]. subst. intros [= ->]. apply list_elem_of_here.
Qed.

Lemma last_write_None url ws :
  last_write url ws = None <-> forall w, w ∈ ws -> w.1 ≠ url.
Proof.
  induction ws as [|[u r0] ws IH]; cbn.
  - split; [by intros _ w ?%elem_of_nil | done].
  - destruct (last_write url ws) as [later|] eqn:Hl.
    + split; [done|]. intros Hall. apply last_write_elem in Hl.
      by destruct (Hall (url, later) (list_elem_of_further _ _ _ Hl)).
    + destruct IH as [IH _]. specialize (IH eq_refl). case_decide as Hu.
      * split; [done|]. intros Hall.
        by destruct (Hall (u, r0) (list_elem_of_here _ _)).
      * split; [|done]. intros _ w [->|Hw]%elem_of_cons; [done | auto].
Qed.

Lemma collect_write_url h w : collect_write h = Some w -> w.1 = href_url h.
Proof.
  unfold collect_write.
  repeat (match goal with
          | |- context [match ?x with _ => _ end] => destruct x
          | |- context [if ?x then _ else _] => destruct x
          end); by intros [= <-].
Qed.

Lemma analyse_write_url keyword keyword_regex item w :
  analyse_write keyword keyword_regex item = Some w -> w.1 = item.1.
Proof.
  unfold analyse_write. destruct (urlparse item.1) as [p|]; [|done].
  repeat (match goal with
          | |- context [if ?x then _ else _] => destruct x
          end); by intros [= <-].
Qed.

(** The log of a level is the replay of its writes. *)
Lemma level_skipped keyword keyword_regex hrefs unique_urls skipped0
    matching skipped1 included0 :
  collect_level hrefs = Ok (unique_urls, skipped0) ->
  analyse_level keyword keyword_regex unique_urls skipped0
  = Ok (matching, skipped1, included0) ->
  skipped1 = replay (level_writes keyword keyword_regex hrefs (pool hrefs)) [].
Proof.
  intros [-> ->]%collect_level_Ok [= _ -> _]%analyse_level_Ok.
  unfold level_writes. by rewrite replay_app.
Qed.

(** The last write for a share link that has a question mark is the one
    of the first inner loop. *)
Lemma share_link_last_write keyword keyword_regex hrefs h :
  h ∈ hrefs -> is_share_link (href_url h) = true ->
  has_char "?" (href_url h) = true ->
  last_write (href_url h)
    (level_writes keyword keyword_regex hrefs (pool hrefs))
  = Some social_reason.
Proof.
  intros Hin Hshare Hq. unfold level_writes. rewrite last_write_app.
  assert (last_write (href_url h)
            (omap (analyse_write keyword keyword_regex) (pool hrefs)) = None)
    as ->.
  { apply last_write_None. intros w (item & Hitem & Hw)%list_elem_of_omap Hu.
    apply analyse_write_url in Hw.
    assert (has_char "?" item.1 = false) as Hno.
    { apply (pool_keys_no_query hrefs).
      by apply (list_elem_of_fmap_2 fst) in Hitem. }
    congruence. }
  destruct (last_write (href_url h) (omap collect_write hrefs))
    as [reason|] eqn:Hl.
  - apply last_write_elem, list_elem_of_omap in Hl as (h' & _ & Hw).
    pose proof (collect_write_url _ _ Hw) as Hu. cbn in Hu.
    unfold collect_write in Hw. rewrite <- Hu, Hshare in Hw. congruence.
  - exfalso. pose proof (proj1 (last_write_None _ _) Hl) as Hall.
    apply (Hall (href_url h, social_reason)); [|done].
    apply list_elem_of_omap. exists h. split; [done|].
    unfold collect_write. by rewrite Hshare.
Qed.

(* ===================================================================== *)
(** ** Properties of search_keyword_in_hrefs *)
(* ===================================================================== *)

(** What a result holds for a level of the input. *)
Lemma search_level level_hrefs keyword r level hrefs :
  search_keyword_in_hrefs level_hrefs keyword = Ok (Some r) ->
  wf_dict level_hrefs -> (level, hrefs) ∈ level_hrefs ->
  exists skipped0 matching skipped1 included0,
    collect_level hrefs = Ok (pool hrefs, skipped0)
    /\ analyse_level keyword (keyword_regex_of keyword) (pool hrefs) skipped0
       = Ok (matching, skipped1, included0)
    /\ (dict_get level (level_stats r), dict_get level (all_matches r),
        dict_get level (debug_info r))
       = stored hrefs (pool hrefs) (matching, skipped1, included0)
           (None, None, None).
Proof.
  intros (st & Hst & _ & _ & Hn & Hsome)%search_tables Hwf Hin.
  destruct (levels_lookup _ _ _ _ _ _ _ Hst Hwf Hin)
    as (u & sk0 & [[m sk1] inc] & Hc & Ha & Hget).
  pose proof (collect_level_pool _ _ _ Hc) as ->.
  assert (st.1.1 ≠ []) as Hne by (intros Hnil; by specialize (Hn Hnil)).
  destruct (Hsome Hne) as (r' & [= <-] & -> & -> & ->).
  by exists sk0, m, sk1, inc.
Qed.

(** C1: when the pool of a level consists of the candidates
    [https://x.com/fire/report] and [https://x.com/fire] and the keyword is
    [fire], the level has 2 candidates, 1 match and ratio 1/2; its matches
    are the [/fire/report] candidate alone; and [/fire] is logged as
    excluded because the keyword is its entire path. *)
Theorem whole_path_exclusion_keeps_denominator
    level_hrefs r level hrefs unique_urls skipped0 c_report c_fire :
  search_keyword_in_hrefs level_hrefs (lit "fire") = Ok (Some r) ->
  wf_dict level_hrefs -> (level, hrefs) ∈ level_hrefs ->
  collect_level hrefs = Ok (unique_urls, skipped0) ->
  unique_urls ≡ₚ [(fire_report_url, c_report); (fire_url, c_fire)] ->
  dict_get level (level_stats r)
  = Some {| total_unique_urls := 2; matching_urls := 1;
            keyword_ratio := 1 # 2 |}
  /\ dict_get level (all_matches r)
     = Some [set_path c_report (lit "/fire/report")]
  /\ exists dbg,
       dict_get level (debug_info r) = Some dbg
       /\ included dbg = [fire_report_url]
       /\ dict_get fire_url (skipped dbg)
          = Some (lit "Keyword 'fire' is the entire path").
Proof.
  intros Hr Hwf Hin Hc Hperm.
  destruct (search_level _ _ _ _ _ Hr Hwf Hin)
    as (sk0 & m & sk1 & inc & Hc' & Ha & Hget).
  rewrite Hc in Hc'. injection Hc' as Hu <-. rewrite <- Hu in *. clear Hu.
  apply analyse_level_Ok in Ha. injection Ha as -> -> ->.
  assert (analyse_write (lit "fire") (keyword_regex_of (lit "fire"))
            (fire_report_url, c_report) = None) as Hw1 by reflexivity.
  assert (analyse_write (lit "fire") (keyword_regex_of (lit "fire"))
            (fire_url, c_fire)
          = Some (fire_url, lit "Keyword 'fire' is the entire path"))
    as Hw2 by reflexivity.
  assert (analyse_match (lit "fire") (keyword_regex_of (lit "fire"))
            (fire_report_url, c_report)
          = Some (set_path c_report (lit "/fire/report"))) as Hm1
    by reflexivity.
  assert (analyse_match (lit "fire") (keyword_regex_of (lit "fire"))
            (fire_url, c_fire) = None) as Hm2.
  { unfold analyse_match. by rewrite Hw2. }
  assert (forall c, analyse_included (lit "fire")
                      (keyword_regex_of (lit "fire")) (fire_report_url, c)
                    = Some fire_report_url) as Hi1 by reflexivity.
  assert (analyse_included (lit "fire") (keyword_regex_of (lit "fire"))
            (fire_url, c_fire) = None) as Hi2.
  { unfold analyse_included. by rewrite Hm2. }
  symmetry in Hperm.
  apply Permutation_length_2_inv in Hperm as [->| ->];
    unfold stored in Hget; cbn [omap length Nat.ltb Nat.leb] in Hget;
    rewrite ?Hw1, ?Hw2, ?Hm1, ?Hm2, ?Hi1, ?Hi2 in Hget;
    cbn [mbind option_bind app] in Hget;
    injection Hget as -> -> ->.
  all: split_and!; [done..|].
  all: eexists; split_and!; [done..|].
  all: cbn [skipped]; unfold replay; cbn [foldl fst snd];
    apply dict_get_set_eq.
Qed.

Lemma levels_collect keyword keyword_regex level_hrefs st st' level hrefs :
  for_each (process_level keyword keyword_regex) level_hrefs st = Ok st' ->
  (level, hrefs) ∈ level_hrefs ->
  exists unique_urls skipped0, collect_level hrefs = Ok (unique_urls, skipped0).
Proof.
  revert st. induction level_hrefs as [|[l0 h0] lh IH]; intros st; cbn.
  - by intros _ ?%elem_of_nil.
  - intros (st1 & H1 & Hrest)%bind_Ok [[= -> ->]|Hin]%elem_of_cons.
    + apply process_level_Ok in H1 as (u & sk0 & _ & Hc & _). eauto.
    + by eapply IH.
Qed.

(** Every debug record of the tables was stored for a level of the input. *)
Lemma levels_debug keyword keyword_regex level_hrefs st st' level dbg :
  for_each (process_level keyword keyword_regex) level_hrefs st = Ok st' ->
  dict_get level st'.2 = Some dbg ->
  dict_get level st.2 = Some dbg
  \/ exists hrefs unique_urls skipped0 matching skipped1 included0,
       (level, hrefs) ∈ level_hrefs
       /\ collect_level hrefs = Ok (unique_urls, skipped0)
       /\ analyse_level keyword keyword_regex unique_urls skipped0
          = Ok (matching, skipped1, included0)
       /\ skipped dbg = skipped1.
Proof.
  revert st. induction level_hrefs as [|[l0 h0] lh IH]; intros st; cbn.
  - intros [= <-]. by left.
  - intros (st1 & H1 & Hrest)%bind_Ok Hget.
    apply process_level_Ok in H1 as (u & sk0 & [[m sk1] inc] & Hc & Ha & ->).
    destruct (IH _ Hrest Hget) as [Hold|Hnew].
    + destruct st as [[ls lm] ld]. cbn -[Nat.ltb] in Hold.
      rewrite dict_get_set in Hold. case_decide as Hl; [|by left].
      subst l0. injection Hold as <-. right.
      exists h0, u, sk0, m, sk1, inc. split_and!; [|done..].
      apply list_elem_of_here.
    + destruct Hnew as (hrefs & u' & sk0' & m' & sk1' & inc' & Hin & ?).
      right. exists hrefs, u', sk0', m', sk1', inc'.
      split; [by apply list_elem_of_further | done].
Qed.

Lemma dict_filter_key {V} (d : pydict str V) k v :
  wf_dict d -> dict_get k d = Some v ->
  List.filter (fun e => bool_decide (e.1 = k)) d = [(k, v)].
Proof.
  unfold wf_dict, dict_keys. induction d as [|[k' v'] d IH]; cbn; [done|].
  intros [Hk' Hd]%NoDup_cons. case_decide as Hk.
  - subst k'. intros [= ->]. rewrite bool_decide_true by done. f_equal.
    clear IH Hd. induction d as [|[k0 v0] d IH]; cbn; [done|].
    apply not_elem_of_cons in Hk' as [Hne Hk']. cbn in Hne.
    rewrite bool_decide_false by done. by apply IH.
  - intros Hget. rewrite bool_decide_false by done. by apply IH.
Qed.

(** C2 (amended): the function has no handling of unparsable URLs.  A
    link that is not a share link and on which [urlparse] raises
    [ValueError] makes the function raise [ValueError]; the function raises
    nothing else; and every reason in the exclusion log of a result is the
    share-link reason, the anchor/query reason of the parsed URL, or one of
    the two keyword reasons. *)
Theorem unparsable_url_raises :
  (forall level_hrefs keyword level hrefs h,
     (level, hrefs) ∈ level_hrefs -> h ∈ hrefs ->
     is_share_link (href_url h) = false ->
     urlparse (href_url h) = Raise ValueError ->
     search_keyword_in_hrefs level_hrefs keyword = Raise ValueError)
  /\ (forall level_hrefs keyword e,
        search_keyword_in_hrefs level_hrefs keyword = Raise e ->
        e = ValueError)
  /\ (forall level_hrefs keyword r level dbg url reason,
        search_keyword_in_hrefs level_hrefs keyword = Ok (Some r) ->
        dict_get level (debug_info r) = Some dbg ->
        dict_get url (skipped dbg) = Some reason ->
        reason = social_reason
        \/ (exists parsed_url,
              urlparse url = Ok parsed_url
              /\ reason = anchor_query_reason parsed_url)
        \/ reason = not_in_path_reason keyword
        \/ reason = entire_path_reason keyword).
Proof.
  split_and!.
  - intros level_hrefs keyword level hrefs h Hin Hh Hshare Hp.
    destruct (search_keyword_in_hrefs level_hrefs keyword) as [res|e] eqn:Hs.
    + apply search_tables in Hs as (st & Hst & _).
      destruct (levels_collect _ _ _ _ _ _ _ Hst Hin) as (u & sk0 & Hc).
      destruct (collect_level_parses _ _ _ Hc Hh Hshare) as [p Hp'].
      congruence.
    + by apply search_raises in Hs as ->.
  - intros level_hrefs keyword e. apply search_raises.
  - intros level_hrefs keyword r level dbg url reason
      (st & Hst & _ & _ & Hn & Hsome)%search_tables Hdbg Hreason.
    assert (st.1.1 ≠ []) as Hne by (intros Hnil; by specialize (Hn Hnil)).
    destruct (Hsome Hne) as (r' & [= <-] & _ & _ & Hd). rewrite Hd in Hdbg.
    destruct (levels_debug _ _ _ _ _ _ _ Hst Hdbg)
      as [Hold|(hrefs & u & sk0 & m & sk1 & inc & _ & Hc & Ha & Hsk)];
      [done|].
    rewrite Hsk, (level_skipped _ _ _ _ _ _ _ _ Hc Ha), replay_lookup
      in Hreason.
    destruct (last_write url _) as [reason'|] eqn:Hl; [|done].
    injection Hreason as ->.
    apply last_write_elem in Hl. unfold level_writes in Hl.
    apply elem_of_app in Hl as [Hl|Hl];
      apply list_elem_of_omap in Hl as (x & _ & Hw).
    + unfold collect_write in Hw.
      destruct (is_share_link (href_url x)); [left; congruence|].
      destruct (urlparse (href_url x)) as [p|] eqn:Hp; [|done].
      destruct (nonempty (fragment p) || nonempty (query p)); [|done].
      injection Hw as <- <-. right; left. by exists p.
    + unfold analyse_write in Hw.
      destruct (urlparse x.1) as [p|]; [|done].
      destruct (negb (re_search (keyword_regex_of keyword) (path p)));
        [right; right; left; congruence|].
      destruct (_ && _); [right; right; right; congruence | done].
Qed.

(** C3 (amended): a link is a share link when its lowercased URL contains
    one of the four share patterns; the first inner loop logs such a link
    with the reason [Social media sharing link] and goes on without parsing
    it or touching the pool; and in the log of a result a share link that
    carries a question mark has that reason, not a query reason. *)
Theorem share_link_is_dropped_first :
  (forall url,
     is_share_link url = true <->
     contains (lit "facebook.com/sharer") (lower url) = true
     \/ contains (lit "twitter.com/intent/tweet") (lower url) = true
     \/ contains (lit "whatsapp.com/send") (lower url) = true
     \/ contains (lit "telegram.me/share") (lower url) = true)
  /\ (forall unique_urls skipped0 h,
        is_share_link (href_url h) = true ->
        collect_href (unique_urls, skipped0) h
        = Ok (unique_urls,
              dict_set (href_url h) (lit "Social media sharing link")
                skipped0))
  /\ (forall level_hrefs keyword r level hrefs h,
        search_keyword_in_hrefs level_hrefs keyword = Ok (Some r) ->
        wf_dict level_hrefs -> (level, hrefs) ∈ level_hrefs -> h ∈ hrefs ->
        is_share_link (href_url h) = true ->
        has_char "?" (href_url h) = true ->
        exists dbg,
          dict_get level (debug_info r) = Some dbg
          /\ dict_get (href_url h) (skipped dbg)
             = Some (lit "Social media sharing link")).
Proof.
  split_and!.
  - intros url. unfold is_share_link, share_domains. cbn [existsb].
    rewrite orb_false_r, !orb_true_iff. clear. tauto.
  - intros unique_urls skipped0 h Hshare. unfold collect_href.
    by rewrite Hshare.
  - intros level_hrefs keyword r level hrefs h Hr Hwf Hin Hh Hshare Hq.
    destruct (search_level _ _ _ _ _ Hr Hwf Hin)
      as (sk0 & m & sk1 & inc & Hc & Ha & Hget).
    injection Hget as _ _ Hdbg. eexists. split; [exact Hdbg|]. cbn [skipped].
    rewrite (level_skipped _ _ _ _ _ _ _ _ Hc Ha), replay_lookup.
    by rewrite share_link_last_write.
Qed.

(** C6: after the first inner loop, for every link that survives the
    exclusions, the pool has exactly one entry under the link's normalized
    URL, and that entry is made from the first of the links with this
    normalized URL whose text is longest. *)
Theorem pool_keeps_first_longest hrefs unique_urls skipped0 h k :
  collect_level hrefs = Ok (unique_urls, skipped0) ->
  h ∈ hrefs -> survivor_key h = Some k ->
  exists i best,
    first_longest k hrefs i best
    /\ List.filter (fun e => bool_decide (e.1 = k)) unique_urls
       = [(k, to_candidate k best)].
Proof.
  intros ->%collect_level_pool Hh Hk.
  pose proof (pool_lookup hrefs k) as H.
  destruct (dict_get k (pool hrefs)) as [c|] eqn:Hget.
  - destruct H as (i & best & Hbest & ->). exists i, best. split; [done|].
    apply dict_filter_key; [apply pool_wf | done].
  - by destruct (H h Hh).
Qed.

(** C10: the exclusion log of a level is a dictionary with pairwise
    distinct URLs as keys, and the reason it holds for a URL is the reason
    of the last write the two inner loops made for that URL. *)
Theorem exclusion_log_last_write_wins level_hrefs keyword r level hrefs :
  search_keyword_in_hrefs level_hrefs keyword = Ok (Some r) ->
  wf_dict level_hrefs -> (level, hrefs) ∈ level_hrefs ->
  exists dbg unique_urls skipped0,
    dict_get level (debug_info r) = Some dbg
    /\ collect_level hrefs = Ok (unique_urls, skipped0)
    /\ NoDup (dict_keys (skipped dbg))
    /\ forall url,
         dict_get url (skipped dbg)
         = last_write url
             (level_writes keyword (keyword_regex_of keyword) hrefs
                unique_urls).
Proof.
  intros Hr Hwf Hin.
  destruct (search_level _ _ _ _ _ Hr Hwf Hin)
    as (sk0 & m & sk1 & inc & Hc & Ha & Hget).
  injection Hget as _ _ Hdbg. eexists _, (pool hrefs), sk0.
  split_and!; [exact Hdbg | done | |]; cbn [skipped];
    rewrite (level_skipped _ _ _ _ _ _ _ _ Hc Ha).
  - apply replay_wf, NoDup_nil_2.
  - intros url. rewrite replay_lookup. by destruct (last_write url _).
Qed.

(** C7: whenever the function returns a result, the selected level is a
    scored level whose ratio is the reported highest ratio, no scored level
    has a larger ratio, and the selected level is the smallest of the
    levels whose ratio equals the highest one. *)
Theorem selected_level_is_shallowest_maximum level_hrefs keyword r :
  search_keyword_in_hrefs level_hrefs keyword = Ok (Some r) ->
  (exists st, dict_get (target_level r) (level_stats r) = Some st
     /\ (keyword_ratio st == highest_ratio r)%Q)
  /\ (forall l st, dict_get l (level_stats r) = Some st ->
        (keyword_ratio st <= highest_ratio r)%Q)
  /\ (forall l st, dict_get l (level_stats r) = Some st ->
        (keyword_ratio st == highest_ratio r)%Q -> target_level r <= l)
  /\ best_matches r = default [] (dict_get (target_level r) (all_matches r)).
Proof.
  intros (st & _ & Hwf & Hsel & Hnil & _)%search_tables.
  destruct st as [[ls lm] ld]. cbn in Hnil.
  destruct (decide (ls = [])) as [->|Hne]; [by specialize (Hnil eq_refl)|].
  destruct (select_level_spec ls lm ld Hne) as (r' & Hr' & E1 & E2 & _ & H);
    [apply Hwf|].
  pose proof (eq_trans (eq_sym Hsel) Hr') as [= ->].
  rewrite E1, E2. destruct H as (? & ? & ? & ?). by split_and!.
Qed.

(** C8: a level whose pool is empty after the first inner loop gets no
    entry in [level_stats], and a level with a non-empty pool gets one; the
    function returns [None] exactly when the pool of every level is
    empty. *)
Theorem empty_pool_is_not_scored level_hrefs keyword :
  (forall r level hrefs unique_urls skipped0,
     search_keyword_in_hrefs level_hrefs keyword = Ok (Some r) ->
     wf_dict level_hrefs -> (level, hrefs) ∈ level_hrefs ->
     collect_level hrefs = Ok (unique_urls, skipped0) ->
     (dict_get level (level_stats r) = None <-> unique_urls = []))
  /\ (search_keyword_in_hrefs level_hrefs keyword = Ok None <->
      forall level hrefs, (level, hrefs) ∈ level_hrefs ->
        exists skipped0, collect_level hrefs = Ok ([], skipped0)).
Proof.
  split.
  - intros r level hrefs u sk0 (st & Hst & _ & _ & Hn & Hsome)%search_tables
      Hwf Hin Hc.
    destruct (levels_lookup _ _ _ _ _ _ _ Hst Hwf Hin)
      as (u' & sk' & [[m sk2] inc] & Hc' & _ & Hget).
    rewrite Hc in Hc'. injection Hc' as <- <-.
    assert (st.1.1 ≠ []) as Hne by (intros Hnil; by specialize (Hn Hnil)).
    destruct (Hsome Hne) as (r' & [= <-] & -> & _).
    unfold tables_get, stored in Hget. cbn -[Nat.ltb] in Hget.
    injection Hget as Hget _ _. rewrite Hget.
    by destruct u.
  - split.
    + intros (st & Hst & _ & _ & _ & Hsome)%search_tables.
      apply (levels_stats_nil _ _ _ _ _ Hst).
      destruct (decide (st.1.1 = [])) as [|Hne]; [done|].
      by destruct (Hsome Hne) as (? & ? & _).
    + intros Hall. rewrite search_unfold.
      destruct (levels_empty_total keyword (keyword_regex_of keyword)
                  level_hrefs ([], [], []) Hall) as [st Hst].
      rewrite Hst. cbn.
      assert (st.1.1 = []) as Hnil.
      { by apply (levels_stats_nil _ _ _ _ _ Hst). }
      destruct st as [[ls lm] ld]. cbn in Hnil. by subst ls.
Qed.

(** C9: for every keyword, the empty one and those with pattern
    metacharacters included, the pattern built from the escaped keyword
    compiles, to a word boundary, one literal per character of the keyword
    and a word boundary; a string matches it as a whole exactly when it is
    the keyword up to case between word characters; and the function never
    raises a pattern error. *)
Theorem keyword_pattern_is_literal keyword :
  compile_keyword keyword
  = Ok {| ops := AT AT_BOUNDARY :: map LITERAL keyword ++ [AT AT_BOUNDARY];
          ignorecase := true |}
  /\ (forall s,
        re_fullmatch (keyword_regex_of keyword) s = true
        <-> lower s = lower keyword
            /\ word_here s = true /\ word_before (last s) = true)
  /\ (forall level_hrefs e,
        search_keyword_in_hrefs level_hrefs keyword = Raise e ->
        e = ValueError).
Proof.
  split_and!.
  - apply compile_keyword_ops.
  - apply fullmatch_keyword.
  - intros level_hrefs e. apply search_raises.
Qed.

(* ===================================================================== *)
(** ** Properties of bfs_traverse_dom *)
(* ===================================================================== *)

Lemma bfs_loop_cons base_url n level queue level_hrefs :
  bfs_loop base_url ((n, level) :: queue) level_hrefs
  = node_link base_url n ≫= fun found =>
      bfs_loop base_url (enqueue_children queue n level)
        (match found with
         | Some h => dict_append level h level_hrefs
         | None => level_hrefs
         end).
Proof.
  rewrite bfs_loop_equation_2. by destruct (node_link base_url n).
Qed.

(** [level] and parent hops. *)
Lemma level_app d f1 f2 : level d (f1 ++ f2) = level d f1 ++ level d f2.
Proof.
  revert f1 f2. induction d as [|d IH]; intros f1 f2; cbn; [done|].
  by rewrite flat_map_app, IH.
Qed.

Lemma level_nil d : level d [] = [].
Proof. induction d as [|d IH]; cbn; [done | exact IH]. Qed.

Lemma level_succ d forest :
  level (S d) forest = flat_map children (level d forest).
Proof.
  revert forest. induction d as [|d IH]; intros forest; [done|].
  change (level (S (S d)) forest) with (level (S d) (flat_map children forest)).
  by rewrite IH.
Qed.

Lemma elem_of_flat_map {A B} (f : A -> list B) (l : list A) y :
  y ∈ flat_map f l <-> exists x, x ∈ l /\ y ∈ f x.
Proof.
  rewrite list_elem_of_In, in_flat_map.
  by setoid_rewrite list_elem_of_In.
Qed.

Lemma level_at_depth root d n : n ∈ level d [root] <-> at_depth root d n.
Proof.
  revert n. induction d as [|d IH]; intros n.
  - cbn. rewrite list_elem_of_singleton. split.
    + intros ->. constructor.
    + by inversion 1.
  - rewrite level_succ, elem_of_flat_map. split.
    + intros (p & Hp%IH & Hn). by econstructor.
    + inversion 1 as [|d' p c Hp Hc]; subst. exists p. by rewrite IH.
Qed.

Lemma get_list_append d l h (acc : pydict nat (list href)) :
  get_list d (dict_append l h acc)
  = get_list d acc ++ (if decide (d = l) then [h] else []).
Proof.
  unfold get_list, dict_append. rewrite dict_get_set.
  repeat case_decide; subst; try done. by rewrite app_nil_r.
Qed.

Lemma links_of_cons base_url n ns :
  links_of base_url (n :: ns)
  = option_list (link_of base_url n) ++ links_of base_url ns.
Proof. unfold links_of. cbn. by destruct (link_of base_url n). Qed.

Lemma links_of_app base_url ns1 ns2 :
  links_of base_url (ns1 ++ ns2)
  = links_of base_url ns1 ++ links_of base_url ns2.
Proof. apply omap_app. Qed.

Lemma node_size_pos n : 0 < node_size n.
Proof. destruct n. cbn. lia. Qed.

Lemma enqueue_tagged l a ns1 ns2 :
  enqueue_children (tagged l ns1 ++ tagged (l + 1) ns2) a l
  = tagged l ns1 ++ tagged (l + 1) (ns2 ++ children a).
Proof.
  unfold enqueue_children, tagged. by rewrite map_app, app_assoc.
Qed.

Lemma queue_size_step n level queue :
  queue_size (enqueue_children queue n level)
  < queue_size ((n, level) :: queue).
Proof.
  unfold enqueue_children, queue_size.
  rewrite sum_list_with_app. destruct n as [? ? ? ? ? cs]. cbn.
  replace (sum_list_with (fun e : node * nat => node_size e.1)
             (map (fun child => (child, level + 1)) cs))
    with (sum_list_with node_size cs); [lia |].
  induction cs as [|c cs IH]; cbn; [done | by rewrite IH].
Qed.

(** The loop, started on the rest of level [l] followed by the part of
    level [l + 1] already queued, adds to each depth the links of that
    depth in level order. *)
Lemma bfs_loop_levels base_url size :
  forall ns1 ns2 l acc m,
    queue_size (tagged l ns1 ++ tagged (l + 1) ns2) <= size ->
    bfs_loop base_url (tagged l ns1 ++ tagged (l + 1) ns2) acc = Ok m ->
    forall d,
      get_list d m
      = get_list d acc ++ below base_url (l + 1) ns2 d
        ++ below base_url l ns1 d.
Proof.
  induction size as [|size IH].
  - intros ns1 ns2 l acc m Hsize Hrun d.
    assert (ns1 = [] /\ ns2 = []) as [-> ->].
    { unfold queue_size in Hsize. rewrite sum_list_with_app in Hsize.
      destruct ns1 as [|n1 ns1], ns2 as [|n2 ns2]; cbn in Hsize;
        [done|..]; exfalso.
      - pose proof (node_size_pos n2). lia.
      - pose proof (node_size_pos n1). lia.
      - pose proof (node_size_pos n1). lia. }
    cbn in Hrun. rewrite bfs_loop_equation_1 in Hrun. injection Hrun as <-.
    unfold below. rewrite !level_nil.
    destruct (l + 1 <=? d), (l <=? d); by rewrite ?app_nil_r.
  - assert (forall a ns1 ns2 l acc m,
              queue_size (tagged l (a :: ns1) ++ tagged (l + 1) ns2)
              <= S size ->
              bfs_loop base_url (tagged l (a :: ns1) ++ tagged (l + 1) ns2)
                acc = Ok m ->
              forall d,
                get_list d m
                = get_list d acc ++ below base_url (l + 1) ns2 d
                  ++ below base_url l (a :: ns1) d) as Hcons.
    { intros a ns1 ns2 l acc m Hsize Hrun d.
      change (tagged l (a :: ns1) ++ tagged (l + 1) ns2)
        with ((a, l) :: (tagged l ns1 ++ tagged (l + 1) ns2)) in *.
      pose proof (queue_size_step a l (tagged l ns1 ++ tagged (l + 1) ns2))
        as Hstep.
      rewrite bfs_loop_cons in Hrun.
      apply bind_Ok in Hrun as (found & Hfound & Hrun).
      rewrite enqueue_tagged in Hrun, Hstep.
      assert (queue_size (tagged l ns1 ++ tagged (l + 1) (ns2 ++ children a))
              <= size) as Hle by lia.
      rewrite (IH _ _ _ _ _ Hle Hrun d).
      assert (link_of base_url a = found) as Hlink.
      { unfold link_of. by rewrite Hfound. }
      unfold below.
      destruct (lt_eq_lt_dec d l) as [[Hd|Hd]|Hd].
      - rewrite !(proj2 (Nat.leb_gt _ _)) by lia. rewrite !app_nil_r.
        destruct found; [|done].
        rewrite get_list_append, decide_False by lia. by rewrite app_nil_r.
      - subst d. rewrite (proj2 (Nat.leb_gt (l + 1) l)) by lia.
        rewrite Nat.leb_refl, Nat.sub_diag. cbn [level app].
        rewrite links_of_cons, Hlink. destruct found as [h|]; cbn.
        + rewrite get_list_append, decide_True by done.
          by rewrite <- app_assoc.
        + done.
      - rewrite !(proj2 (Nat.leb_le _ _)) by lia.
        replace (d - l) with (S (d - (l + 1))) by lia.
        cbn [level flat_map]. rewrite !level_app, !links_of_app.
        rewrite <- !app_assoc. f_equal.
        destruct found; [|done].
        rewrite get_list_append, decide_False by lia. by rewrite app_nil_r. }
    intros [|a ns1] ns2 l acc m Hsize Hrun d; [|by apply Hcons].
    destruct ns2 as [|b ns2].
    + cbn in Hrun. rewrite bfs_loop_equation_1 in Hrun. injection Hrun as <-.
      unfold below. rewrite !level_nil.
      destruct (l + 1 <=? d), (l <=? d); by rewrite ?app_nil_r.
    + cbn [tagged map app] in Hsize, Hrun.
      rewrite (Hcons b ns2 [] (l + 1) acc m); cycle 1.
      { cbn [tagged map]. by rewrite app_nil_r. }
      { cbn [tagged map]. by rewrite app_nil_r. }
      unfold below at 1 4. rewrite !level_nil.
      destruct (l + 1 + 1 <=? d), (l <=? d); by rewrite ?app_nil_r.
Qed.

(** Induction along the run of the loop. *)
Lemma bfs_loop_induction base_url
    (P : list (node * nat) -> pydict nat (list href) -> Prop) :
  (forall acc, P [] acc) ->
  (forall n l queue acc,
     (forall found, node_link base_url n = Ok found ->
        P (enqueue_children queue n l)
          (match found with
           | Some h => dict_append l h acc
           | None => acc
           end)) ->
     P ((n, l) :: queue) acc) ->
  forall queue acc, P queue acc.
Proof.
  intros Hnil Hcons queue.
  induction queue as [queue IH] using (induction_ltof1 _ queue_size).
  destruct queue as [|[n l] queue]; intros acc; [apply Hnil|].
  apply Hcons. intros found _. apply IH. apply queue_size_step.
Qed.

Lemma elem_of_dict_set {K V} `{EqDecision K} (d : pydict K V) k v e :
  e ∈ dict_set k v d -> e = (k, v) \/ e ∈ d.
Proof.
  induction d as [|[k' v'] d IH]; cbn.
  - intros ->%list_elem_of_singleton. by left.
  - case_decide.
    + intros [->|He]%elem_of_cons; [by left|].
      right. by apply list_elem_of_further.
    + intros [->|He]%elem_of_cons; [right; apply list_elem_of_here|].
      destruct (IH He) as [->|Hd]; [by left|].
      right. by apply list_elem_of_further.
Qed.

Lemma bfs_loop_no_empty_list base_url queue acc m :
  no_empty_list acc -> bfs_loop base_url queue acc = Ok m -> no_empty_list m.
Proof.
  revert m. revert queue acc.
  apply (bfs_loop_induction base_url
           (fun queue acc => forall m, no_empty_list acc ->
              bfs_loop base_url queue acc = Ok m -> no_empty_list m)).
  - intros acc m Hacc. rewrite bfs_loop_equation_1. by intros [= <-].
  - intros n l queue acc IH m Hacc. rewrite bfs_loop_cons.
    intros (found & Hfound & Hrun)%bind_Ok.
    apply (IH found Hfound m); [|done].
    destruct found as [h|]; [|done]. intros k v Hin.
    apply elem_of_dict_set in Hin as [[= -> ->]|Hin]; [|by eapply Hacc].
    by destruct (default [] (dict_get l acc)).
Qed.

Lemma fst_enqueue_children queue n l :
  map fst (enqueue_children queue n l) = map fst queue ++ children n.
Proof.
  unfold enqueue_children. rewrite map_app, map_map. cbn.
  by rewrite map_id.
Qed.

Lemma level_cons d n forest :
  level d (n :: forest) = level d [n] ++ level d forest.
Proof. apply (level_app d [n] forest). Qed.

Lemma level_succ_single d n : level (S d) [n] = level d (children n).
Proof. cbn. by rewrite app_nil_r. Qed.

(** A run to the end has found a result for every node below the queue. *)
Lemma bfs_loop_links_ok base_url queue acc m :
  bfs_loop base_url queue acc = Ok m ->
  forall d n, n ∈ level d (map fst queue) ->
    exists found, node_link base_url n = Ok found.
Proof.
  revert m. revert queue acc.
  apply (bfs_loop_induction base_url
           (fun queue acc => forall m,
              bfs_loop base_url queue acc = Ok m ->
              forall d n, n ∈ level d (map fst queue) ->
                exists found, node_link base_url n = Ok found)).
  - intros acc m _ d n. cbn. rewrite level_nil. by intros ?%elem_of_nil.
  - intros a l queue acc IH m. rewrite bfs_loop_cons.
    intros (found & Hfound & Hrun)%bind_Ok d n.
    specialize (IH found Hfound m Hrun). rewrite fst_enqueue_children in IH.
    cbn [map fst]. rewrite level_cons.
    intros [Hn|Hn]%elem_of_app.
    + destruct d as [|d].
      * apply list_elem_of_singleton in Hn as ->. by exists found.
      * rewrite level_succ_single in Hn. apply (IH d).
        rewrite level_app. apply elem_of_app. by right.
    + apply (IH d). rewrite level_app. apply elem_of_app. by left.
Qed.

(** The loop runs to the end when every node below the queue has a
    result. *)
Lemma bfs_loop_total base_url queue acc :
  (forall d n, n ∈ level d (map fst queue) ->
     exists found, node_link base_url n = Ok found) ->
  exists m, bfs_loop base_url queue acc = Ok m.
Proof.
  revert queue acc.
  apply (bfs_loop_induction base_url
           (fun queue acc =>
              (forall d n, n ∈ level d (map fst queue) ->
                 exists found, node_link base_url n = Ok found) ->
              exists m, bfs_loop base_url queue acc = Ok m)).
  - intros acc _. exists acc. apply bfs_loop_equation_1.
  - intros a l queue acc IH Hall. rewrite bfs_loop_cons.
    destruct (Hall 0 a) as [found Hfound]; [apply list_elem_of_here|].
    rewrite Hfound. cbn [mbind result_bind]. apply (IH found Hfound).
    rewrite fst_enqueue_children. intros d n. rewrite level_app.
    intros [Hn|Hn]%elem_of_app.
    + apply (Hall d). cbn [map fst]. rewrite level_cons.
      apply elem_of_app. by right.
    + apply (Hall (S d)). cbn [map fst]. rewrite level_cons.
      apply elem_of_app. left. by rewrite level_succ_single.
Qed.

(** A node has a link exactly when it is eligible. *)
Lemma node_link_eligible base_url n found :
  node_link base_url n = Ok found -> (is_Some found <-> eligible n = true).
Proof.
  unfold node_link, eligible.
  destruct (bool_decide (nodeType n = Some 1%Z)); cbn [andb];
    [|intros [= <-]; split; [by intros [? ?] | done]].
  destruct (attributes n) as [attrs|];
    [|intros [= <-]; split; [by intros [? ?] | done]].
  cbn zeta.
  destruct (nonempty (default [] (dict_get (lit "href") attrs))
            && negb (startswith (default [] (dict_get (lit "href") attrs)) "#")
            && negb (startswith (default [] (dict_get (lit "href") attrs))
                       "javascript:")); cbn [andb];
    [|intros [= <-]; split; [by intros [? ?] | done]].
  destruct (negb (existsb _ image_extensions));
    [|intros [= <-]; split; [by intros [? ?] | done]].
  intros (full_url & _ & [= <-])%bind_Ok. split; [done | by eexists].
Qed.

Lemma node_link_not_eligible base_url n :
  eligible n = false -> node_link base_url n = Ok None.
Proof.
  unfold node_link, eligible.
  destruct (bool_decide (nodeType n = Some 1%Z)); cbn [andb]; [|done].
  destruct (attributes n) as [attrs|]; [|done]. cbn zeta.
  destruct (nonempty (default [] (dict_get (lit "href") attrs))
            && negb (startswith (default [] (dict_get (lit "href") attrs)) "#")
            && negb (startswith (default [] (dict_get (lit "href") attrs))
                       "javascript:")); cbn [andb]; [|done].
  by destruct (negb (existsb _ image_extensions)).
Qed.

Lemma links_of_eligible base_url ns :
  (forall n, n ∈ ns -> exists found, node_link base_url n = Ok found) ->
  Forall2 (fun n h => node_link base_url n = Ok (Some h))
    (List.filter eligible ns) (links_of base_url ns).
Proof.
  induction ns as [|n ns IH]; intros Hall; [constructor|].
  rewrite links_of_cons. cbn [List.filter].
  destruct (Hall n (list_elem_of_here _ _)) as [found Hfound].
  pose proof (node_link_eligible _ _ _ Hfound) as Hel.
  unfold link_of. rewrite Hfound.
  assert (Forall2 (fun n h => node_link base_url n = Ok (Some h))
            (List.filter eligible ns) (links_of base_url ns)) as Hrest.
  { apply IH. intros n' Hn'. apply Hall. by apply list_elem_of_further. }
  destruct found as [h|]; cbn [option_list app].
  - rewrite (proj1 Hel) by by eexists. by constructor.
  - destruct (eligible n) eqn:He; [|done].
    by destruct (proj2 Hel eq_refl).
Qed.

Lemma bfs_traverse_dom_levels root base_url m d :
  bfs_traverse_dom root base_url = Ok m ->
  get_list d m = links_of base_url (level d [root]).
Proof.
  unfold bfs_traverse_dom. intros Hrun.
  pose proof (bfs_loop_levels base_url (queue_size [(root, 0)])
                [root] [] 0 [] m) as H.
  cbn [tagged map app] in H. rewrite (H (Nat.le_refl _) Hrun d).
  unfold below, get_list. cbn [dict_get default app Nat.leb].
  rewrite level_nil, Nat.sub_0_r. by destruct (0 + 1 <=? d).
Qed.

(** C4: the traversal runs to the end when no visited node raises; the
    mapping it returns holds under each depth [d] the links of the nodes
    [d] parent hops below the root, in level order, and has no key for a
    depth without links; the nodes of level [d + 1] are the children of
    the nodes of level [d], in their order. *)
Theorem bfs_groups_links_by_depth root base_url :
  ((forall d n, at_depth root d n ->
      exists found, node_link base_url n = Ok found) ->
   exists m, bfs_traverse_dom root base_url = Ok m)
  /\ (forall m, bfs_traverse_dom root base_url = Ok m ->
        forall d,
          dict_get d m
          = match links_of base_url (level d [root]) with
            | [] => None
            | links => Some links
            end)
  /\ (forall d n, n ∈ level d [root] <-> at_depth root d n)
  /\ (forall d, level (S d) [root] = flat_map children (level d [root])).
Proof.
  split_and!.
  - intros Hall. apply bfs_loop_total. cbn [map fst]. intros d n Hn.
    apply (Hall d). by apply level_at_depth.
  - intros m Hrun d. pose proof (bfs_traverse_dom_levels _ _ _ d Hrun) as H.
    unfold get_list in H.
    destruct (dict_get d m) as [links|] eqn:Hget; cbn in H.
    + rewrite <- H. destruct links; [|done].
      assert (no_empty_list m) as Hne.
      { eapply bfs_loop_no_empty_list; [|exact Hrun].
        by intros k l ?%elem_of_nil. }
      by destruct (Hne d [] (dict_get_Some_elem _ _ _ Hget)).
    + by rewrite <- H.
  - apply level_at_depth.
  - intros d. apply level_succ.
Qed.

(** A run that raises has met a node whose link raises. *)
Lemma bfs_loop_raise base_url queue acc e :
  bfs_loop base_url queue acc = Raise e ->
  exists d n, n ∈ level d (map fst queue) /\ node_link base_url n = Raise e.
Proof.
  revert queue acc.
  apply (bfs_loop_induction base_url
           (fun queue acc =>
              bfs_loop base_url queue acc = Raise e ->
              exists d n,
                n ∈ level d (map fst queue)
                /\ node_link base_url n = Raise e)).
  - intros acc. by rewrite bfs_loop_equation_1.
  - intros a l queue acc IH. rewrite bfs_loop_cons.
    intros [Hraise|(found & Hfound & Hrun)]%bind_Raise.
    + exists 0, a. split; [apply list_elem_of_here | done].
    + destruct (IH found Hfound Hrun) as (d & n & Hn & Hraise).
      rewrite fst_enqueue_children, level_app in Hn.
      apply elem_of_app in Hn as [Hn|Hn].
      * exists d, n. split; [|done]. cbn [map fst]. rewrite level_cons.
        apply elem_of_app. by right.
      * exists (S d), n. split; [|done]. cbn [map fst]. rewrite level_cons.
        apply elem_of_app. left. by rewrite level_succ_single.
Qed.

(** The link of an eligible node: its URL is the [href], resolved against
    the base unless it starts with [http://], [https://] or [//]; the
    node raises when the resolution raises. *)
Lemma node_link_of_eligible base_url n :
  eligible n = true ->
  exists attrs,
    attributes n = Some attrs
    /\ let href := default [] (dict_get (lit "href") attrs) in
       match
         (if startswith href "http://" || startswith href "https://"
             || startswith href "//"
          then Ok href
          else urljoin base_url href)
       with
       | Ok full_url =>
           exists h,
             node_link base_url n = Ok (Some h) /\ href_url h = full_url
       | Raise e => node_link base_url n = Raise e
       end.
Proof.
  unfold node_link, eligible.
  destruct (bool_decide (nodeType n = Some 1%Z)); cbn [andb]; [|done].
  destruct (attributes n) as [attrs|]; [|done]. cbn zeta.
  intros [Hhref Himage]%andb_true_iff. rewrite Hhref, Himage.
  exists attrs. split; [done|].
  destruct (startswith (default [] (dict_get (lit "href") attrs)) "http://"
            || startswith (default [] (dict_get (lit "href") attrs))
                 "https://"
            || startswith (default [] (dict_get (lit "href") attrs)) "//");
    cbn [negb mbind result_bind]; [by eexists|].
  destruct (urljoin base_url (default [] (dict_get (lit "href") attrs)));
    cbn [mbind result_bind]; [by eexists | done].
Qed.

(** C5: a node yields a link only if it is an element node with a
    non-empty [href] attribute that starts with neither [#] nor
    [javascript:] and whose lowercase form ends with no image extension,
    and a node that is not such a node yields none and does not raise.
    Such a node yields a link whose URL is its [href], resolved with
    [urljoin] unless it starts with [http://], [https://] or [//], and
    raises what [urljoin] raises.  The traversal raises exactly when such
    a node of the tree raises, and returns nothing then; when it returns,
    the links under a depth correspond one to one, in order, to such nodes
    of that depth.  A node whose [href] is [#section2] yields none. *)
Theorem link_iff_eligible base_url :
  (forall n found,
     node_link base_url n = Ok found -> (is_Some found <-> eligible n = true))
  /\ (forall n, eligible n = false -> node_link base_url n = Ok None)
  /\ (forall n,
        eligible n = true ->
        exists attrs,
          attributes n = Some attrs
          /\ let href := default [] (dict_get (lit "href") attrs) in
             match
               (if startswith href "http://" || startswith href "https://"
                   || startswith href "//"
                then Ok href
                else urljoin base_url href)
             with
             | Ok full_url =>
                 exists h,
                   node_link base_url n = Ok (Some h)
                   /\ href_url h = full_url
             | Raise e => node_link base_url n = Raise e
             end)
  /\ (forall root m d,
        bfs_traverse_dom root base_url = Ok m ->
        Forall2 (fun n h => node_link base_url n = Ok (Some h))
          (List.filter eligible (level d [root])) (get_list d m))
  /\ (forall root e,
        bfs_traverse_dom root base_url = Raise e ->
        exists d n,
          at_depth root d n /\ eligible n = true
          /\ node_link base_url n = Raise e)
  /\ (forall root d n e,
        at_depth root d n -> node_link base_url n = Raise e ->
        exists e', bfs_traverse_dom root base_url = Raise e')
  /\ (forall n attrs,
        attributes n = Some attrs ->
        dict_get (lit "href") attrs = Some (lit "#section2") ->
        eligible n = false).
Proof.
  split_and!.
  - apply node_link_eligible.
  - apply node_link_not_eligible.
  - apply node_link_of_eligible.
  - intros root m d Hrun. rewrite (bfs_traverse_dom_levels _ _ _ d Hrun).
    apply links_of_eligible. intros n Hn.
    apply (bfs_loop_links_ok _ _ _ _ Hrun d). by cbn [map fst].
  - intros root e (d & n & Hn & Hraise)%bfs_loop_raise.
    exists d, n. split_and!; [by apply level_at_depth | | done].
    destruct (eligible n) eqn:He; [done|].
    by rewrite (node_link_not_eligible _ _ He) in Hraise.
  - intros root d n e Hn Hraise.
    destruct (bfs_traverse_dom root base_url) as [m|e'] eqn:Hrun;
      [|by exists e'].
    destruct (bfs_loop_links_ok _ _ _ _ Hrun d n) as [found Hfound];
      [by apply level_at_depth|].
    by rewrite Hraise in Hfound.
  - intros n attrs Ha Hh. unfold eligible. rewrite Ha, Hh.
    by destruct (bool_decide (nodeType n = Some 1%Z)).
Qed.

(* ===================================================================== *)
(** ** Further properties of search_keyword_in_hrefs *)
(* ===================================================================== *)

Lemma dict_set_length {K V} `{EqDecision K} (k : K) (v : V) d :
  length (dict_set k v d) = if dict_mem k d then length d else S (length d).
Proof.
  unfold dict_mem. induction d as [|[k' v'] d IH]; cbn; [done|].
  case_decide; cbn; [done|]. rewrite IH. by destruct (dict_get k d).
Qed.


Lemma pool_length hrefs : length (pool hrefs) <= length hrefs.
Proof.
  induction hrefs as [|x hrefs IH] using rev_ind; [done|].
  rewrite pool_snoc, length_app. cbn [length]. unfold pool_update.
  destruct (survivor_key x); [|lia].
  destruct (match dict_get _ _ with Some _ => _ | None => _ end); [|lia].
  rewrite dict_set_length. destruct (dict_mem _ _); lia.
Qed.

(** An entry of the pool is made from a link of the level with its key. *)
Lemma pool_elem hrefs k c :
  (k, c) ∈ pool hrefs ->
  exists i h, first_longest k hrefs i h /\ c = to_candidate k h.
Proof.
  intros Hin. pose proof (pool_lookup hrefs k) as H.
  by rewrite (dict_get_elem _ _ _ (pool_wf hrefs) Hin) in H.
Qed.

Lemma pool_elem_normalized hrefs item :
  item ∈ pool hrefs -> cand_normalized_url item.2 = item.1.
Proof.
  destruct item as [k c]. intros (i & h & _ & ->)%pool_elem. done.
Qed.

Lemma analyse_match_Some keyword keyword_regex item c :
  analyse_match keyword keyword_regex item = Some c ->
  exists parsed_url,
    urlparse item.1 = Ok parsed_url
    /\ c = set_path item.2 (path parsed_url)
    /\ re_search keyword_regex (path parsed_url) = true
    /\ analyse_write keyword keyword_regex item = None.
Proof.
  unfold analyse_match.
  destruct (analyse_write keyword keyword_regex item) eqn:Hw;
    [by destruct (urlparse item.1)|].
  unfold analyse_write in Hw.
  destruct (urlparse item.1) as [p|]; [|done].
  intros [= <-]. exists p. split_and!; [done..| |done].
  by destruct (re_search keyword_regex (path p)).
Qed.

Lemma omap_cons {A B} (f : A -> option B) x l :
  omap f (x :: l) = option_list (f x) ++ omap f l.
Proof. cbn. by destruct (f x). Qed.

Lemma analyse_included_match keyword keyword_regex item :
  analyse_included keyword keyword_regex item
  = (fun _ => item.1) <$> analyse_match keyword keyword_regex item.
Proof.
  unfold analyse_included.
  by destruct (analyse_match keyword keyword_regex item).
Qed.

(** The keys the second inner loop includes are the normalized URLs of
    its matches. *)
Lemma included_matches keyword keyword_regex
    (unique_urls : pydict str candidate) :
  (forall item, item ∈ unique_urls -> cand_normalized_url item.2 = item.1) ->
  omap (analyse_included keyword keyword_regex) unique_urls
  = map cand_normalized_url
      (omap (analyse_match keyword keyword_regex) unique_urls).
Proof.
  induction unique_urls as [|item u IH]; intros Hall; [done|].
  rewrite !omap_cons, analyse_included_match.
  assert (omap (analyse_included keyword keyword_regex) u
          = map cand_normalized_url
              (omap (analyse_match keyword keyword_regex) u)) as IH'.
  { apply IH. intros x Hx. apply Hall. by apply list_elem_of_further. }
  destruct (analyse_match keyword keyword_regex item) as [c|] eqn:Hm;
    [|done].
  apply analyse_match_Some in Hm as (p & _ & -> & _).
  cbn [fmap option_fmap option_map option_list option_rect app map
       set_path cand_normalized_url].
  rewrite IH'. f_equal.
  symmetry. apply Hall, list_elem_of_here.
Qed.

Lemma included_keys keyword keyword_regex
    (unique_urls : pydict str candidate) k :
  k ∈ omap (analyse_included keyword keyword_regex) unique_urls ->
  k ∈ dict_keys unique_urls.
Proof.
  intros (item & Hitem & Hk)%list_elem_of_omap.
  rewrite analyse_included_match in Hk.
  destruct (analyse_match keyword keyword_regex item); [|done].
  injection Hk as <-. unfold dict_keys.
  apply list_elem_of_In, in_map, list_elem_of_In, Hitem.
Qed.

Lemma included_NoDup keyword keyword_regex
    (unique_urls : pydict str candidate) :
  wf_dict unique_urls ->
  NoDup (omap (analyse_included keyword keyword_regex) unique_urls).
Proof.
  unfold wf_dict, dict_keys.
  induction unique_urls as [|item u IH]; [constructor|].
  cbn [map]. intros [Hk Hu]%NoDup_cons.
  rewrite omap_cons, analyse_included_match.
  destruct (analyse_match keyword keyword_regex item);
    cbn [fmap option_fmap option_map option_list option_rect app];
    [|by apply IH].
  apply NoDup_cons. split; [|by apply IH].
  intros Hin. by apply included_keys in Hin.
Qed.

(** A level that the tables know is a level of the input. *)
Lemma levels_keys keyword keyword_regex level_hrefs st level :
  for_each (process_level keyword keyword_regex) level_hrefs ([], [], [])
  = Ok st ->
  (exists hrefs, (level, hrefs) ∈ level_hrefs)
  \/ tables_get level st = (None, None, None).
Proof.
  intros Hst.
  destruct (decide (level ∈ dict_keys level_hrefs)) as [Hin|Hout].
  - left. unfold dict_keys in Hin.
    apply list_elem_of_In, in_map_iff in Hin as ([l h] & Hl & Hin).
    cbn in Hl. subst l. exists h. by apply list_elem_of_In.
  - right. by rewrite (levels_other _ _ _ _ _ _ Hst Hout).
Qed.

Lemma search_level_keys level_hrefs keyword r level :
  search_keyword_in_hrefs level_hrefs keyword = Ok (Some r) ->
  (exists hrefs, (level, hrefs) ∈ level_hrefs)
  \/ (dict_get level (level_stats r) = None
      /\ dict_get level (all_matches r) = None
      /\ dict_get level (debug_info r) = None).
Proof.
  intros (st & Hst & _ & _ & Hn & Hsome)%search_tables.
  assert (st.1.1 ≠ []) as Hne by (intros Hnil; by specialize (Hn Hnil)).
  destruct (Hsome Hne) as (r' & [= <-] & -> & -> & ->).
  destruct (levels_keys _ _ _ _ level Hst) as [?|Hnone]; [by left|].
  right. unfold tables_get in Hnone. by injection Hnone as -> -> ->.
Qed.

(** What a result holds for a level of the input, entry by entry. *)
Lemma search_level_entries level_hrefs keyword r level hrefs :
  search_keyword_in_hrefs level_hrefs keyword = Ok (Some r) ->
  wf_dict level_hrefs -> (level, hrefs) ∈ level_hrefs ->
  dict_get level (level_stats r)
  = (if 0 <? length (pool hrefs)
     then Some (stat_of (length (pool hrefs))
                  (omap (analyse_match keyword (keyword_regex_of keyword))
                     (pool hrefs)))
     else None)
  /\ dict_get level (all_matches r)
     = match omap (analyse_match keyword (keyword_regex_of keyword))
               (pool hrefs) with
       | [] => None
       | m => Some m
       end
  /\ get_list level (all_matches r)
     = omap (analyse_match keyword (keyword_regex_of keyword)) (pool hrefs)
  /\ dict_get level (debug_info r)
     = Some {| total_urls := length hrefs;
               skipped :=
                 replay (level_writes keyword (keyword_regex_of keyword)
                           hrefs (pool hrefs)) [];
               included :=
                 omap (analyse_included keyword (keyword_regex_of keyword))
                   (pool hrefs) |}.
Proof.
  intros Hr Hwf Hin.
  destruct (search_level _ _ _ _ _ Hr Hwf Hin)
    as (sk0 & m & sk1 & inc & Hc & Ha & Hget).
  pose proof (level_skipped _ _ _ _ _ _ _ _ Hc Ha) as ->.
  apply analyse_level_Ok in Ha. injection Ha as -> _ ->.
  unfold stored in Hget. cbn -[Nat.ltb] in Hget.
  injection Hget as -> Hm ->.
  assert (dict_get level (all_matches r)
          = match omap (analyse_match keyword (keyword_regex_of keyword))
                    (pool hrefs) with
            | [] => None
            | m => Some m
            end) as Hm'.
  { rewrite Hm. destruct (pool hrefs) as [|x u]; [done|]. cbn -[omap].
    by destruct (omap _ (x :: u)). }
  unfold get_list. rewrite Hm'. split_and!; [done..| |done].
  by destruct (omap (M:=list) _ (pool hrefs)).
Qed.

Lemma length_omap_le {A B} (f : A -> option B) l :
  length (omap f l) <= length l.
Proof.
  induction l as [|x l IH]; [done|]. rewrite omap_cons, length_app.
  destruct (f x); cbn; lia.
Qed.

(** The statistics of a scored level. *)
Lemma level_stat_facts level_hrefs keyword r level st :
  search_keyword_in_hrefs level_hrefs keyword = Ok (Some r) ->
  wf_dict level_hrefs ->
  dict_get level (level_stats r) = Some st ->
  exists hrefs,
    (level, hrefs) ∈ level_hrefs
    /\ total_unique_urls st = length (pool hrefs)
    /\ 1 <= total_unique_urls st <= length hrefs
    /\ matching_urls st = length (get_list level (all_matches r))
    /\ matching_urls st <= total_unique_urls st
    /\ keyword_ratio st
       = Z.of_nat (matching_urls st) # Pos.of_nat (total_unique_urls st).
Proof.
  intros Hr Hwf Hst.
  destruct (search_level_keys _ _ _ level Hr) as [[hrefs Hin]|[Hnone _]];
    [|congruence].
  exists hrefs. split; [done|].
  destruct (search_level_entries _ _ _ _ _ Hr Hwf Hin)
    as (Hs & _ & Hm & _).
  rewrite Hst in Hs. rewrite Hm.
  pose proof (pool_length hrefs) as Hlen.
  pose proof (length_omap_le
                (analyse_match keyword (keyword_regex_of keyword))
                (pool hrefs)) as Hle.
  destruct (0 <? length (pool hrefs)) eqn:Hpos; [|done].
  apply Nat.ltb_lt in Hpos. injection Hs as ->.
  cbn [stat_of total_unique_urls matching_urls keyword_ratio].
  split_and!; (done || lia).
Qed.

Lemma ratio_bounds a b : a <= b -> 1 <= b ->
  (0 <= Z.of_nat a # Pos.of_nat b <= 1)%Q.
Proof.
  intros Hab Hb. unfold Qle. cbn [Qnum Qden]. split; [lia|].
  assert (Z.pos (Pos.of_nat b) = Z.of_nat b) as -> by lia. lia.
Qed.

(** The choice of the level in a result. *)
Lemma search_selected level_hrefs keyword r :
  search_keyword_in_hrefs level_hrefs keyword = Ok (Some r) ->
  (exists st, dict_get (target_level r) (level_stats r) = Some st
     /\ (keyword_ratio st == highest_ratio r)%Q)
  /\ (forall l st, dict_get l (level_stats r) = Some st ->
        (keyword_ratio st <= highest_ratio r)%Q)
  /\ (forall l st, dict_get l (level_stats r) = Some st ->
        (keyword_ratio st == highest_ratio r)%Q -> target_level r <= l)
  /\ best_matches r = get_list (target_level r) (all_matches r).
Proof.
  intros (st & _ & Hwf & Hsel & Hnil & _)%search_tables.
  destruct st as [[ls lm] ld]. cbn in Hnil.
  destruct (decide (ls = [])) as [->|Hne]; [by specialize (Hnil eq_refl)|].
  destruct (select_level_spec ls lm ld Hne) as (r' & Hr' & E1 & E2 & _ & H);
    [apply Hwf|].
  pose proof (eq_trans (eq_sym Hsel) Hr') as [= ->].
  unfold get_list. rewrite E1, E2. destruct H as (? & ? & ? & ?).
  by split_and!.
Qed.

(** X1: the statistics of every scored level are those of its pool: at least
    one candidate and at most as many as the level has links, as many
    matching URLs as the level has matches, never more matches than
    candidates, and their quotient, between 0 and 1, as ratio. *)
Theorem level_statistics_are_consistent level_hrefs keyword r level st :
  search_keyword_in_hrefs level_hrefs keyword = Ok (Some r) ->
  wf_dict level_hrefs ->
  dict_get level (level_stats r) = Some st ->
  exists hrefs,
    (level, hrefs) ∈ level_hrefs
    /\ total_unique_urls st = length (pool hrefs)
    /\ 1 <= total_unique_urls st <= length hrefs
    /\ matching_urls st = length (get_list level (all_matches r))
    /\ matching_urls st <= total_unique_urls st
    /\ keyword_ratio st
       = Z.of_nat (matching_urls st) # Pos.of_nat (total_unique_urls st)
    /\ (0 <= keyword_ratio st <= 1)%Q.
Proof.
  intros Hr Hwf Hst.
  destruct (level_stat_facts _ _ _ _ _ Hr Hwf Hst)
    as (hrefs & Hin & Htot & Hbound & Hm & Hle & Hratio).
  exists hrefs. split_and!; try done; try lia.
  all: rewrite Hratio; apply ratio_bounds; lia.
Qed.

(** A match of a level is made from a link of the level that passed the
    exclusions, and the keyword is in the path of its normalized URL
    without being its only segment. *)
Lemma match_origin level_hrefs keyword r level hrefs c :
  search_keyword_in_hrefs level_hrefs keyword = Ok (Some r) ->
  wf_dict level_hrefs -> (level, hrefs) ∈ level_hrefs ->
  c ∈ get_list level (all_matches r) ->
  exists h parsed_url,
    h ∈ hrefs
    /\ survivor_key h = Some (cand_normalized_url c)
    /\ urlparse (cand_normalized_url c) = Ok parsed_url
    /\ c = set_path (to_candidate (cand_normalized_url c) h)
             (path parsed_url)
    /\ re_search (keyword_regex_of keyword) (path parsed_url) = true
    /\ let path_segments :=
         List.filter nonempty (split "/" (path parsed_url)) in
       (length path_segments =? 1)
       && re_fullmatch (keyword_regex_of keyword)
            (default [] (head path_segments)) = false.
Proof.
  intros Hr Hwf Hin.
  destruct (search_level_entries _ _ _ _ _ Hr Hwf Hin)
    as (_ & _ & -> & _).
  intros (item & Hitem & Hc)%list_elem_of_omap.
  apply analyse_match_Some in Hc as (p & Hp & -> & Hsearch & Hw).
  pose proof (pool_elem_normalized _ _ Hitem) as Hn.
  destruct item as [k c0]. cbn [fst snd] in *.
  apply pool_elem in Hitem as (i & h & (Hi & Hk & _) & ->).
  cbn [set_path cand_normalized_url to_candidate].
  exists h, p. split_and!; try done.
  - by apply list_elem_of_lookup_2 in Hi.
  - unfold analyse_write in Hw. cbn [fst] in Hw. rewrite Hp, Hsearch in Hw.
    cbn [negb] in Hw. cbn zeta in *.
    by destruct (_ && _).
Qed.

(** X2: every match of a level is the pool entry of a link of that level
    that passed the exclusions, with the path of its normalized URL set; the
    keyword occurs in that path and is not its only segment.  No two matches
    of a level have the same normalized URL, and [included] lists the
    normalized URLs of the matches in order. *)
Theorem matches_come_from_surviving_links
    level_hrefs keyword r level hrefs :
  search_keyword_in_hrefs level_hrefs keyword = Ok (Some r) ->
  wf_dict level_hrefs -> (level, hrefs) ∈ level_hrefs ->
  (forall c, c ∈ get_list level (all_matches r) ->
     exists h parsed_url,
       h ∈ hrefs
       /\ survivor_key h = Some (cand_normalized_url c)
       /\ urlparse (cand_normalized_url c) = Ok parsed_url
       /\ c = set_path (to_candidate (cand_normalized_url c) h)
                (path parsed_url)
       /\ re_search (keyword_regex_of keyword) (path parsed_url) = true
       /\ let path_segments :=
            List.filter nonempty (split "/" (path parsed_url)) in
          (length path_segments =? 1)
          && re_fullmatch (keyword_regex_of keyword)
               (default [] (head path_segments)) = false)
  /\ NoDup (map cand_normalized_url (get_list level (all_matches r)))
  /\ exists dbg,
       dict_get level (debug_info r) = Some dbg
       /\ total_urls dbg = length hrefs
       /\ included dbg
          = map cand_normalized_url (get_list level (all_matches r)).
Proof.
  intros Hr Hwf Hin.
  split; [intros c; by apply (match_origin _ _ _ _ _ _ Hr Hwf Hin)|].
  destruct (search_level_entries _ _ _ _ _ Hr Hwf Hin)
    as (_ & _ & -> & Hdbg).
  pose proof (included_matches keyword (keyword_regex_of keyword)
                (pool hrefs) (pool_elem_normalized hrefs)) as Hinc.
  split.
  - rewrite <- Hinc. apply included_NoDup, pool_wf.
  - eexists. split; [exact Hdbg|]. by split.
Qed.


Lemma for_each_Raise_elem {A S} (body : S -> A -> result S) l s e :
  for_each body l s = Raise e ->
  exists x s', x ∈ l /\ body s' x = Raise e.
Proof.
  revert s. induction l as [|x l IH]; intros s; cbn; [done|].
  intros [H|(s' & _ & H)]%bind_Raise.
  - exists x, s. split; [apply list_elem_of_here | done].
  - destruct (IH _ H) as (y & s0 & Hy & Hb). exists y, s0.
    split; [by apply list_elem_of_further | done].
Qed.

Lemma for_each_Ok_elem {A S} (body : S -> A -> result S) l s s' x :
  for_each body l s = Ok s' -> x ∈ l ->
  exists s0 s1, body s0 x = Ok s1.
Proof.
  revert s. induction l as [|y l IH]; intros s; cbn.
  - by intros _ ?%elem_of_nil.
  - intros (s1 & H1 & Hrest)%bind_Ok [->|Hx]%elem_of_cons; [by eauto|].
    by eapply IH.
Qed.

Lemma for_each_total {A S} (body : S -> A -> result S) l :
  (forall s x, x ∈ l -> exists s', body s x = Ok s') ->
  forall s, exists s', for_each body l s = Ok s'.
Proof.
  induction l as [|x l IH]; intros Hall s; cbn; [by eauto|].
  destruct (Hall s x (list_elem_of_here _ _)) as [s1 ->]. cbn.
  apply IH. intros s0 y Hy. apply Hall. by apply list_elem_of_further.
Qed.

(** The two inner loops ran to the end for every level of a run of the
    outer loop. *)
Lemma levels_processed keyword keyword_regex level_hrefs st st' level hrefs :
  for_each (process_level keyword keyword_regex) level_hrefs st = Ok st' ->
  (level, hrefs) ∈ level_hrefs ->
  exists unique_urls skipped analysed,
    collect_level hrefs = Ok (unique_urls, skipped)
    /\ analyse_level keyword keyword_regex unique_urls skipped = Ok analysed.
Proof.
  intros Hst Hin.
  destruct (for_each_Ok_elem _ _ _ _ _ Hst Hin) as (s0 & s1 & H).
  apply process_level_Ok in H as (u & sk & an & ? & ? & _). eauto.
Qed.

Lemma levels_total keyword keyword_regex level_hrefs :
  (forall level hrefs, (level, hrefs) ∈ level_hrefs ->
     exists unique_urls skipped analysed,
       collect_level hrefs = Ok (unique_urls, skipped)
       /\ analyse_level keyword keyword_regex unique_urls skipped
          = Ok analysed) ->
  forall st, exists st',
    for_each (process_level keyword keyword_regex) level_hrefs st = Ok st'.
Proof.
  intros Hall. apply for_each_total. intros s [level hrefs] Hin.
  destruct (Hall _ _ Hin) as (u & sk & an & Hc & Ha).
  eexists. apply process_level_Ok. by exists u, sk, an.
Qed.

Lemma analyse_level_parses keyword keyword_regex unique_urls skipped st item :
  analyse_level keyword keyword_regex unique_urls skipped = Ok st ->
  item ∈ unique_urls ->
  exists parsed_url, urlparse item.1 = Ok parsed_url.
Proof.
  unfold analyse_level. intros Hst Hin.
  destruct (for_each_Ok_elem _ _ _ _ _ Hst Hin) as ([[m sk] inc] & s1 & H).
  unfold analyse_url in H. destruct item as [k c]. cbn [fst].
  destruct (urlparse k) as [p|]; [by exists p | done].
Qed.

(** The end of the function does not raise. *)
Lemma select_level_no_raise keyword keyword_regex level_hrefs st e :
  for_each (process_level keyword keyword_regex) level_hrefs ([], [], [])
  = Ok st ->
  select_level st ≠ Raise e.
Proof.
  intros Hst Hsel. destruct st as [[ls lm] ld].
  destruct (decide (ls = [])) as [->|Hne]; [done|].
  destruct (select_level_spec ls lm ld) as (r & Hr & _); [done| |].
  - apply (levels_wf _ _ _ _ _ Hst). repeat split; apply NoDup_nil_2.
  - by pose proof (eq_trans (eq_sym Hsel) Hr).
Qed.

(** X4: the function raises exactly when, at some level, the URL of a link
    that is not a share link, or the normalized URL of a candidate, does
    not parse; whether it raises does not depend on the keyword. *)
Theorem rank_raises_exactly_on_unparsable level_hrefs keyword :
  (exists e, search_keyword_in_hrefs level_hrefs keyword = Raise e)
  <-> exists level hrefs,
        (level, hrefs) ∈ level_hrefs
        /\ ((exists h e,
               h ∈ hrefs /\ is_share_link (href_url h) = false
               /\ urlparse (href_url h) = Raise e)
            \/ (exists k e,
                  k ∈ dict_keys (pool hrefs) /\ urlparse k = Raise e)).
Proof.
  rewrite search_unfold. split.
  - intros [e [H|(st & Hst & Hsel)]%bind_Raise];
      [|by destruct (select_level_no_raise _ _ _ _ e Hst)].
    apply for_each_Raise_elem in H as ([level hrefs] & st0 & Hin & H).
    exists level, hrefs. split; [done|].
    destruct (collect_level hrefs) as [[u sk]|e1] eqn:Hc.
    + right. pose proof (collect_level_pool _ _ _ Hc) as ->.
      destruct (analyse_level keyword (keyword_regex_of keyword)
                  (pool hrefs) sk) as [an|e2] eqn:Ha.
      * assert (exists st', process_level keyword (keyword_regex_of keyword)
                              st0 (level, hrefs) = Ok st') as [st' Hst'].
        { eexists. apply process_level_Ok. by exists (pool hrefs), sk, an. }
        congruence.
      * unfold analyse_level in Ha.
        apply for_each_Raise_elem in Ha as (item & s' & Hitem & Hraise).
        apply analyse_url_Raise in Hraise. exists item.1, e2.
        split; [|done]. unfold dict_keys.
        by apply list_elem_of_In, in_map, list_elem_of_In.
    + left. unfold collect_level in Hc.
      apply for_each_Raise_elem in Hc as (h & s' & Hh & Hraise).
      apply collect_href_Raise in Hraise as [Hshare Hp]. by exists h, e1.
  - intros (level & hrefs & Hin & Hbad).
    destruct (for_each _ level_hrefs _) as [st|e] eqn:Hst;
      [|by exists e].
    exfalso.
    destruct (levels_processed _ _ _ _ _ _ _ Hst Hin)
      as (u & sk & an & Hc & Ha).
    destruct Hbad as [(h & e & Hh & Hshare & Hp)|(k & e & Hk & Hp)].
    + destruct (collect_level_parses _ _ _ Hc Hh Hshare) as [p Hp'].
      congruence.
    + pose proof (collect_level_pool _ _ _ Hc) as ->.
      unfold dict_keys in Hk.
      apply list_elem_of_In, in_map_iff in Hk as (item & <- & Hitem).
      apply list_elem_of_In in Hitem.
      destruct (analyse_level_parses _ _ _ _ _ _ Ha Hitem) as [p Hp'].
      congruence.
Qed.

Lemma wf_dict_perm {K V} (d d' : pydict K V) :
  d ≡ₚ d' -> wf_dict d -> wf_dict d'.
Proof.
  unfold wf_dict, dict_keys. intros Hperm.
  by rewrite (Permutation_map fst Hperm).
Qed.

(** The tables of two runs of the outer loop over the same levels, taken
    in two orders, hold the same entries. *)
Lemma levels_tables_perm keyword keyword_regex level_hrefs level_hrefs'
    st st' level :
  level_hrefs ≡ₚ level_hrefs' -> wf_dict level_hrefs ->
  for_each (process_level keyword keyword_regex) level_hrefs ([], [], [])
  = Ok st ->
  for_each (process_level keyword keyword_regex) level_hrefs' ([], [], [])
  = Ok st' ->
  tables_get level st' = tables_get level st.
Proof.
  intros Hperm Hwf Hst Hst'.
  pose proof (wf_dict_perm _ _ Hperm Hwf) as Hwf'.
  assert (forall hrefs, (level, hrefs) ∈ level_hrefs ->
            tables_get level st' = tables_get level st) as Hboth.
  { intros hrefs Hin.
    assert ((level, hrefs) ∈ level_hrefs') as Hin' by by rewrite <- Hperm.
    destruct (levels_lookup _ _ _ _ _ _ _ Hst Hwf Hin)
      as (u & sk & an & Hc & Ha & ->).
    destruct (levels_lookup _ _ _ _ _ _ _ Hst' Hwf' Hin')
      as (u' & sk' & an' & Hc' & Ha' & ->).
    rewrite Hc in Hc'. injection Hc' as <- <-.
    rewrite Ha in Ha'. by injection Ha' as <-. }
  destruct (levels_keys _ _ _ _ level Hst) as [[hrefs Hin]|Hnone];
    [by eapply Hboth|].
  destruct (levels_keys _ _ _ _ level Hst') as [[hrefs Hin']|Hnone'];
    [|congruence].
  apply (Hboth hrefs). by rewrite Hperm.
Qed.

(** X5: the result does not depend on the order in which the mapping holds
    its levels: with the same levels in another order the function returns
    a result with the same level, the same highest ratio, the same best
    matches, and the same statistics, matches and debug record for every
    level. *)
Theorem level_order_is_irrelevant level_hrefs level_hrefs' keyword r :
  level_hrefs ≡ₚ level_hrefs' -> wf_dict level_hrefs ->
  search_keyword_in_hrefs level_hrefs keyword = Ok (Some r) ->
  exists r',
    search_keyword_in_hrefs level_hrefs' keyword = Ok (Some r')
    /\ target_level r' = target_level r
    /\ (highest_ratio r' == highest_ratio r)%Q
    /\ best_matches r' = best_matches r
    /\ forall l,
         dict_get l (level_stats r') = dict_get l (level_stats r)
         /\ dict_get l (all_matches r') = dict_get l (all_matches r)
         /\ dict_get l (debug_info r') = dict_get l (debug_info r).
Proof.
  intros Hperm Hwf Hr.
  pose proof Hr as (st & Hst & Hwfst & _ & Hn & Hsome)%search_tables.
  assert (st.1.1 ≠ []) as Hne by (intros Hnil; by specialize (Hn Hnil)).
  destruct (Hsome Hne) as (r0 & [= <-] & Es & Em & Ed).
  destruct (levels_total keyword (keyword_regex_of keyword) level_hrefs')
    with (st := ([], [], []) : tables) as [st' Hst'].
  { intros level hrefs Hin. apply (levels_processed _ _ _ _ _ level _ Hst).
    by rewrite Hperm. }
  assert (forall l, tables_get l st' = tables_get l st) as Hget.
  { intros l. by eapply levels_tables_perm. }
  assert (st'.1.1 ≠ []) as Hne'.
  { intros Hnil. destruct st.1.1 as [|[l s] ls] eqn:Els; [done|].
    specialize (Hget l). unfold tables_get in Hget.
    rewrite Hnil, Els in Hget. cbn in Hget.
    by rewrite decide_True in Hget. }
  assert (wf_tables st') as Hwfst'.
  { eapply levels_wf; [done|]. repeat split; apply NoDup_nil_2. }
  destruct st' as [[ls' lm'] ld']. cbn [fst snd] in Hne'.
  destruct (select_level_spec ls' lm' ld' Hne')
    as (r' & Hr' & Es' & Em' & Ed' & _);
    [apply Hwfst'|].
  assert (search_keyword_in_hrefs level_hrefs' keyword = Ok (Some r'))
    as Hsearch'.
  { rewrite search_unfold, Hst'. exact Hr'. }
  assert (forall l,
            dict_get l (level_stats r') = dict_get l (level_stats r)
            /\ dict_get l (all_matches r') = dict_get l (all_matches r)
            /\ dict_get l (debug_info r') = dict_get l (debug_info r))
    as Hsame.
  { intros l. specialize (Hget l). unfold tables_get in Hget.
    cbn [fst snd] in Hget. rewrite Es, Em, Ed, Es', Em', Ed'.
    by injection Hget as -> -> ->. }
  destruct (search_selected _ _ _ Hr)
    as ((s & Hs & Heq) & Hmax & Hmin & Hb).
  destruct (search_selected _ _ _ Hsearch')
    as ((s' & Hs' & Heq') & Hmax' & Hmin' & Hb').
  assert (highest_ratio r' == highest_ratio r)%Q as Hhigh.
  { apply Qle_antisym.
    - rewrite <- Heq'. apply (Hmax (target_level r')).
      by rewrite <- (proj1 (Hsame _)).
    - rewrite <- Heq. apply (Hmax' (target_level r)).
      by rewrite (proj1 (Hsame _)). }
  assert (target_level r' = target_level r) as Htarget.
  { apply Nat.le_antisymm.
    - apply (Hmin' _ s); [by rewrite (proj1 (Hsame _))|].
      by rewrite Heq, Hhigh.
    - apply (Hmin _ s'); [by rewrite <- (proj1 (Hsame _))|].
      by rewrite Heq', Hhigh. }
  exists r'. split_and!; try done.
  rewrite Hb, Hb', Htarget. unfold get_list.
  by rewrite (proj1 (proj2 (Hsame _))).
Qed.

(* ===================================================================== *)
(** ** Searching for the keyword *)
(* ===================================================================== *)





(** With the empty keyword the pattern is two word boundaries. *)
Lemma search_from_empty_keyword prev rest :
  search_from (keyword_regex_of []) prev rest
  = word_before prev || existsb is_word rest.
Proof.
  revert prev. induction rest as [|x rest IH]; intros prev.
  - cbn [search_from keyword_regex_of keyword_ops ops ignorecase map app
         match_here existsb].
    rewrite at_boundary_end, orb_false_r. by destruct (word_before prev).
  - cbn [search_from keyword_regex_of keyword_ops ops ignorecase map app
         match_here existsb].
    assert (at_ok AT_BOUNDARY prev (x :: rest)
            = xorb (word_before prev) (is_word x)) as ->.
    { by destruct prev. }
    fold (keyword_ops []). fold (keyword_regex_of []).
    destruct (word_before prev), (is_word x) eqn:Hx; cbn [xorb orb];
      try done; rewrite IH; cbn [word_before]; by rewrite Hx.
Qed.

(** X7: the empty keyword is not rejected: its pattern is found in every
    path that has a word character and is never the whole of a segment, so
    every candidate whose path has a letter, a digit or an underscore is a
    match, and the others are logged as lacking the keyword. *)
Theorem empty_keyword_matches_word_paths :
  compile_keyword [] = Ok (keyword_regex_of [])
  /\ (forall s, re_search (keyword_regex_of []) s = existsb is_word s)
  /\ (forall s, re_fullmatch (keyword_regex_of []) s = false)
  /\ forall matching_items skipped0 included0 norm_url href_data parsed_url,
       urlparse norm_url = Ok parsed_url ->
       analyse_url [] (keyword_regex_of [])
         (matching_items, skipped0, included0) (norm_url, href_data)
       = Ok (if existsb is_word (path parsed_url)
             then (matching_items ++ [set_path href_data (path parsed_url)],
                   skipped0, included0 ++ [norm_url])
             else (matching_items,
                   dict_set norm_url (lit "Keyword '' not in URL path")
                     skipped0,
                   included0)).
Proof.
  assert (forall s, re_search (keyword_regex_of []) s = existsb is_word s)
    as Hsearch.
  { intros s. unfold re_search. by rewrite search_from_empty_keyword. }
  assert (forall s, re_fullmatch (keyword_regex_of []) s = false) as Hfull.
  { intros s. unfold re_fullmatch.
    cbn [keyword_regex_of keyword_ops ops ignorecase map app match_here].
    destruct (at_ok AT_BOUNDARY None s) eqn:Hb; [|done].
    destruct s as [|x s]; [done|]. done. }
  split_and!; [apply compile_keyword_ops | done | done |].
  intros m sk inc norm_url href_data p Hp. unfold analyse_url.
  rewrite Hp. cbn [mbind result_bind]. rewrite Hsearch, Hfull, andb_false_r.
  by destruct (existsb is_word (path p)).
Qed.

(* ===================================================================== *)
(** ** Fragments and queries *)
(* ===================================================================== *)

Lemma has_char_elem c s : has_char c s = true <-> c ∈ s.
Proof.
  induction s as [|d s IH]; [by rewrite elem_of_nil|].
  rewrite has_char_cons, orb_true_iff, IH, elem_of_cons.
  destruct (Ascii.eqb_spec d c); split; intros [?|?]; auto; congruence.
Qed.

Lemma has_char_sublist c s s' :
  s `sublist_of` s' -> has_char c s = true -> has_char c s' = true.
Proof. rewrite !has_char_elem. eauto using elem_of_sublist. Qed.

Lemma lstrip_sublist strip s : lstrip strip s `sublist_of` s.
Proof.
  induction s as [|c s IH]; cbn; [done|].
  destruct (strip c); [by apply sublist_cons | done].
Qed.

Lemma List_filter_sublist {A} (f : A -> bool) l :
  List.filter f l `sublist_of` l.
Proof.
  induction l as [|x l IH]; cbn; [done|].
  destruct (f x); [by apply sublist_skip | by apply sublist_cons].
Qed.

Lemma split_scheme_snd url : (split_scheme url).2 `sublist_of` url.
Proof.
  unfold split_scheme. destruct (find ":" url) as [i|]; [|done].
  destruct (_ && _); [apply sublist_drop | done].
Qed.

Lemma split_netloc_snd url netloc rest :
  split_netloc url = Ok (netloc, rest) -> rest `sublist_of` url.
Proof.
  unfold split_netloc, splitnetloc.
  destruct (startswith url "//"); [|by intros [= _ <-]].
  set (delim := fold_left _ _ _).
  repeat (match goal with
          | |- context [if ?x then _ else _] => destruct x
          end); try done.
  intros [= _ <-]. apply sublist_drop.
Qed.

Lemma split_once_sublist c s : (split_once c s).1 `sublist_of` s.
Proof.
  unfold split_once. destruct (find c s); [apply sublist_take | done].
Qed.

Lemma split_fragment_fst url : has_char "#" (split_fragment url).1 = false.
Proof.
  unfold split_fragment. destruct (has_char "#" url) eqn:H; [|done].
  apply split_once_fst.
Qed.

Lemma split_fragment_sublist url : (split_fragment url).1 `sublist_of` url.
Proof.
  unfold split_fragment. destruct (has_char "#" url); [|done].
  apply split_once_sublist.
Qed.

Lemma split_query_sublist url : (split_query url).1 `sublist_of` url.
Proof.
  unfold split_query. destruct (has_char "?" url); [|done].
  apply split_once_sublist.
Qed.

Lemma scheme_char_lower_hash c :
  scheme_char c = true -> char_lower c ≠ "#"%char.
Proof. each_char c; vm_compute; congruence. Qed.

Lemma split_scheme_no_hash url : has_char "#" (split_scheme url).1 = false.
Proof.
  unfold split_scheme. destruct (find ":" url) as [i|]; [|done].
  destruct (_ && forallb scheme_char (take i url)) eqn:H; [|done].
  apply andb_true_iff in H as [_ H]. cbn [fst].
  induction (take i url) as [|c s IH]; [done|]. cbn in H.
  apply andb_true_iff in H as [Hc Hs].
  change (lower (c :: s)) with (char_lower c :: lower s).
  rewrite has_char_cons. rewrite (IH Hs), orb_false_r.
  apply Ascii.eqb_neq. by apply scheme_char_lower_hash.
Qed.

Lemma splitnetloc_no_hash url start :
  has_char "#" (splitnetloc url start).1 = false.
Proof.
  unfold splitnetloc. cbn [fst fold_left lit list_ascii_of_string].
  set (d2 := match find_from "?" url start with
             | Some wdelim => Nat.min _ wdelim
             | None => _
             end).
  destruct (find "#" (drop start url)) as [j|] eqn:Hj.
  - unfold find_from. rewrite Hj. cbn [fmap option_fmap option_map].
    apply (find_Some_take _ _ j); [done | lia].
  - by apply has_char_take, find_None.
Qed.

Lemma split_netloc_no_hash url netloc rest :
  split_netloc url = Ok (netloc, rest) -> has_char "#" netloc = false.
Proof.
  unfold split_netloc. destruct (startswith url "//"); [|by intros [= <- _]].
  pose proof (splitnetloc_no_hash url 2) as H.
  destruct (splitnetloc url 2) as [n r].
  by repeat (match goal with
             | |- context [if ?x then _ else _] => destruct x
             end); intros [= <- _].
Qed.

Lemma has_char_sublist_false c s s' :
  s `sublist_of` s' -> has_char c s' = false -> has_char c s = false.
Proof.
  intros Hsub Hs'. destruct (has_char c s) eqn:Hs; [|done].
  by rewrite (has_char_sublist _ _ _ Hsub Hs) in Hs'.
Qed.

(** The parts of a URL, as [urlparse] cuts them. *)
Lemma urlparse_parts url parsed_url :
  urlparse url = Ok parsed_url ->
  exists u1 u2,
    u1 `sublist_of` url
    /\ split_netloc u1 = Ok (netloc parsed_url, u2)
    /\ has_char "#" (scheme parsed_url) = false
    /\ fragment parsed_url = (split_fragment u2).2
    /\ query parsed_url = (split_query (split_fragment u2).1).2
    /\ path parsed_url `sublist_of` (split_query (split_fragment u2).1).1.
Proof.
  unfold urlparse, urlsplit.
  set (u := List.filter _ _).
  assert (u `sublist_of` url) as Hu.
  { etrans; [apply List_filter_sublist | apply lstrip_sublist]. }
  pose proof (split_scheme_snd u) as Hs1.
  pose proof (split_scheme_no_hash u) as Hs2.
  destruct (split_scheme u) as [sch u1]. cbn [fst snd] in Hs1, Hs2.
  destruct (split_netloc u1) as [[n u2]|] eqn:Hn; cbn; [|done].
  destruct (split_fragment u2) as [u3 fr] eqn:Hf.
  destruct (split_query u3) as [u4 q] eqn:Hq.
  cbn [mbind result_bind].
  destruct (splitparams_fst u4) as [k Hk].
  intros Hp. exists u1, u2. rewrite Hf. cbn [fst snd]. rewrite Hq.
  cbn [fst snd].
  destruct (bool_decide (sch ∈ uses_params) && has_char ";" u4).
  - destruct (splitparams u4) as [u5 pa]. cbn [fst] in Hk. subst u5.
    injection Hp as <-. cbn [scheme netloc path fragment query].
    split_and!; try done; [by etrans | apply sublist_take].
  - injection Hp as <-. cbn [scheme netloc path fragment query].
    split_and!; try done. by etrans.
Qed.

(** The key under which a URL enters the pool has no number sign. *)
Lemma normalize_no_hash url parsed_url :
  urlparse url = Ok parsed_url -> has_char "#" (normalize parsed_url) = false.
Proof.
  intros (u1 & u2 & _ & Hn & Hs & _ & _ & Hp)%urlparse_parts.
  unfold normalize. rewrite !has_char_app, Hs.
  rewrite (split_netloc_no_hash _ _ _ Hn). cbn [orb].
  change (has_char "#" (lit "://")) with false. cbn [orb].
  eapply has_char_sublist_false; [exact Hp|].
  eapply has_char_sublist_false; [apply split_query_sublist|].
  apply split_fragment_fst.
Qed.

(** A URL with a fragment has a number sign, one with a query a question
    mark. *)
Lemma fragment_or_query_mark url parsed_url :
  urlparse url = Ok parsed_url ->
  nonempty (fragment parsed_url) || nonempty (query parsed_url) = true ->
  has_char "#" url || has_char "?" url = true.
Proof.
  intros (u1 & u2 & Hu1 & Hn & _ & -> & -> & _)%urlparse_parts.
  apply split_netloc_snd in Hn.
  assert (u2 `sublist_of` url) as Hu2 by by etrans.
  intros [Hf|Hq]%orb_true_iff; apply orb_true_iff.
  - left. apply (has_char_sublist _ _ _ Hu2).
    unfold split_fragment in Hf. by destruct (has_char "#" u2).
  - right. unfold split_query in Hq.
    destruct (has_char "?" (split_fragment u2).1) eqn:Hq'; [|done].
    apply (has_char_sublist _ _ _ Hu2).
    apply (has_char_sublist _ _ _ (split_fragment_sublist u2) Hq').
Qed.

Lemma pool_keys_no_mark hrefs k :
  k ∈ dict_keys (pool hrefs) -> has_char "#" k || has_char "?" k = false.
Proof.
  intros Hk. rewrite (pool_keys_no_query _ _ Hk), orb_false_r.
  pose proof (pool_lookup hrefs k) as H.
  destruct (dict_get k (pool hrefs)) as [c|] eqn:Hget;
    [|by apply dict_get_None in Hget].
  destruct H as (i & h & (_ & Hkey & _) & _).
  unfold survivor_key in Hkey.
  destruct (is_share_link (href_url h)); [done|].
  destruct (urlparse (href_url h)) as [p|] eqn:Hp; [|done].
  destruct (nonempty (fragment p) || nonempty (query p)); [done|].
  injection Hkey as <-. by apply (normalize_no_hash (href_url h)).
Qed.

Lemma last_write_unique url ws reason :
  (url, reason) ∈ ws ->
  (forall reason', (url, reason') ∈ ws -> reason' = reason) ->
  last_write url ws = Some reason.
Proof.
  intros Hin Hall. destruct (last_write url ws) as [r'|] eqn:Hl.
  - apply last_write_elem in Hl. by rewrite (Hall _ Hl).
  - pose proof (proj1 (last_write_None _ _) Hl _ Hin) as Hne. by destruct Hne.
Qed.

(** The entry that the log of a level holds for a URL with a number sign
    or a question mark is the one the first inner loop writes for it. *)
Lemma marked_url_last_write keyword keyword_regex hrefs h w :
  h ∈ hrefs -> collect_write h = Some w ->
  has_char "#" (href_url h) || has_char "?" (href_url h) = true ->
  last_write (href_url h)
    (level_writes keyword keyword_regex hrefs (pool hrefs))
  = Some w.2.
Proof.
  intros Hin Hw Hmark. unfold level_writes. rewrite last_write_app.
  assert (last_write (href_url h)
            (omap (analyse_write keyword keyword_regex) (pool hrefs)) = None)
    as ->.
  { apply last_write_None. intros w' (item & Hitem & Hw')%list_elem_of_omap Hu.
    apply analyse_write_url in Hw'.
    assert (has_char "#" item.1 || has_char "?" item.1 = false) as Hno.
    { apply (pool_keys_no_mark hrefs). unfold dict_keys.
      by apply list_elem_of_In, in_map, list_elem_of_In. }
    congruence. }
  pose proof (collect_write_url _ _ Hw) as Hu. destruct w as [u reason].
  cbn [fst snd] in *. subst u.
  apply last_write_unique.
  - apply list_elem_of_omap. by exists h.
  - intros reason' (h' & _ & Hw')%list_elem_of_omap.
    pose proof (collect_write_url _ _ Hw') as Hu'. cbn [fst] in Hu'.
    unfold collect_write in Hw, Hw'. rewrite <- Hu' in Hw'.
    rewrite Hw in Hw'. by injection Hw' as ->.
Qed.

(** X8: a link that is not a share link and whose URL has a fragment or a
    query is never a candidate: the log of its level holds, under its URL,
    the reason made from its fragment and query, and no entry of the pool
    and no match of the level has its URL. *)
Theorem fragment_and_query_links_are_logged
    level_hrefs keyword r level hrefs h parsed_url :
  search_keyword_in_hrefs level_hrefs keyword = Ok (Some r) ->
  wf_dict level_hrefs -> (level, hrefs) ∈ level_hrefs -> h ∈ hrefs ->
  is_share_link (href_url h) = false ->
  urlparse (href_url h) = Ok parsed_url ->
  nonempty (fragment parsed_url) || nonempty (query parsed_url) = true ->
  (exists dbg,
     dict_get level (debug_info r) = Some dbg
     /\ dict_get (href_url h) (skipped dbg)
        = Some (anchor_query_reason parsed_url))
  /\ (forall item, item ∈ pool hrefs -> cand_url item.2 ≠ href_url h)
  /\ (forall c, c ∈ get_list level (all_matches r) ->
        cand_url c ≠ href_url h).
Proof.
  intros Hr Hwf Hin Hh Hshare Hp Hfq.
  destruct (search_level_entries _ _ _ _ _ Hr Hwf Hin)
    as (_ & _ & Hm & Hdbg).
  assert (forall item, item ∈ pool hrefs -> cand_url item.2 ≠ href_url h)
    as Hpool.
  { intros [k c] (i & h' & (_ & Hk & _) & ->)%pool_elem Hurl.
    cbn [snd to_candidate cand_url] in Hurl.
    unfold survivor_key in Hk. rewrite Hurl, Hshare, Hp, Hfq in Hk. done. }
  split_and!; [|done|].
  - eexists. split; [exact Hdbg|]. cbn [skipped]. rewrite replay_lookup.
    rewrite (marked_url_last_write _ _ _ h
               (href_url h, anchor_query_reason parsed_url)); [done..| |].
    + unfold collect_write. by rewrite Hshare, Hp, Hfq.
    + by apply (fragment_or_query_mark _ parsed_url).
  - rewrite Hm. intros c (item & Hitem & Hc)%list_elem_of_omap.
    apply analyse_match_Some in Hc as (p & _ & -> & _).
    cbn [set_path cand_url]. by apply Hpool.
Qed.

(* ===================================================================== *)
(** ** Further properties of bfs_traverse_dom *)
(* ===================================================================== *)

Lemma StronglySorted_lt_NoDup (l : list nat) : StronglySorted lt l -> NoDup l.
Proof.
  induction 1 as [|x l Hl IH Hx]; [constructor|].
  apply NoDup_cons. split; [|done]. intros Hin.
  rewrite Forall_forall in Hx. specialize (Hx x Hin). lia.
Qed.

Lemma dict_append_keys_sorted l h (acc : pydict nat (list href)) :
  StronglySorted lt (dict_keys acc) ->
  Forall (fun k => k <= l) (dict_keys acc) ->
  StronglySorted lt (dict_keys (dict_append l h acc))
  /\ Forall (fun k => k <= l) (dict_keys (dict_append l h acc)).
Proof.
  intros Hsorted Hle. unfold dict_append. rewrite dict_keys_set.
  unfold dict_mem. destruct (dict_get l acc) eqn:Hget; [by split|].
  apply dict_get_None in Hget. split.
  - apply StronglySorted_app. split_and!; [|done|repeat constructor].
    intros k1 k2 Hk1 Hk2%list_elem_of_singleton. subst k2.
    rewrite Forall_forall in Hle. specialize (Hle k1 Hk1).
    assert (k1 ≠ l) by congruence. lia.
  - apply Forall_app. split; [done|]. by repeat constructor.
Qed.

(** The loop, started on the rest of level [l] followed by the part of
    level [l + 1] already queued, keeps the keys in ascending order. *)
Lemma bfs_loop_sorted base_url queue acc :
  forall l ns1 ns2 m,
    queue = tagged l ns1 ++ tagged (l + 1) ns2 ->
    StronglySorted lt (dict_keys acc) ->
    Forall (fun k => k <= l) (dict_keys acc) ->
    bfs_loop base_url queue acc = Ok m ->
    StronglySorted lt (dict_keys m).
Proof.
  revert queue acc.
  apply (bfs_loop_induction base_url
           (fun queue acc => forall l ns1 ns2 m,
              queue = tagged l ns1 ++ tagged (l + 1) ns2 ->
              StronglySorted lt (dict_keys acc) ->
              Forall (fun k => k <= l) (dict_keys acc) ->
              bfs_loop base_url queue acc = Ok m ->
              StronglySorted lt (dict_keys m))).
  - intros acc l ns1 ns2 m _ Hsorted _.
    rewrite bfs_loop_equation_1. by intros [= <-].
  - intros n l0 queue acc IH l ns1 ns2 m Hq Hsorted Hle.
    rewrite bfs_loop_cons. intros (found & Hfound & Hrun)%bind_Ok.
    specialize (IH found Hfound).
    assert (forall l', l <= l' ->
              let acc' := match found with
                          | Some h => dict_append l' h acc
                          | None => acc
                          end in
              StronglySorted lt (dict_keys acc')
              /\ Forall (fun k => k <= l') (dict_keys acc')) as Hacc.
    { intros l' Hl'.
      assert (Forall (fun k => k <= l') (dict_keys acc)) as Hle'.
      { eapply Forall_impl; [exact Hle|]. cbn. lia. }
      destruct found; [by apply dict_append_keys_sorted | done]. }
    destruct ns1 as [|a ns1].
    + destruct ns2 as [|b ns2]; [done|].
      cbn [tagged map app] in Hq. injection Hq as -> -> ->.
      destruct (Hacc (l + 1)) as [Hs' Hle']; [lia|].
      apply (IH (l + 1) ns2 (children b) m); [|done..].
      reflexivity.
    + cbn [tagged map app] in Hq. injection Hq as -> -> ->.
      destruct (Hacc l) as [Hs' Hle']; [lia|].
      apply (IH l ns1 (ns2 ++ children a) m); [|done..].
      apply enqueue_tagged.
Qed.

Lemma bfs_traverse_dom_sorted root base_url m :
  bfs_traverse_dom root base_url = Ok m -> StronglySorted lt (dict_keys m).
Proof.
  unfold bfs_traverse_dom. intros Hrun.
  apply (bfs_loop_sorted base_url _ _ 0 [root] [] m) in Hrun;
    [done|done|constructor|constructor].
Qed.

Lemma bfs_traverse_dom_wf root base_url m :
  bfs_traverse_dom root base_url = Ok m -> wf_dict m.
Proof. intros H%bfs_traverse_dom_sorted. by apply StronglySorted_lt_NoDup. Qed.

(** X9: the mapping the traversal returns holds its depths in ascending
    order, each once: it is a dictionary, as the properties of the ranker
    require of their input, and iterating over it visits the levels from
    the root downwards. *)
Theorem bfs_levels_are_ascending root base_url m :
  bfs_traverse_dom root base_url = Ok m ->
  StronglySorted lt (dict_keys m) /\ wf_dict m.
Proof.
  intros Hrun. split;
    [by eapply bfs_traverse_dom_sorted | by eapply bfs_traverse_dom_wf].
Qed.

Lemma split_ws_from_words cur s :
  forallb (fun c => negb (isspace c)) cur = true ->
  Forall (fun w => w ≠ [] /\ forall c, c ∈ w -> isspace c = false)
    (split_ws_from cur s).
Proof.
  assert (forall cur,
            forallb (fun c => negb (isspace c)) cur = true ->
            Forall (fun w => w ≠ [] /\ forall c, c ∈ w -> isspace c = false)
              (if nonempty cur then [rev cur] else [])) as Hcur.
  { intros [|c0 cur0] H; [constructor|]. cbn [nonempty].
    constructor; [|constructor]. split.
    - cbn. by destruct (rev cur0).
    - intros c Hc%list_elem_of_In%in_rev. rewrite forallb_forall in H.
      by apply negb_true_iff, H. }
  revert cur. induction s as [|c s IH]; intros cur Hok; cbn [split_ws_from].
  - by apply Hcur.
  - destruct (isspace c) eqn:Hc.
    + apply Forall_app. split; [by apply Hcur | by apply IH].
    + apply IH. cbn. by rewrite Hc.
Qed.

(** The text of a link is made of words separated by single spaces. *)
Lemma node_link_text base_url n h :
  node_link base_url n = Ok (Some h) ->
  exists words,
    href_text h = join " " words
    /\ Forall (fun w => w ≠ [] /\ forall c, c ∈ w -> isspace c = false) words.
Proof.
  unfold node_link.
  destruct (bool_decide (nodeType n = Some 1%Z)); [|done].
  destruct (attributes n) as [attrs|]; [|done]. cbn zeta.
  destruct (_ && negb (startswith _ "javascript:")); [|done].
  destruct (negb (existsb _ image_extensions)); [|done].
  intros (full_url & _ & [= <-])%bind_Ok. cbn [href_text].
  match goal with
  | |- context [if nonempty ?t then join _ (split_ws ?t) else ?t] =>
      destruct t as [|c t'] eqn:Ht
  end.
  - exists []. by split.
  - cbn [nonempty]. eexists. split; [reflexivity|].
    by apply split_ws_from_words.
Qed.

Lemma bfs_link_node root base_url m d h :
  bfs_traverse_dom root base_url = Ok m -> h ∈ get_list d m ->
  exists n, n ∈ level d [root] /\ node_link base_url n = Ok (Some h).
Proof.
  intros Hrun. rewrite (bfs_traverse_dom_levels _ _ _ d Hrun).
  unfold links_of. intros (n & Hn & Hlink)%list_elem_of_omap.
  exists n. split; [done|]. unfold link_of in Hlink.
  destruct (node_link base_url n) as [found|]; [|done]. by subst found.
Qed.

(** X10: the text of every link the traversal returns is cleaned of
    whitespace: it consists of words without whitespace characters,
    separated by single spaces (it is empty when there is no word). *)
Theorem link_texts_are_single_spaced root base_url m d h :
  bfs_traverse_dom root base_url = Ok m -> h ∈ get_list d m ->
  exists words,
    href_text h = join " " words
    /\ Forall (fun w => w ≠ [] /\ forall c, c ∈ w -> isspace c = false) words.
Proof.
  intros Hrun (n & _ & Hlink)%(bfs_link_node _ _ _ _ _ Hrun).
  by apply (node_link_text base_url n).
Qed.

(* ===================================================================== *)
(** ** Parsing a normalized URL again *)
(* ===================================================================== *)

Lemma find_has_char c s : has_char c s = false -> find c s = None.
Proof.
  induction s as [|d s IH]; [done|]. rewrite has_char_cons.
  intros [Hd Hs]%orb_false_iff. cbn. by rewrite Hd, IH.
Qed.

Lemma find_app_here c a b :
  has_char c a = false -> find c (a ++ c :: b) = Some (length a).
Proof.
  induction a as [|d a IH]; cbn [app find length].
  - by rewrite Ascii.eqb_refl.
  - rewrite has_char_cons. intros [Hd Ha]%orb_false_iff.
    by rewrite Hd, IH.
Qed.

Lemma find_app_notin c a b :
  has_char c a = false ->
  find c (a ++ b) = (fun i => length a + i) <$> find c b.
Proof.
  induction a as [|d a IH]; cbn [app find length].
  - intros _. by destruct (find c b).
  - rewrite has_char_cons. intros [Hd Ha]%orb_false_iff.
    rewrite Hd, IH by done. by destruct (find c b).
Qed.

(** The first occurrence of a character cuts a string in two. *)
Lemma find_decomp c s :
  has_char c s = true ->
  exists a b, s = a ++ c :: b /\ has_char c a = false.
Proof.
  induction s as [|d s IH]; [done|]. rewrite has_char_cons.
  destruct (Ascii.eqb_spec d c) as [->|Hd].
  - intros _. by exists [], s.
  - intros (a & b & -> & Ha)%IH. exists (d :: a), b. split; [done|].
    rewrite has_char_cons, Ha. by apply orb_false_iff, conj, eq_refl;
      apply Ascii.eqb_neq.
Qed.

Lemma rfind_has_char c s : has_char c s = false -> rfind c s = None.
Proof.
  induction s as [|d s IH]; [done|]. rewrite has_char_cons.
  intros [Hd Hs]%orb_false_iff. cbn. by rewrite Hd, IH.
Qed.

Lemma rfind_app_here c a b :
  has_char c b = false -> rfind c (a ++ c :: b) = Some (length a).
Proof.
  intros Hb. induction a as [|d a IH]; cbn [app rfind length].
  - by rewrite (rfind_has_char _ _ Hb), Ascii.eqb_refl.
  - by rewrite IH.
Qed.

(** The last occurrence of a character cuts a string in two. *)
Lemma rfind_decomp c s :
  has_char c s = true ->
  exists a b, s = a ++ c :: b /\ has_char c b = false.
Proof.
  induction s as [|d s IH]; [done|]. rewrite has_char_cons.
  destruct (has_char c s) eqn:Hs.
  - intros _. destruct (IH eq_refl) as (a & b & -> & Hb).
    by exists (d :: a), b.
  - rewrite orb_false_r. intros ->%Ascii.eqb_eq. by exists [], s.
Qed.

Lemma take_app_add_cons {A} (a : list A) x t k :
  take (length a + S k) (a ++ x :: t) = a ++ x :: take k t.
Proof. by rewrite take_app_add. Qed.

(** Cutting the parameters off a path a second time cuts nothing. *)
Lemma splitparams_again url :
  has_char ";" url = true ->
  has_char ";" (splitparams url).1 = true ->
  splitparams (splitparams url).1 = ((splitparams url).1, []).
Proof.
  intros Hsemi. unfold splitparams at 1 3 4.
  destruct (has_char "/" url) eqn:Hslash.
  - destruct (rfind_decomp _ _ Hslash) as (a & t & -> & Ht).
    rewrite (rfind_app_here _ _ _ Ht). cbn [default id].
    unfold find_from. rewrite drop_app_length. cbn [find].
    change (Ascii.eqb "/" ";") with false. cbn match.
    destruct (has_char ";" t) eqn:Hst.
    + destruct (find_decomp _ _ Hst) as (b & c & -> & Hb).
      rewrite (find_app_here _ _ _ Hb).
      cbn [fmap option_fmap option_map fst].
      rewrite take_app_add_cons, take_app_length. intros _.
      assert (has_char "/" b = false) as Hb'.
      { rewrite has_char_app in Ht. by apply orb_false_iff in Ht as []. }
      unfold splitparams.
      rewrite has_char_app, has_char_cons, Ascii.eqb_refl, orb_true_r.
      rewrite (rfind_app_here _ _ _ Hb'). cbn [default id].
      unfold find_from. rewrite drop_app_length. cbn [find].
      change (Ascii.eqb "/" ";") with false. cbn match.
      by rewrite (find_has_char _ _ Hb).
    + rewrite (find_has_char _ _ Hst). cbn [fmap option_fmap option_map fst].
      intros _. unfold splitparams.
      rewrite has_char_app, has_char_cons, Ascii.eqb_refl, orb_true_r.
      rewrite (rfind_app_here _ _ _ Ht). cbn [default id].
      unfold find_from. rewrite drop_app_length. cbn [find].
      change (Ascii.eqb "/" ";") with false. cbn match.
      by rewrite (find_has_char _ _ Hst).
  - destruct (find_decomp _ _ Hsemi) as (a & b & -> & Ha).
    rewrite (find_app_here _ _ _ Ha). cbn [fst].
    rewrite take_app_length. congruence.
Qed.

Lemma splitnetloc_no_slash url start :
  has_char "/" (splitnetloc url start).1 = false.
Proof.
  unfold splitnetloc. cbn [fst fold_left lit list_ascii_of_string].
  set (step := fun (delim : nat) (c : ascii) =>
                 match find_from c url start with
                 | Some wdelim => Nat.min delim wdelim
                 | None => delim
                 end).
  assert (forall d c, step d c <= d) as Hstep.
  { intros d c. unfold step. destruct (find_from c url start); lia. }
  change (has_char "/"
            (take (step (step (step (length url) "/"%char) "?"%char) "#"%char
                   - start)
               (drop start url)) = false).
  pose proof (Hstep (step (step (length url) "/"%char) "?"%char) "#"%char)
    as H1.
  pose proof (Hstep (step (length url) "/"%char) "?"%char) as H2.
  destruct (find "/" (drop start url)) as [j|] eqn:Hj.
  - assert (step (length url) "/"%char <= start + j) as H3.
    { unfold step, find_from. rewrite Hj. cbn. lia. }
    apply (find_Some_take _ _ j); [done | lia].
  - by apply has_char_take, find_None.
Qed.

Lemma splitnetloc_sublist url start :
  (splitnetloc url start).1 `sublist_of` url.
Proof.
  unfold splitnetloc. cbn [fst].
  etrans; [apply sublist_take | apply sublist_drop].
Qed.

(** What [split_netloc] returns has passed its checks. *)
Lemma split_netloc_Ok url netloc rest :
  split_netloc url = Ok (netloc, rest) ->
  brackets_ok netloc = true
  /\ has_char "/" netloc = false
  /\ netloc `sublist_of` url.
Proof.
  unfold split_netloc, brackets_ok.
  destruct (startswith url "//").
  - pose proof (splitnetloc_no_slash url 2) as H1.
    pose proof (splitnetloc_sublist url 2) as H2.
    destruct (splitnetloc url 2) as [n r]. cbn [fst] in H1, H2.
    destruct (_ || _) eqn:E1; [done|].
    destruct (_ && negb (check_bracketed_netloc n)) eqn:E2; [done|].
    intros [= <- _]. by rewrite E1, E2.
  - intros [= <- _]. split_and!; [done..|]. apply sublist_nil_l.
Qed.

Lemma startswith_slash s :
  startswith s "/" = true -> exists t, s = "/"%char :: t.
Proof.
  destruct s as [|c t]; [done|]. cbn [startswith lit list_ascii_of_string].
  intros [H _]%andb_true_iff. apply Ascii.eqb_eq in H as <-. by exists t.
Qed.

(** The network location of a string made of two slashes, a checked
    network location and a path. *)
Lemma split_netloc_again netloc pth :
  brackets_ok netloc = true ->
  has_char "/" netloc = false -> has_char "?" netloc = false ->
  has_char "#" netloc = false ->
  pth = [] \/ startswith pth "/" = true ->
  has_char "?" pth = false -> has_char "#" pth = false ->
  split_netloc (lit "//" ++ netloc ++ pth) = Ok (netloc, pth).
Proof.
  intros Hok Hn1 Hn2 Hn3 Hpth Hp2 Hp3. unfold split_netloc.
  assert (startswith (lit "//" ++ netloc ++ pth) "//" = true) as ->.
  { cbn. by destruct (netloc ++ pth). }
  assert (splitnetloc (lit "//" ++ netloc ++ pth) 2 = (netloc, pth)) as ->.
  { unfold splitnetloc, find_from.
    change (drop 2 (lit "//" ++ netloc ++ pth)) with (netloc ++ pth).
    cbn [fold_left lit list_ascii_of_string].
    rewrite (find_has_char "?" (netloc ++ pth)),
      (find_has_char "#" (netloc ++ pth))
      by (by rewrite has_char_app, ?Hn2, ?Hn3, ?Hp2, ?Hp3).
    rewrite (find_app_notin "/" netloc pth Hn1).
    cbn [fmap option_fmap option_map].
    destruct Hpth as [->|[t ->]%startswith_slash];
      cbn [find fmap option_fmap option_map]; rewrite ?Ascii.eqb_refl;
      cbn [fmap option_fmap option_map];
      match goal with
      | |- (take ?a _, drop ?b _) = _ =>
          replace a with (length netloc)
            by (rewrite ?length_app; cbn [length]; lia);
          replace b with (2 + length netloc)
            by (rewrite ?length_app; cbn [length]; lia)
      end;
      cbn [Nat.add app skipn];
      by rewrite take_app_length, drop_app_length. }
  unfold brackets_ok in Hok. apply andb_true_iff in Hok as [H1 H2].
  apply negb_true_iff in H1, H2. by rewrite H1, H2.
Qed.

Lemma char_lower_idemp c : char_lower (char_lower c) = char_lower c.
Proof. by each_char c. Qed.

Lemma lower_idemp s : lower (lower s) = lower s.
Proof.
  unfold lower. rewrite map_map. apply map_ext. intros c.
  apply char_lower_idemp.
Qed.

Lemma scheme_char_lower_facts c :
  scheme_char c = true ->
  scheme_char (char_lower c) = true
  /\ Ascii.eqb (char_lower c) ":" = false
  /\ unsafe_url_byte (char_lower c) = false.
Proof. each_char c; vm_compute; intros; split_and!; congruence. Qed.

Lemma ascii_letter_lower c :
  ascii_letter c = true ->
  ascii_letter (char_lower c) = true
  /\ c0_control_or_space (char_lower c) = false.
Proof. each_char c; vm_compute; intros; split; congruence. Qed.

Lemma lower_scheme_facts s :
  forallb scheme_char s = true ->
  forallb scheme_char (lower s) = true
  /\ has_char ":" (lower s) = false
  /\ forallb (fun c => negb (unsafe_url_byte c)) (lower s) = true.
Proof.
  induction s as [|c s IH]; [done|]. cbn [forallb].
  intros [Hc Hs]%andb_true_iff.
  destruct (IH Hs) as (IH1 & IH2 & IH3).
  destruct (scheme_char_lower_facts c Hc) as (H1 & H2 & H3).
  change (lower (c :: s)) with (char_lower c :: lower s).
  cbn [forallb]. rewrite has_char_cons, H1, H2, H3, IH1, IH2, IH3. done.
Qed.

(** The scheme that [split_scheme] returns is empty or the lowercase form
    of a string of scheme characters that starts with a letter. *)
Lemma split_scheme_inv url :
  (split_scheme url).1 = []
  \/ exists c s,
       (split_scheme url).1 = lower (c :: s)
       /\ ascii_letter c = true
       /\ forallb scheme_char (c :: s) = true.
Proof.
  unfold split_scheme. destruct (find ":" url) as [i|] eqn:Hi; [|by left].
  destruct ((0 <? i) && _ && _) eqn:Hcond; [|by left]. right.
  apply andb_true_iff in Hcond as [[Hpos Hletter]%andb_true_iff Hall].
  apply Nat.ltb_lt in Hpos.
  destruct url as [|c url]; [done|]. destruct i as [|i]; [lia|].
  cbn [take head default fst] in *. by exists c, (take i url).
Qed.

(** The scheme of a string that starts with a lowercased scheme and a
    colon. *)
Lemma split_scheme_again c s rest :
  ascii_letter c = true -> forallb scheme_char (c :: s) = true ->
  split_scheme (lower (c :: s) ++ ":"%char :: rest) = (lower (c :: s), rest).
Proof.
  intros Hc Hs. destruct (lower_scheme_facts _ Hs) as (H1 & H2 & _).
  unfold split_scheme. rewrite (find_app_here _ _ _ H2).
  rewrite take_app_length, H1, andb_true_r.
  destruct (ascii_letter_lower c Hc) as [Hl _].
  change (lower (c :: s) ++ ":"%char :: rest)
    with (char_lower c :: (lower s ++ ":"%char :: rest)) at 1.
  cbn [head default id]. rewrite Hl. cbn [length Nat.ltb Nat.leb andb].
  rewrite lower_idemp. f_equal.
  change (":"%char :: rest) with ([":"%char] ++ rest).
  rewrite app_assoc. apply drop_app_length'. rewrite length_app. cbn. lia.
Qed.

Lemma forallb_sublist {A} (f : A -> bool) (s s' : list A) :
  s `sublist_of` s' -> forallb f s' = true -> forallb f s = true.
Proof.
  rewrite !forallb_forall. intros Hsub H c Hc. apply H, list_elem_of_In.
  eapply elem_of_sublist; [by apply list_elem_of_In | done].
Qed.

Lemma forallb_List_filter {A} (f : A -> bool) l :
  forallb f (List.filter f l) = true.
Proof.
  induction l as [|x l IH]; [done|]. cbn [List.filter].
  destruct (f x) eqn:Hx; [|done]. cbn [forallb]. by rewrite Hx, IH.
Qed.

Lemma List_filter_id {A} (f : A -> bool) l :
  forallb f l = true -> List.filter f l = l.
Proof.
  induction l as [|x l IH]; [done|]. cbn [forallb List.filter].
  intros [-> Hl]%andb_true_iff. by rewrite IH.
Qed.

(** What [urlparse] returns: the shape of the scheme, the checks the
    network location has passed, the characters that the parts do not
    have, and a path from which no parameters can be cut again. *)
Lemma urlparse_inv url parsed_url :
  urlparse url = Ok parsed_url ->
  (scheme parsed_url = []
   \/ exists c s,
        scheme parsed_url = lower (c :: s)
        /\ ascii_letter c = true
        /\ forallb scheme_char (c :: s) = true)
  /\ brackets_ok (netloc parsed_url) = true
  /\ has_char "/" (netloc parsed_url) = false
  /\ has_char "?" (netloc parsed_url) = false
  /\ has_char "#" (netloc parsed_url) = false
  /\ has_char "?" (path parsed_url) = false
  /\ has_char "#" (path parsed_url) = false
  /\ forallb (fun c => negb (unsafe_url_byte c)) (netloc parsed_url) = true
  /\ forallb (fun c => negb (unsafe_url_byte c)) (path parsed_url) = true
  /\ (bool_decide (scheme parsed_url ∈ uses_params)
      && has_char ";" (path parsed_url) = true ->
      splitparams (path parsed_url) = (path parsed_url, [])).
Proof.
  unfold urlparse, urlsplit.
  set (u := List.filter _ _).
  assert (forallb (fun c => negb (unsafe_url_byte c)) u = true) as Hsafe
    by apply forallb_List_filter.
  pose proof (split_scheme_snd u) as Hs1.
  pose proof (split_scheme_inv u) as Hs2.
  destruct (split_scheme u) as [sch u1]. cbn [fst snd] in Hs1, Hs2.
  destruct (split_netloc u1) as [[n u2]|] eqn:Hn; cbn; [|done].
  pose proof (split_netloc_Ok _ _ _ Hn) as (Hb & Hn1 & Hnsub).
  pose proof (split_netloc_fst _ _ _ Hn) as Hn2.
  pose proof (split_netloc_no_hash _ _ _ Hn) as Hn3.
  pose proof (split_netloc_snd _ _ _ Hn) as Hu2.
  pose proof (split_fragment_fst u2) as Hf1.
  pose proof (split_fragment_sublist u2) as Hf2.
  destruct (split_fragment u2) as [u3 fr]. cbn [fst] in Hf1, Hf2.
  pose proof (split_query_fst u3) as Hq1.
  pose proof (split_query_sublist u3) as Hq2.
  destruct (split_query u3) as [u4 q]. cbn [fst] in Hq1, Hq2.
  cbn [mbind result_bind].
  assert (u4 `sublist_of` u) as Hu4 by (by repeat (etrans; [eassumption|])).
  assert (has_char "#" u4 = false) as Hq3
    by by apply (has_char_sublist_false _ _ _ Hq2).
  assert (forallb (fun c => negb (unsafe_url_byte c)) n = true) as Hnsafe.
  { apply (forallb_sublist _ n u); [by etrans | done]. }
  destruct (bool_decide (sch ∈ uses_params) && has_char ";" u4) eqn:Hcond.
  - destruct (splitparams_fst u4) as [k Hk].
    apply andb_true_iff in Hcond as [Hsch Hsemi].
    pose proof (splitparams_again u4 Hsemi) as Hagain.
    destruct (splitparams u4) as [u5 pa]. cbn [fst] in Hk, Hagain.
    intros [= <-]. cbn [scheme netloc path]. subst u5.
    split_and!; try done.
    + by apply has_char_take.
    + by apply has_char_take.
    + apply (forallb_sublist _ _ u); [|done].
      etrans; [apply sublist_take | done].
    + intros [_ H]%andb_true_iff. by apply Hagain.
  - intros [= <-]. cbn [scheme netloc path].
    split_and!; try done.
    + by apply (forallb_sublist _ u4 u).
    + by rewrite Hcond.
Qed.

(** X11: a URL with a scheme whose path is empty or starts with a slash is
    normalized to a URL that parses, without error, to the same scheme,
    network location and path, and to no parameters, query or fragment:
    for such links the path in which the keyword is searched is the path
    of the link. *)
Theorem normalized_url_parses_to_the_same_path url parsed_url :
  urlparse url = Ok parsed_url ->
  nonempty (scheme parsed_url) = true ->
  path parsed_url = [] \/ startswith (path parsed_url) "/" = true ->
  urlparse (normalize parsed_url)
  = Ok {| scheme := scheme parsed_url; netloc := netloc parsed_url;
          path := path parsed_url; params := []; query := [];
          fragment := [] |}.
Proof.
  intros (Hs & Hb & Hn1 & Hn2 & Hn3 & Hp2 & Hp3 & Hnsafe & Hpsafe & Hparams)
    %urlparse_inv Hne Hpath.
  destruct Hs as [Hs|(c & s & Hs & Hc & Hall)]; [by rewrite Hs in Hne|].
  destruct (lower_scheme_facts _ Hall) as (_ & _ & Hssafe).
  destruct (ascii_letter_lower c Hc) as [_ Hc0].
  unfold normalize. rewrite Hs in *.
  set (n := netloc parsed_url) in *. set (pth := path parsed_url) in *.
  unfold urlparse, urlsplit.
  assert (lstrip c0_control_or_space (lower (c :: s) ++ lit "://" ++ n ++ pth)
          = lower (c :: s) ++ lit "://" ++ n ++ pth) as ->.
  { change (lower (c :: s) ++ lit "://" ++ n ++ pth)
      with (char_lower c :: (lower s ++ lit "://" ++ n ++ pth)).
    cbn [lstrip]. by rewrite Hc0. }
  rewrite List_filter_id; cycle 1.
  { rewrite !forallb_app, Hssafe, Hnsafe, Hpsafe. done. }
  change (lower (c :: s) ++ lit "://" ++ n ++ pth)
    with (lower (c :: s) ++ ":"%char :: (lit "//" ++ n ++ pth)).
  rewrite (split_scheme_again c s _ Hc Hall).
  rewrite (split_netloc_again n pth) by done.
  cbn [mbind result_bind].
  unfold split_fragment. rewrite Hp3. unfold split_query. rewrite Hp2.
  cbn [mbind result_bind].
  destruct (bool_decide (lower (c :: s) ∈ uses_params) && has_char ";" pth)
    eqn:Hcond; [|done].
  by rewrite (Hparams eq_refl).
Qed.

(** X12: a URL without a scheme, such as a link that starts with two
    slashes, is normalized to a string that starts with [://], and that
    string parses to a URL without network location whose path is the
    whole string: the keyword is then searched in the host name as well.
    (The statement leaves aside the URLs with a semicolon, from which
    [urlparse] cuts parameters.) *)
Theorem url_without_scheme_is_searched_with_its_host url parsed_url :
  urlparse url = Ok parsed_url ->
  scheme parsed_url = [] ->
  has_char ";" (netloc parsed_url ++ path parsed_url) = false ->
  urlparse (normalize parsed_url)
  = Ok {| scheme := []; netloc := [];
          path := lit "://" ++ netloc parsed_url ++ path parsed_url;
          params := []; query := []; fragment := [] |}.
Proof.
  intros (_ & _ & Hn1 & Hn2 & Hn3 & Hp2 & Hp3 & Hnsafe & Hpsafe & _)
    %urlparse_inv Hs Hsemi.
  unfold normalize. rewrite Hs.
  set (n := netloc parsed_url) in *. set (pth := path parsed_url) in *.
  change ([] ++ lit "://" ++ n ++ pth) with (lit "://" ++ n ++ pth).
  unfold urlparse, urlsplit.
  change (lstrip c0_control_or_space (lit "://" ++ n ++ pth))
    with (lit "://" ++ n ++ pth).
  rewrite List_filter_id; cycle 1.
  { rewrite !forallb_app, Hnsafe, Hpsafe. done. }
  change (split_scheme (lit "://" ++ n ++ pth))
    with (@nil ascii, lit "://" ++ n ++ pth).
  cbv beta iota zeta.
  change (split_netloc (lit "://" ++ n ++ pth))
    with (Ok (@nil ascii, lit "://" ++ n ++ pth)).
  cbn [mbind result_bind].
  assert (forall c, has_char c (lit "://") = false ->
            has_char c n = false -> has_char c pth = false ->
            has_char c (lit "://" ++ n ++ pth) = false) as Hno.
  { intros c H1 H2 H3. by rewrite !has_char_app, H1, H2, H3. }
  unfold split_fragment. rewrite (Hno "#"%char) by done.
  unfold split_query. rewrite (Hno "?"%char) by done.
  cbn [mbind result_bind].
  rewrite has_char_app in Hsemi. apply orb_false_iff in Hsemi as [Hs1 Hs2].
  by rewrite (Hno ";"%char), andb_false_r by done.
Qed.

(* ===================================================================== *)
(** ** The traversal followed by the search *)
(* ===================================================================== *)

(** X13: when the mapping of the traversal is searched, as
    [scrape_and_search] does, the level of the result is the depth of an
    element with a link, and every best match is made from the link of an
    element at that depth: it has the URL, the text and the tag of that
    link. *)
Theorem best_matches_are_links_at_the_selected_depth
    root base_url keyword m r :
  bfs_traverse_dom root base_url = Ok m ->
  search_keyword_in_hrefs m keyword = Ok (Some r) ->
  (exists n, at_depth root (target_level r) n /\ eligible n = true)
  /\ forall c, c ∈ best_matches r ->
       exists n h,
         at_depth root (target_level r) n
         /\ eligible n = true
         /\ node_link base_url n = Ok (Some h)
         /\ cand_url c = href_url h
         /\ cand_text c = href_text h
         /\ cand_tag c = href_tag h.
Proof.
  intros Hrun Hr. pose proof (bfs_traverse_dom_wf _ _ _ Hrun) as Hwf.
  destruct (search_selected _ _ _ Hr) as ((st & Hst & _) & _ & _ & Hb).
  destruct (level_stat_facts _ _ _ _ _ Hr Hwf Hst)
    as (hrefs & Hin & Htot & Hbound & _).
  assert (forall h, h ∈ hrefs ->
            exists n, at_depth root (target_level r) n
              /\ eligible n = true
              /\ node_link base_url n = Ok (Some h)) as Hnode.
  { intros h Hh.
    assert (h ∈ get_list (target_level r) m) as Hh'.
    { unfold get_list. by rewrite (dict_get_elem _ _ _ Hwf Hin). }
    destruct (bfs_link_node _ _ _ _ _ Hrun Hh') as (n & Hn & Hlink).
    exists n. split_and!; [by apply level_at_depth| |done].
    apply (node_link_eligible _ _ _ Hlink). by eexists. }
  split.
  - destruct hrefs as [|h hrefs]; [cbn in Hbound; lia|].
    destruct (Hnode h) as (n & ? & ? & _); [apply list_elem_of_here|].
    by exists n.
  - intros c Hc. rewrite Hb in Hc.
    destruct (match_origin _ _ _ _ _ _ Hr Hwf Hin Hc)
      as (h & p & Hh & _ & _ & -> & _).
    destruct (Hnode h Hh) as (n & ? & ? & ?). by exists n, h.
Qed.

(* ===================================================================== *)
(** ** The skipped URLs that save_keyword_results reports *)
(* ===================================================================== *)












(* ===================================================================== *)
(** ** The text report of save_bfs_results *)
(* ===================================================================== *)

Section SortedItems.
Context {V : Type}.
Implicit Types (x : nat * V) (l d : list (nat * V)).

Lemma insert_asc_perm x l : insert_asc x l ≡ₚ x :: l.
Proof.
  induction l as [|y l IH]; cbn [insert_asc]; [done|].
  destruct (x.1 <=? y.1); [done|]. rewrite IH. apply perm_swap.
Qed.

Lemma sorted_items_perm d : sorted_items d ≡ₚ d.
Proof.
  unfold sorted_items. induction d as [|x d IH]; cbn [foldr]; [done|].
  by rewrite insert_asc_perm, IH.
Qed.

Lemma insert_asc_sorted x l :
  StronglySorted (fun a b : nat * V => a.1 < b.1) l ->
  x.1 ∉ map fst l ->
  StronglySorted (fun a b : nat * V => a.1 < b.1) (insert_asc x l).
Proof.
  induction 1 as [|y l Hl IH Hy]; cbn [insert_asc map].
  - intros _. repeat constructor.
  - intros [Hne Hnotin]%not_elem_of_cons.
    pose proof (proj1 (Forall_forall _ _) Hy) as Hy'.
    destruct (x.1 <=? y.1) eqn:Hle.
    + apply Nat.leb_le in Hle. constructor; [by constructor|].
      constructor; [lia|]. apply Forall_forall. intros z Hz.
      specialize (Hy' z Hz). cbn beta in Hy'. lia.
    + apply Nat.leb_gt in Hle. constructor; [by apply IH|].
      apply Forall_forall. intros z Hz. rewrite insert_asc_perm in Hz.
      apply elem_of_cons in Hz as [->|Hz]; [done | by apply Hy'].
Qed.

Lemma sorted_items_sorted d :
  wf_dict d ->
  StronglySorted (fun a b : nat * V => a.1 < b.1) (sorted_items d).
Proof.
  unfold wf_dict, dict_keys, sorted_items.
  induction d as [|x d IH]; cbn [foldr map]; [constructor|].
  intros [Hx Hd]%NoDup_cons. apply insert_asc_sorted; [by apply IH|].
  fold (sorted_items d). intros Hin. apply Hx.
  by rewrite <- (Permutation_map fst (sorted_items_perm d)).
Qed.

Lemma sorted_by_key_unique l1 l2 :
  StronglySorted (fun a b : nat * V => a.1 < b.1) l1 ->
  StronglySorted (fun a b : nat * V => a.1 < b.1) l2 ->
  l1 ≡ₚ l2 -> l1 = l2.
Proof. apply StronglySorted_unique_strong. intros. lia. Qed.

(** Sorting gives the same list for the same items in any order. *)
Lemma sorted_items_order d d' :
  d ≡ₚ d' -> wf_dict d -> sorted_items d = sorted_items d'.
Proof.
  intros Hperm Hwf. apply sorted_by_key_unique.
  - by apply sorted_items_sorted.
  - apply sorted_items_sorted. by apply (wf_dict_perm d).
  - by rewrite !sorted_items_perm.
Qed.

(** Sorting leaves a dictionary with ascending keys as it is. *)
Lemma sorted_items_ascending d :
  StronglySorted lt (dict_keys d) -> sorted_items d = d.
Proof.
  intros Hsorted. apply sorted_by_key_unique.
  - apply sorted_items_sorted. by apply StronglySorted_lt_NoDup.
  - unfold dict_keys in Hsorted. clear -Hsorted.
    induction d as [|x d IH]; [constructor|]. cbn [map] in Hsorted.
    apply StronglySorted_cons in Hsorted as [Hx Hd].
    constructor; [by apply IH|]. apply Forall_forall. intros y Hy.
    rewrite Forall_forall in Hx. apply Hx.
    by apply list_elem_of_In, in_map, list_elem_of_In.
  - apply sorted_items_perm.
Qed.
End SortedItems.

Lemma length_href_blocks (f : nat -> nat) hrefs :
  length (concat (imap (fun i h => href_lines (f i) h) hrefs))
  = 3 * length hrefs.
Proof.
  revert f. induction hrefs as [|h hrefs IH]; intros f; [done|].
  rewrite imap_cons. cbn [concat]. rewrite length_app.
  change ((fun i h => href_lines (f i) h) ∘ S)
    with (fun i h => href_lines ((f ∘ S) i) h).
  rewrite (IH (f ∘ S)). cbn [href_lines length]. lia.
Qed.

Lemma length_level_lines level hrefs :
  length (level_lines level hrefs) = 3 + 3 * length hrefs.
Proof.
  unfold level_lines. rewrite !length_app.
  rewrite (length_href_blocks S). cbn [length]. lia.
Qed.

Lemma truncate_length s :
  length (truncate s) <= 80 /\ (length s <= 80 -> truncate s = s).
Proof.
  unfold truncate. destruct (80 <? length s) eqn:Hlen.
  - apply Nat.ltb_lt in Hlen. split; [|lia].
    rewrite length_app, length_take. cbn [length lit list_ascii_of_string].
    lia.
  - apply Nat.ltb_ge in Hlen. by split.
Qed.

(** X15: the text report has its levels in ascending order whatever the
    order in which the mapping holds them; for the mapping of the
    traversal that is the order of the mapping itself.  The report has
    three lines at its head, three lines for every level and three for
    every link; the text and the URL it shows for a link have at most 80
    characters, and a URL of at most 80 characters is shown in full. *)
Theorem text_report_lists_levels_in_ascending_order :
  (forall level_hrefs level_hrefs' base_url,
     level_hrefs ≡ₚ level_hrefs' -> wf_dict level_hrefs ->
     save_bfs_results_text level_hrefs base_url
     = save_bfs_results_text level_hrefs' base_url)
  /\ (forall root base_url m,
        bfs_traverse_dom root base_url = Ok m ->
        output_lines m base_url
        = [ lit "BFS Traversal Results - hrefs by level for " ++ base_url;
            replicate 60 "="%char; [] ]
          ++ flat_map (fun item => level_lines item.1 item.2) m)
  /\ (forall level_hrefs base_url,
        length (output_lines level_hrefs base_url)
        = 3 + sum_list_with (fun item => 3 + 3 * length item.2)
                level_hrefs)
  /\ (forall i h,
        exists text url,
          href_lines i h
          = [ str_of_nat i ++ lit ". [" ++ href_tag h ++ lit "] " ++ text;
              lit "   URL: " ++ url;
              [] ]
          /\ length text <= 80 /\ length url <= 80
          /\ (length (href_url h) <= 80 -> url = href_url h)).
Proof.
  split_and!; cycle 3.
  { intros i h. unfold href_lines. eexists _, _. split; [reflexivity|].
    split_and!; apply truncate_length. }
  - intros lh lh' base_url Hperm Hwf.
    unfold save_bfs_results_text, output_lines.
    by rewrite (sorted_items_order lh lh' Hperm Hwf).
  - intros root base_url m Hrun. unfold output_lines.
    by rewrite (sorted_items_ascending m
                  (bfs_traverse_dom_sorted _ _ _ Hrun)).
  - intros lh base_url. unfold output_lines.
    rewrite length_app. cbn [length]. f_equal. f_equal. f_equal.
    rewrite <- (sorted_items_perm lh) at 2.
    induction (sorted_items lh) as [|[level hrefs] l IH]; [done|].
    cbn [flat_map sum_list_with fst snd].
    by rewrite length_app, length_level_lines, IH.
Qed.
End Program.

(* ===================================================================== *)
(** ** The properties on the sample inputs *)
(* ===================================================================== *)

Lemma whole_path_exclusion_keeps_denominator_witness :
  exists r c_report,
    search_keyword_in_hrefs accept_brackets fire_level (lit "fire")
    = Ok (Some r)
    /\ dict_get 1 (level_stats r)
       = Some {| total_unique_urls := 2; matching_urls := 1;
                 keyword_ratio := 1 # 2 |}
    /\ dict_get 1 (all_matches r)
       = Some [set_path c_report (lit "/fire/report")]
    /\ exists dbg,
         dict_get 1 (debug_info r) = Some dbg
         /\ included dbg = [fire_report_url]
         /\ dict_get fire_url (skipped dbg)
            = Some (lit "Keyword 'fire' is the entire path").
Proof.
  eexists _, _. split; [vm_compute; reflexivity|].
  eapply (whole_path_exclusion_keeps_denominator accept_brackets fire_level).
  - vm_compute. reflexivity.
  - apply NoDup_singleton.
  - apply list_elem_of_here.
  - vm_compute. reflexivity.
  - reflexivity.
Defined.

(** C2: on [broken_level] the function raises [ValueError], where the
    specification has it log the link and go on. *)
Lemma unparsable_url_is_fatal :
  search_keyword_in_hrefs accept_brackets broken_level (lit "fire")
  = Raise ValueError
  /\ collect_level accept_brackets
       [anchor "https://x.com/fire/report" "Fire report"]
     = Ok ([(fire_report_url,
             to_candidate fire_report_url
               (anchor "https://x.com/fire/report" "Fire report"))], []).
Proof. split; vm_compute; reflexivity. Qed.

Lemma unparsable_url_raises_witness :
  search_keyword_in_hrefs accept_brackets broken_level (lit "fire")
  = Raise ValueError.
Proof.
  eapply (proj1 (unparsable_url_raises accept_brackets) broken_level
            (lit "fire") 0 _ (anchor "http://[" "Broken")).
  - apply list_elem_of_here.
  - apply list_elem_of_further, list_elem_of_here.
  - vm_compute. reflexivity.
  - vm_compute. reflexivity.
Defined.

(** C3: on [share_level] the reason logged for the share link is
    [Social media sharing link], not the [social sharing link] of the
    specification. *)
Lemma share_link_reason_text :
  exists r dbg,
    search_keyword_in_hrefs accept_brackets share_level (lit "fire")
    = Ok (Some r)
    /\ dict_get 0 (debug_info r) = Some dbg
    /\ dict_get (lit "https://facebook.com/sharer/sharer.php?u=x")
         (skipped dbg)
       = Some (lit "Social media sharing link")
    /\ dict_get (lit "https://facebook.com/sharer/sharer.php?u=x")
         (skipped dbg)
       ≠ Some (lit "social sharing link").
Proof.
  eexists _, _. split_and!; [vm_compute; reflexivity..|]. by vm_compute.
Qed.

Lemma share_link_is_dropped_first_witness :
  exists r dbg,
    search_keyword_in_hrefs accept_brackets share_level (lit "fire")
    = Ok (Some r)
    /\ dict_get 0 (debug_info r) = Some dbg
    /\ dict_get (lit "https://facebook.com/sharer/sharer.php?u=x")
         (skipped dbg)
       = Some (lit "Social media sharing link").
Proof.
  eexists _.
  assert (search_keyword_in_hrefs accept_brackets share_level (lit "fire")
          = Ok (Some _)) as Hr by (vm_compute; reflexivity).
  edestruct (proj2 (proj2 (share_link_is_dropped_first accept_brackets))
               share_level (lit "fire")) as (dbg & Hdbg & Hreason).
  - exact Hr.
  - apply NoDup_singleton.
  - apply list_elem_of_here.
  - apply list_elem_of_here.
  - vm_compute. reflexivity.
  - vm_compute. reflexivity.
  - exists dbg. by split_and!.
Defined.

Lemma bfs_groups_links_by_depth_witness :
  exists m,
    bfs_traverse_dom join_absolute_path sample_dom (lit "https://x.com")
    = Ok m
    /\ dict_get 0 m = None
    /\ dict_get 1 m
       = Some [ {| href_url := lit "https://x.com/fire/report";
                   href_text := lit "Fire report"; href_tag := lit "A";
                   href_element_type := lit "anchor" |};
                {| href_url := lit "https://x.com/fire";
                   href_text := lit "Fire"; href_tag := lit "A";
                   href_element_type := lit "anchor" |} ]
    /\ dict_get 2 m
       = Some [ {| href_url := lit "https://x.com/deep";
                   href_text := lit "Deep link"; href_tag := lit "A";
                   href_element_type := lit "anchor" |} ].
Proof.
  eexists.
  assert (bfs_traverse_dom join_absolute_path sample_dom (lit "https://x.com")
          = Ok _) as Hrun by (vm_compute; reflexivity).
  split; [exact Hrun|].
  pose proof (proj1 (proj2 (bfs_groups_links_by_depth join_absolute_path
                              sample_dom (lit "https://x.com"))) _ Hrun)
    as Hget.
  rewrite (Hget 0), (Hget 1), (Hget 2). split_and!; vm_compute; reflexivity.
Defined.

(** C5: in [broken_dom] the three links are of the kind that the
    specification has yield a record, but the second has an [href] that
    [urljoin] does not parse: the node raises [ValueError] and yields no
    record, and the traversal returns no mapping. *)
Lemma eligible_link_can_raise :
  map eligible (level 1 [broken_dom]) = [true; true; true]
  /\ urlparse accept_brackets (lit "ftp://[") = Raise ValueError
  /\ map (node_link (join_after_parsing accept_brackets)
            (lit "https://x.com"))
       (level 1 [broken_dom])
     = [ Ok (Some (anchor "https://x.com/fire" "Fire"));
         Raise ValueError;
         Ok (Some (anchor "https://x.com/fire/report" "Fire report")) ]
  /\ bfs_traverse_dom (join_after_parsing accept_brackets) broken_dom
       (lit "https://x.com")
     = Raise ValueError.
Proof. split_and!; vm_compute; reflexivity. Qed.

Lemma link_iff_eligible_witness :
  (exists m,
     bfs_traverse_dom join_absolute_path sample_dom (lit "https://x.com")
     = Ok m
     /\ map eligible (level 1 [sample_dom]) = [true; false; true; false]
     /\ map eligible (level 2 [sample_dom]) = [false; true]
     /\ Forall2
          (fun n h =>
             node_link join_absolute_path (lit "https://x.com") n
             = Ok (Some h))
          (List.filter eligible (level 2 [sample_dom])) (get_list 2 m))
  /\ (exists e,
        bfs_traverse_dom (join_after_parsing accept_brackets) broken_dom
          (lit "https://x.com")
        = Raise e).
Proof.
  split.
  - eexists.
    assert (bfs_traverse_dom join_absolute_path sample_dom
              (lit "https://x.com") = Ok _) as Hrun
      by (vm_compute; reflexivity).
    split_and!; [exact Hrun | reflexivity | reflexivity |].
    apply (proj1 (proj2 (proj2 (proj2
             (link_iff_eligible join_absolute_path (lit "https://x.com")))))
             sample_dom _ 2 Hrun).
  - apply (proj1 (proj2 (proj2 (proj2 (proj2 (proj2
             (link_iff_eligible (join_after_parsing accept_brackets)
                (lit "https://x.com")))))))
             broken_dom 1 (link_node "ftp://[" "Broken") ValueError).
    + apply (at_depth_child _ 0 broken_dom); [constructor|].
      apply list_elem_of_further, list_elem_of_here.
    + vm_compute. reflexivity.
Defined.

Lemma pool_keeps_first_longest_witness :
  exists unique_urls skipped0,
    collect_level accept_brackets duplicate_links = Ok (unique_urls, skipped0)
    /\ exists i best,
         first_longest accept_brackets (lit "https://x.com/a")
           duplicate_links i best
         /\ List.filter (fun e => bool_decide (e.1 = lit "https://x.com/a"))
              unique_urls
            = [(lit "https://x.com/a",
                to_candidate (lit "https://x.com/a") best)].
Proof.
  eexists _, _. split; [vm_compute; reflexivity|].
  eapply (pool_keeps_first_longest accept_brackets duplicate_links _ _
            (anchor "https://x.com/a" "short")).
  - vm_compute. reflexivity.
  - apply list_elem_of_here.
  - vm_compute. reflexivity.
Defined.

(** The pool of [duplicate_links]: under [https://x.com/a] the entry with
    the text [longer], the first of the two texts of length 6. *)
Example duplicate_links_pool :
  pool accept_brackets duplicate_links
  = [ (lit "https://x.com/a",
       to_candidate (lit "https://x.com/a")
         (anchor "https://x.com/a" "longer"));
      (lit "https://x.com/b",
       to_candidate (lit "https://x.com/b")
         (anchor "https://x.com/b" "other")) ].
Proof. vm_compute. reflexivity. Qed.

Lemma selected_level_is_shallowest_maximum_witness :
  exists r,
    search_keyword_in_hrefs accept_brackets tied_levels (lit "fire")
    = Ok (Some r)
    /\ map fst (level_stats r) = [3; 2; 1]
    /\ target_level r = 1
    /\ (highest_ratio r == 1)%Q
    /\ (exists st, dict_get (target_level r) (level_stats r) = Some st
          /\ (keyword_ratio st == highest_ratio r)%Q)
    /\ (forall l st, dict_get l (level_stats r) = Some st ->
          (keyword_ratio st <= highest_ratio r)%Q)
    /\ (forall l st, dict_get l (level_stats r) = Some st ->
          (keyword_ratio st == highest_ratio r)%Q -> target_level r <= l)
    /\ best_matches r
       = default [] (dict_get (target_level r) (all_matches r)).
Proof.
  eexists.
  assert (search_keyword_in_hrefs accept_brackets tied_levels (lit "fire")
          = Ok (Some _)) as Hr by (vm_compute; reflexivity).
  split_and!; [exact Hr | reflexivity | reflexivity | reflexivity |..];
    apply (selected_level_is_shallowest_maximum accept_brackets _ _ _ Hr).
Defined.

Lemma empty_pool_is_not_scored_witness :
  (exists r,
     search_keyword_in_hrefs accept_brackets sparse_levels (lit "fire")
     = Ok (Some r)
     /\ dict_get 0 (level_stats r) = None
     /\ map fst (level_stats r) = [1])
  /\ search_keyword_in_hrefs accept_brackets
       [(0, [anchor "https://x.com/news?utm=1" "News";
             anchor "https://x.com/news#top" "Top"])]
       (lit "fire")
     = Ok None.
Proof.
  split.
  - eexists.
    assert (search_keyword_in_hrefs accept_brackets sparse_levels (lit "fire")
            = Ok (Some _)) as Hr by (vm_compute; reflexivity).
    split_and!; [exact Hr | | reflexivity].
    eapply (proj1 (empty_pool_is_not_scored accept_brackets sparse_levels
                     (lit "fire")) _ 0 _ _ _ Hr).
    + apply (bool_decide_unpack (NoDup [0; 1])). reflexivity.
    + apply list_elem_of_here.
    + vm_compute. reflexivity.
    + reflexivity.
  - apply (proj2 (empty_pool_is_not_scored accept_brackets _ (lit "fire"))).
    intros level hrefs [= -> ->]%list_elem_of_singleton.
    eexists. vm_compute. reflexivity.
Defined.

Lemma keyword_pattern_is_literal_witness :
  compile_keyword (lit "a.b*")
  = Ok {| ops := [AT AT_BOUNDARY; LITERAL "a"; LITERAL "."; LITERAL "b";
                  LITERAL "*"; AT AT_BOUNDARY];
          ignorecase := true |}
  /\ compile_keyword [] = Ok {| ops := [AT AT_BOUNDARY; AT AT_BOUNDARY];
                                ignorecase := true |}
  /\ re_fullmatch (keyword_regex_of (lit "a.b")) (lit "A.B") = true
  /\ re_fullmatch (keyword_regex_of (lit "a.b")) (lit "axb") = false.
Proof.
  split_and!.
  - apply (keyword_pattern_is_literal accept_brackets (lit "a.b*")).
  - apply (keyword_pattern_is_literal accept_brackets []).
  - by apply (proj1 (proj2 (keyword_pattern_is_literal accept_brackets
                              (lit "a.b")))).
  - apply not_true_is_false.
    intros [H _]%(proj1 (proj2 (keyword_pattern_is_literal accept_brackets
                                  (lit "a.b")))).
    discriminate H.
Defined.

(** Without the escape the dot would match any character. *)
Example unescaped_dot_matches_any :
  (r ← re_compile (lit "a.b") true; Ok (re_fullmatch r (lit "axb")))
  = Ok true
  /\ (r ← re_compile (re_escape (lit "a.b")) true;
      Ok (re_fullmatch r (lit "axb")))
     = Ok false.
Proof. split; reflexivity. Qed.

Lemma exclusion_log_last_write_wins_witness :
  exists r dbg unique_urls skipped0,
    search_keyword_in_hrefs accept_brackets repeated_level (lit "fire")
    = Ok (Some r)
    /\ dict_get 0 (debug_info r) = Some dbg
    /\ (exists hrefs,
          repeated_level = [(0, hrefs)]
          /\ collect_level accept_brackets hrefs = Ok (unique_urls, skipped0)
          /\ forall url,
               dict_get url (skipped dbg)
               = last_write url
                   (level_writes accept_brackets (lit "fire")
                      (keyword_regex_of (lit "fire")) hrefs unique_urls))
    /\ NoDup (dict_keys (skipped dbg)).
Proof.
  eexists.
  assert (search_keyword_in_hrefs accept_brackets repeated_level (lit "fire")
          = Ok (Some _)) as Hr by (vm_compute; reflexivity).
  edestruct (exclusion_log_last_write_wins accept_brackets repeated_level
               (lit "fire"))
    as (dbg & u & sk0 & Hdbg & Hc & Hnodup & Hlast).
  - exact Hr.
  - apply NoDup_singleton.
  - apply list_elem_of_here.
  - exists dbg, u, sk0. split_and!; [done..| |done].
    eexists. split_and!; [reflexivity | exact Hc | exact Hlast].
Defined.

(** The log of [repeated_level]: one entry for the URL that was excluded
    twice for its fragment, and for the share link the reason of the later
    keyword step, written under the same URL for the link with the tab. *)
Example repeated_level_log :
  exists r dbg,
    search_keyword_in_hrefs accept_brackets repeated_level (lit "fire")
    = Ok (Some r)
    /\ dict_get 0 (debug_info r) = Some dbg
    /\ total_urls dbg = 5
    /\ skipped dbg
       = [ (lit "https://x.com/a#top", lit "Has anchor (#top)");
           (lit "https://facebook.com/sharer",
            lit "Keyword 'fire' not in URL path") ].
Proof. eexists _, _. split_and!; vm_compute; reflexivity. Qed.

(* ===================================================================== *)
(** ** The further properties on the sample inputs *)
(* ===================================================================== *)

Lemma tied_levels_wf : wf_dict tied_levels.
Proof. apply (bool_decide_unpack (NoDup [3; 2; 1])). reflexivity. Qed.

Lemma sparse_levels_wf : wf_dict sparse_levels.
Proof. apply (bool_decide_unpack (NoDup [0; 1])). reflexivity. Qed.

Lemma level_statistics_are_consistent_witness :
  exists r st,
    search_keyword_in_hrefs accept_brackets tied_levels (lit "fire")
    = Ok (Some r)
    /\ dict_get 3 (level_stats r) = Some st
    /\ (total_unique_urls st, matching_urls st) = (2, 1)
    /\ exists hrefs,
         (3, hrefs) ∈ tied_levels
         /\ total_unique_urls st = length (pool accept_brackets hrefs)
         /\ 1 <= total_unique_urls st <= length hrefs
         /\ matching_urls st = length (get_list 3 (all_matches r))
         /\ matching_urls st <= total_unique_urls st
         /\ keyword_ratio st
            = Z.of_nat (matching_urls st) # Pos.of_nat (total_unique_urls st)
         /\ (0 <= keyword_ratio st <= 1)%Q.
Proof.
  eexists _, _.
  assert (search_keyword_in_hrefs accept_brackets tied_levels (lit "fire")
          = Ok (Some _)) as Hr by (vm_compute; reflexivity).
  split; [exact Hr|]. split; [reflexivity|]. split; [reflexivity|].
  by apply (level_statistics_are_consistent accept_brackets _ _ _ _ _
              Hr tied_levels_wf).
Defined.

Lemma matches_come_from_surviving_links_witness :
  exists r,
    search_keyword_in_hrefs accept_brackets fire_level (lit "fire")
    = Ok (Some r)
    /\ map cand_url (get_list 1 (all_matches r)) = [fire_report_url]
    /\ NoDup (map cand_normalized_url (get_list 1 (all_matches r)))
    /\ exists dbg,
         dict_get 1 (debug_info r) = Some dbg
         /\ total_urls dbg = 2
         /\ included dbg
            = map cand_normalized_url (get_list 1 (all_matches r)).
Proof.
  eexists.
  assert (search_keyword_in_hrefs accept_brackets fire_level (lit "fire")
          = Ok (Some _)) as Hr by (vm_compute; reflexivity).
  split_and!; [exact Hr | reflexivity |..];
    eapply (matches_come_from_surviving_links accept_brackets fire_level
              (lit "fire") _ 1 _ Hr (NoDup_singleton 1)
              (list_elem_of_here _ _)).
Defined.


Lemma rank_raises_exactly_on_unparsable_witness :
  exists e,
    search_keyword_in_hrefs accept_brackets broken_level (lit "water")
    = Raise e.
Proof.
  apply rank_raises_exactly_on_unparsable. eexists 0, _.
  split; [apply list_elem_of_here|]. left.
  exists (anchor "http://[" "Broken"), ValueError.
  split_and!; [|reflexivity..].
  apply list_elem_of_further, list_elem_of_here.
Defined.

(** A normalized URL that does not parse: without a network location in
    the link, the bracket comes to stand in the network location. *)
Example normalized_url_can_fail_to_parse :
  urlparse accept_brackets (lit "mailto:x]")
  = Ok {| scheme := lit "mailto"; netloc := []; path := lit "x]";
          params := []; query := []; fragment := [] |}
  /\ urlparse accept_brackets (lit "mailto://x]") = Raise ValueError
  /\ search_keyword_in_hrefs accept_brackets
       [(0, [anchor "mailto:x]" "Mail"])] (lit "fire")
     = Raise ValueError.
Proof. split_and!; vm_compute; reflexivity. Qed.

Lemma level_order_is_irrelevant_witness :
  exists r,
    search_keyword_in_hrefs accept_brackets tied_levels (lit "fire")
    = Ok (Some r)
    /\ target_level r = 1
    /\ exists r',
         search_keyword_in_hrefs accept_brackets (rev tied_levels)
           (lit "fire")
         = Ok (Some r')
         /\ map fst (level_stats r') = [1; 2; 3]
         /\ target_level r' = target_level r
         /\ (highest_ratio r' == highest_ratio r)%Q
         /\ best_matches r' = best_matches r.
Proof.
  eexists.
  assert (search_keyword_in_hrefs accept_brackets tied_levels (lit "fire")
          = Ok (Some _)) as Hr by (vm_compute; reflexivity).
  split_and!; [exact Hr | reflexivity |].
  destruct (level_order_is_irrelevant accept_brackets tied_levels
              (rev tied_levels) (lit "fire") _ (Permutation_rev _)
              tied_levels_wf Hr)
    as (r' & Hr' & Htarget & Hratio & Hbest & _).
  exists r'. split_and!; [exact Hr' | | done..].
  assert (search_keyword_in_hrefs accept_brackets (rev tied_levels)
            (lit "fire") = Ok (Some _)) as Hr'' by (vm_compute; reflexivity).
  rewrite Hr'' in Hr'. by injection Hr' as <-.
Defined.

(** The keyword is not found inside a longer word, and is found next to a
    character that is not of a word. *)
Example keyword_is_not_found_inside_a_word :
  re_search (keyword_regex_of (lit "fire")) (lit "/firewall/rules") = false
  /\ re_search (keyword_regex_of (lit "fire")) (lit "/fire_safety") = false
  /\ re_search (keyword_regex_of (lit "fire")) (lit "/Fire-safety") = true
  /\ re_search (keyword_regex_of (lit "fire")) (lit "/news/fire.html") = true.
Proof. split_and!; reflexivity. Qed.

Lemma fragment_and_query_links_are_logged_witness :
  exists r,
    search_keyword_in_hrefs accept_brackets sparse_levels (lit "fire")
    = Ok (Some r)
    /\ (exists dbg,
          dict_get 0 (debug_info r) = Some dbg
          /\ dict_get (lit "https://x.com/news#top") (skipped dbg)
             = Some (lit "Has anchor (#top)"))
    /\ (forall c, c ∈ get_list 0 (all_matches r) ->
          cand_url c ≠ lit "https://x.com/news#top").
Proof.
  eexists.
  assert (search_keyword_in_hrefs accept_brackets sparse_levels (lit "fire")
          = Ok (Some _)) as Hr by (vm_compute; reflexivity).
  assert (urlparse accept_brackets (lit "https://x.com/news#top") = Ok _)
    as Hp by (vm_compute; reflexivity).
  split; [exact Hr|].
  destruct (fragment_and_query_links_are_logged accept_brackets
              sparse_levels (lit "fire") _ 0 _
              (anchor "https://x.com/news#top" "Top") _ Hr sparse_levels_wf
              (list_elem_of_here _ _)
              (list_elem_of_further _ _ _ (list_elem_of_here _ _))
              eq_refl Hp eq_refl)
    as (Hlog & _ & Hnone).
  split; [exact Hlog | exact Hnone].
Defined.

Lemma normalized_url_parses_to_the_same_path_witness :
  exists parsed_url,
    urlparse accept_brackets (lit "HTTPS://x.com/fire/report;v=1?q=2#top")
    = Ok parsed_url
    /\ normalize parsed_url = lit "https://x.com/fire/report"
    /\ urlparse accept_brackets (normalize parsed_url)
       = Ok {| scheme := lit "https"; netloc := lit "x.com";
               path := lit "/fire/report"; params := []; query := [];
               fragment := [] |}.
Proof.
  eexists.
  assert (urlparse accept_brackets
            (lit "HTTPS://x.com/fire/report;v=1?q=2#top") = Ok _) as Hp
    by (vm_compute; reflexivity).
  split_and!; [exact Hp | reflexivity |].
  apply (normalized_url_parses_to_the_same_path accept_brackets _ _ Hp);
    [reflexivity | by right].
Defined.

Lemma url_without_scheme_is_searched_with_its_host_witness :
  exists parsed_url,
    urlparse accept_brackets (lit "//fire.com/about") = Ok parsed_url
    /\ netloc parsed_url = lit "fire.com"
    /\ urlparse accept_brackets (normalize parsed_url)
       = Ok {| scheme := []; netloc := [];
               path := lit "://fire.com/about"; params := []; query := [];
               fragment := [] |}.
Proof.
  eexists.
  assert (urlparse accept_brackets (lit "//fire.com/about") = Ok _) as Hp
    by (vm_compute; reflexivity).
  split_and!; [exact Hp | reflexivity |].
  by apply (url_without_scheme_is_searched_with_its_host accept_brackets
              _ _ Hp).
Defined.

(** A link without a scheme whose host is the keyword is a match, though
    the keyword is not in its path. *)
Example host_name_matches_the_keyword :
  exists r,
    search_keyword_in_hrefs accept_brackets
      [(0, [anchor "//fire.com/about" "About"])] (lit "fire")
    = Ok (Some r)
    /\ map cand_path (best_matches r) = [Some (lit "://fire.com/about")]
    /\ (highest_ratio r == 1)%Q.
Proof. eexists. split_and!; vm_compute; reflexivity. Qed.

Lemma bfs_levels_are_ascending_witness :
  exists m,
    bfs_traverse_dom join_absolute_path sample_dom (lit "https://x.com")
    = Ok m
    /\ dict_keys m = [1; 2]
    /\ StronglySorted lt (dict_keys m)
    /\ wf_dict m.
Proof.
  eexists.
  assert (bfs_traverse_dom join_absolute_path sample_dom (lit "https://x.com")
          = Ok _) as Hrun by (vm_compute; reflexivity).
  split_and!; [exact Hrun | reflexivity |..];
    apply (bfs_levels_are_ascending join_absolute_path _ _ _ Hrun).
Defined.

Lemma link_texts_are_single_spaced_witness :
  exists m h,
    bfs_traverse_dom join_absolute_path sample_dom (lit "https://x.com")
    = Ok m
    /\ get_list 2 m = [h]
    /\ href_text h = lit "Deep link"
    /\ exists words,
         href_text h = join " " words
         /\ Forall (fun w => w ≠ [] /\ forall c, c ∈ w -> isspace c = false)
              words.
Proof.
  eexists _, _.
  assert (bfs_traverse_dom join_absolute_path sample_dom (lit "https://x.com")
          = Ok _) as Hrun by (vm_compute; reflexivity).
  split; [exact Hrun|]. split; [reflexivity|]. split; [reflexivity|].
  apply (link_texts_are_single_spaced join_absolute_path _ _ _ 2 _ Hrun).
  apply list_elem_of_here.
Defined.

(** A link text of whitespace only is cleaned to the empty text, not
    replaced by the text for a link without text. *)
Example blank_link_text_becomes_empty :
  node_link join_absolute_path (lit "https://x.com")
    (link_node "/fire" "   ")
  = Ok (Some {| href_url := lit "https://x.com/fire"; href_text := [];
                href_tag := lit "A"; href_element_type := lit "anchor" |})
  /\ node_link join_absolute_path (lit "https://x.com") (link_node "/fire" "")
     = Ok (Some {| href_url := lit "https://x.com/fire";
                   href_text := lit "[No text]"; href_tag := lit "A";
                   href_element_type := lit "anchor" |}).
Proof. split; reflexivity. Qed.

Lemma best_matches_are_links_at_the_selected_depth_witness :
  exists m r,
    bfs_traverse_dom join_absolute_path sample_dom (lit "https://x.com")
    = Ok m
    /\ search_keyword_in_hrefs accept_brackets m (lit "fire") = Ok (Some r)
    /\ target_level r = 1
    /\ map cand_url (best_matches r) = [fire_report_url]
    /\ (exists n, at_depth sample_dom (target_level r) n
          /\ eligible n = true)
    /\ forall c, c ∈ best_matches r ->
         exists n h,
           at_depth sample_dom (target_level r) n
           /\ eligible n = true
           /\ node_link join_absolute_path (lit "https://x.com") n
              = Ok (Some h)
           /\ cand_url c = href_url h
           /\ cand_text c = href_text h
           /\ cand_tag c = href_tag h.
Proof.
  eexists _, _.
  assert (bfs_traverse_dom join_absolute_path sample_dom (lit "https://x.com")
          = Ok _) as Hrun by (vm_compute; reflexivity).
  split; [exact Hrun|].
  match type of Hrun with
  | _ = Ok ?m =>
      assert (search_keyword_in_hrefs accept_brackets m (lit "fire")
              = Ok (Some _)) as Hr by (vm_compute; reflexivity)
  end.
  split_and!; [exact Hr | reflexivity | reflexivity |..];
    apply (best_matches_are_links_at_the_selected_depth accept_brackets
             join_absolute_path _ _ _ _ _ Hrun Hr).
Defined.


(** With the keyword [anchor] the URLs excluded for the keyword are listed
    as URLs with anchors. *)
Example keyword_anchor_lists_every_exclusion :
  exists r dbg,
    search_keyword_in_hrefs accept_brackets fire_level (lit "anchor")
    = Ok (Some r)
    /\ dict_get 1 (debug_info r) = Some dbg
    /\ anchor_urls (skipped dbg)
       = [ (fire_report_url, lit "Keyword 'anchor' not in URL path");
           (fire_url, lit "Keyword 'anchor' not in URL path") ].
Proof. eexists _, _. split_and!; vm_compute; reflexivity. Qed.

(** The text report of [fire_level], and of a level with a long URL and a
    text of whitespace. *)
Example fire_level_report :
  save_bfs_results_text fire_level (lit "https://x.com")
  = lit "BFS Traversal Results - hrefs by level for https://x.com"
    ++ newline ++ replicate 60 "="%char ++ newline ++ newline
    ++ lit "Level 1 - 2 hrefs found" ++ newline
    ++ replicate 40 "-"%char ++ newline
    ++ lit "1. [A] Fire report" ++ newline
    ++ lit "   URL: https://x.com/fire/report" ++ newline ++ newline
    ++ lit "2. [A] Fire" ++ newline
    ++ lit "   URL: https://x.com/fire" ++ newline ++ newline.
Proof. vm_compute. reflexivity. Qed.

Example long_url_is_cut :
  href_lines 12
    {| href_url := lit "https://x.com/" ++ replicate 80 "a"%char;
       href_text := lit "  "; href_tag := lit "DIV";
       href_element_type := lit "element_with_href" |}
  = [ lit "12. [DIV] ";
      lit "   URL: https://x.com/" ++ replicate 63 "a"%char ++ lit "...";
      [] ].
Proof. vm_compute. reflexivity. Qed.
